(** * A shallow embedding of the Git client (object store, index, commit
      graph, pack builder, ref discovery) and the properties of its
      specification.

    Python values are modelled as follows.
    - [bytes] is [list byte]; a [str] is the list of its Unicode code points
      ([list N]); an [int] is a [Z].
    - An exception is a value of [exn]; a call that may raise returns a
      [result]. What a call has written before it raises is not kept: no
      property below looks at the repository after an exception.
    - The repository directory is a record of the files the code touches:
      the object files (keyed by their path below [.git/objects]), the index
      file and the [master] ref file.
    - [hashlib.sha1] is implemented (module [SHA1]); [zlib] is a pair of
      functions [compress]/[decompress] about which only
      [decompress (compress x) = x] is assumed.
    - [create_repo] runs where there is no repository yet: it is modelled
      on the tree of directories and files at [repo_path], and what it has
      made when it fails is kept.
    - [http_request] is an argument of [push]: what the server answers to a
      request, or that the request fails.
    The command line of git_clone.py and the [__main__] blocks are not
    modelled. *)

From Stdlib Require Import ZArith NArith Lia.
From Stdlib Require Import Strings.Byte Strings.String Strings.Ascii.
From Stdlib Require Import DecimalPos DecimalN.
From stdpp Require Import gmap list sorting.

Local Open Scope N_scope.

(** ** Bytes and text *)

Abbreviation bytes := (list byte).
Abbreviation str := (list N).

Definition byte_of_N (n : N) : byte :=
  match Byte.of_N (n mod 256) with Some b => b | None => x00 end.

(** A bytes literal [b'...'] of the source. *)
Definition lit (s : string) : bytes := list_byte_of_string s.

(** A (pure ASCII) str literal ['...'] of the source. *)
Definition txt (s : string) : str := map Byte.to_N (list_byte_of_string s).

(** ** Exceptions *)

Inductive exn : Type :=
  | FileNotFoundError
  | ValueError (msg : string)
  | StructError
  | UnicodeDecodeError
  | UnicodeEncodeError
  | KeyError
  | IndexError
  | AssertionError
  | StopIteration
  | ZlibError
  | OutOfFuel.

Inductive result (A : Type) : Type :=
  | Ok (a : A)
  | Raise (e : exn).
Arguments Ok {A} a.
Arguments Raise {A} e.

(** [result] is used through stdpp's monad notations: [x ← r; k]. *)
#[global] Instance result_ret : MRet result := fun _ a => Ok a.
#[global] Instance result_bind : MBind result := fun _ _ k r =>
  match r with Ok a => k a | Raise e => Raise e end.
Arguments result_bind {_ _} _ !_ /.

(** ** [hashlib.sha1] *)

Module SHA1.

Definition mask32 : N := 0xFFFFFFFF.
Definition add32 (a b : N) : N := N.land (a + b) mask32.
Definition rotl (n x : N) : N :=
  N.land (N.lor (N.shiftl x n) (N.shiftr x (32 - n))) mask32.
Definition not32 (x : N) : N := N.lxor (N.land x mask32) mask32.

Definition be32 (x : N) : bytes :=
  [byte_of_N (N.shiftr x 24); byte_of_N (N.shiftr x 16);
   byte_of_N (N.shiftr x 8); byte_of_N x].

Definition be64 (x : N) : bytes := be32 (N.shiftr x 32) ++ be32 x.

Definition pad (msg : bytes) : bytes :=
  let len := N.of_nat (length msg) in
  let zeros := N.to_nat ((64 + 55 - len mod 64) mod 64) in
  msg ++ x80 :: repeat x00 zeros ++ be64 (8 * len).

Definition word (a b c d : byte) : N :=
  N.lor (N.shiftl (Byte.to_N a) 24)
    (N.lor (N.shiftl (Byte.to_N b) 16)
       (N.lor (N.shiftl (Byte.to_N c) 8) (Byte.to_N d))).

Fixpoint words (l : bytes) : list N :=
  match l with
  | a :: b :: c :: d :: l' => word a b c d :: words l'
  | _ => []
  end.

Fixpoint extend (n : nat) (win : list N) : list N :=
  match n with
  | O => []
  | S n' =>
      match win with
      | [w0; w1; w2; w3; w4; w5; w6; w7; w8; w9; w10; w11; w12; w13; w14; w15] =>
          let w := rotl 1 (N.lxor (N.lxor (N.lxor w13 w8) w2) w0) in
          w :: extend n'
                 [w1; w2; w3; w4; w5; w6; w7; w8; w9; w10; w11; w12; w13; w14; w15; w]
      | _ => []
      end
  end.

Definition schedule (block : list N) : list N := block ++ extend 64 block.

Definition f (t b c d : N) : N :=
  if t <? 20 then N.lor (N.land b c) (N.land (not32 b) d)
  else if t <? 40 then N.lxor (N.lxor b c) d
  else if t <? 60 then N.lor (N.lor (N.land b c) (N.land b d)) (N.land c d)
  else N.lxor (N.lxor b c) d.

Definition k (t : N) : N :=
  if t <? 20 then 0x5A827999
  else if t <? 40 then 0x6ED9EBA1
  else if t <? 60 then 0x8F1BBCDC
  else 0xCA62C1D6.

Record state := St { ha : N; hb : N; hc : N; hd : N; he : N }.

Definition init : state :=
  St 0x67452301 0xEFCDAB89 0x98BADCFE 0x10325476 0xC3D2E1F0.

Fixpoint rounds (t : N) (ws : list N) (s : state) : state :=
  match ws with
  | [] => s
  | w :: ws' =>
      let temp :=
        add32 (add32 (add32 (add32 (rotl 5 (ha s)) (f t (hb s) (hc s) (hd s)))
                        (he s)) (k t)) w in
      rounds (t + 1) ws' (St temp (ha s) (rotl 30 (hb s)) (hc s) (hd s))
  end.

Definition compress_block (s : state) (block : list N) : state :=
  let s' := rounds 0 (schedule block) s in
  St (add32 (ha s) (ha s')) (add32 (hb s) (hb s')) (add32 (hc s) (hc s'))
     (add32 (hd s) (hd s')) (add32 (he s) (he s')).

Fixpoint blocks (n : nat) (ws : list N) (s : state) : state :=
  match n with
  | O => s
  | S n' =>
      match ws with
      | [] => s
      | _ => blocks n' (drop 16 ws) (compress_block s (take 16 ws))
      end
  end.

(** [hashlib.sha1(data).digest()]: always 20 bytes. *)
Definition digest (msg : bytes) : bytes :=
  let ws := words (pad msg) in
  let s := blocks (length ws) ws init in
  be32 (ha s) ++ be32 (hb s) ++ be32 (hc s) ++ be32 (hd s) ++ be32 (he s).

End SHA1.

(** ** Hexadecimal, decimal and octal text *)

Definition hexdigit (n : N) : N :=
  if n <? 10 then 48 + n else 87 + n.

(** [bytes.hex()] *)
Definition hex (b : bytes) : str :=
  flat_map (fun x => [hexdigit (Byte.to_N x / 16); hexdigit (Byte.to_N x mod 16)]) b.

(** [hashlib.sha1(data).hexdigest()] *)
Definition hexdigest (msg : bytes) : str := hex (SHA1.digest msg).


Definition digit (n : N) : N := 48 + n.

Fixpoint uint_digits (d : Decimal.uint) : str :=
  match d with
  | Decimal.Nil => []
  | Decimal.D0 d => digit 0 :: uint_digits d
  | Decimal.D1 d => digit 1 :: uint_digits d
  | Decimal.D2 d => digit 2 :: uint_digits d
  | Decimal.D3 d => digit 3 :: uint_digits d
  | Decimal.D4 d => digit 4 :: uint_digits d
  | Decimal.D5 d => digit 5 :: uint_digits d
  | Decimal.D6 d => digit 6 :: uint_digits d
  | Decimal.D7 d => digit 7 :: uint_digits d
  | Decimal.D8 d => digit 8 :: uint_digits d
  | Decimal.D9 d => digit 9 :: uint_digits d
  end.

Definition is_digit (c : N) : Prop := 48 <= c <= 57.

(** [str(n)] for a non-negative int. *)
Definition dec (n : N) : str := uint_digits (N.to_uint n).

(** [str(z)], the ['{}'] of [format] on an int. *)
Definition dec_int (z : Z) : str :=
  if (z <? 0)%Z then 45 :: dec (Z.abs_N z) else dec (Z.abs_N z).

(** ['{:02}'] on a non-negative int: padded with zeros to two digits. *)
Definition dec02 (z : Z) : str :=
  let d := dec_int z in
  repeat (digit 0) (2 - length d) ++ d.

Fixpoint oct_digits (fuel : nat) (n : N) (acc : str) : str :=
  match fuel with
  | O => acc
  | S fuel' =>
      let acc' := digit (n mod 8) :: acc in
      if n / 8 =? 0 then acc' else oct_digits fuel' (n / 8) acc'
  end.

(** ['{:o}'] on an int. *)
Definition oct (z : Z) : str :=
  let n := Z.abs_N z in
  let d := oct_digits (S (N.to_nat (N.log2 n))) n [] in
  if (z <? 0)%Z then 45 :: d else d.

Fixpoint hex_digits (fuel : nat) (n : N) (acc : str) : str :=
  match fuel with
  | O => acc
  | S fuel' =>
      let acc' := hexdigit (n mod 16) :: acc in
      if n / 16 =? 0 then acc' else hex_digits fuel' (n / 16) acc'
  end.

(** ['{:04x}'] on a non-negative int: at least four digits, with zeros in
    front. *)
Definition hex04 (n : N) : str :=
  let d := hex_digits (S (N.to_nat (N.log2 n))) n [] in
  repeat (digit 0) (4 - length d) ++ d.

(** ** UTF-8: [str.encode()] and [bytes.decode()] *)

Definition encode_cp (c : N) : result bytes :=
  if c <? 0x80 then Ok [byte_of_N c]
  else if c <? 0x800 then
    Ok [byte_of_N (0xC0 + c / 64); byte_of_N (0x80 + c mod 64)]
  else if c <? 0x10000 then
    if (0xD800 <=? c) && (c <? 0xE000) then Raise UnicodeEncodeError
    else Ok [byte_of_N (0xE0 + c / 4096); byte_of_N (0x80 + (c / 64) mod 64);
             byte_of_N (0x80 + c mod 64)]
  else if c <? 0x110000 then
    Ok [byte_of_N (0xF0 + c / 262144); byte_of_N (0x80 + (c / 4096) mod 64);
        byte_of_N (0x80 + (c / 64) mod 64); byte_of_N (0x80 + c mod 64)]
  else Raise UnicodeEncodeError.

Fixpoint encode (s : str) : result bytes :=
  match s with
  | [] => Ok []
  | c :: s' => b ← encode_cp c; r ← encode s'; Ok (b ++ r)
  end.

(** The payload of a continuation byte [10xxxxxx]. *)
Definition cont (b : byte) : option N :=
  let n := Byte.to_N b in
  if (0x80 <=? n) && (n <? 0xC0) then Some (n - 0x80) else None.

Fixpoint decode (b : bytes) : result str :=
  match b with
  | [] => Ok []
  | b0 :: r0 =>
      let n0 := Byte.to_N b0 in
      if n0 <? 0x80 then s ← decode r0; Ok (n0 :: s)
      else if n0 <? 0xC2 then Raise UnicodeDecodeError
      else if n0 <? 0xE0 then
        match r0 with
        | b1 :: r1 =>
            match cont b1 with
            | Some c1 => s ← decode r1; Ok ((n0 - 0xC0) * 64 + c1 :: s)
            | None => Raise UnicodeDecodeError
            end
        | _ => Raise UnicodeDecodeError
        end
      else if n0 <? 0xF0 then
        match r0 with
        | b1 :: b2 :: r2 =>
            match cont b1, cont b2 with
            | Some c1, Some c2 =>
                let c := (n0 - 0xE0) * 4096 + c1 * 64 + c2 in
                if (c <? 0x800) || ((0xD800 <=? c) && (c <? 0xE000))
                then Raise UnicodeDecodeError
                else s ← decode r2; Ok (c :: s)
            | _, _ => Raise UnicodeDecodeError
            end
        | _ => Raise UnicodeDecodeError
        end
      else if n0 <? 0xF5 then
        match r0 with
        | b1 :: b2 :: b3 :: r3 =>
            match cont b1, cont b2, cont b3 with
            | Some c1, Some c2, Some c3 =>
                let c := (n0 - 0xF0) * 262144 + c1 * 4096 + c2 * 64 + c3 in
                if (c <? 0x10000) || (0x110000 <=? c)
                then Raise UnicodeDecodeError
                else s ← decode r3; Ok (c :: s)
            | _, _, _ => Raise UnicodeDecodeError
            end
        | _ => Raise UnicodeDecodeError
        end
      else Raise UnicodeDecodeError
  end.

(** ** Text and bytes methods *)

(** [s[a:b]] for non-negative bounds. *)
Definition slice {A} (s : list A) (a b : nat) : list A := take (b - a) (drop a s).

(** [s.startswith(p)] *)
Fixpoint startswith {A} `{EqDecision A} (p s : list A) : bool :=
  match p, s with
  | [], _ => true
  | x :: p', y :: s' => bool_decide (x = y) && startswith p' s'
  | _ :: _, [] => false
  end.

(** [p in s] for bytes: [p] occurs as a contiguous run. *)
Fixpoint contains {A} `{EqDecision A} (p s : list A) : bool :=
  startswith p s || match s with [] => false | _ :: s' => contains p s' end.

#[global] Instance byte_eq_dec : EqDecision byte := Byte.byte_eq_dec.

(** [str.isspace] on one code point. *)
Definition isspace (c : N) : bool :=
  ((9 <=? c) && (c <=? 13)) || ((28 <=? c) && (c <=? 32)) || (c =? 0x85)
  || (c =? 0xA0) || (c =? 0x1680) || ((0x2000 <=? c) && (c <=? 0x200A))
  || (c =? 0x2028) || (c =? 0x2029) || (c =? 0x202F) || (c =? 0x205F)
  || (c =? 0x3000).

(** Whitespace for [bytes.split()]: the six ASCII blanks. *)
Definition isspace_byte (b : byte) : bool :=
  let n := Byte.to_N b in ((9 <=? n) && (n <=? 13)) || (n =? 32).

(** [s.split()]: maximal runs of non-blank elements. [cur] is the run being
    read, last element first. *)
Fixpoint split_ws {A} (blank : A -> bool) (s cur : list A) : list (list A) :=
  match s with
  | [] => match cur with [] => [] | _ => [rev cur] end
  | c :: s' =>
      if blank c then
        match cur with
        | [] => split_ws blank s' []
        | _ => rev cur :: split_ws blank s' []
        end
      else split_ws blank s' (c :: cur)
  end.

(** [s.strip()] *)
Fixpoint lstrip (s : str) : str :=
  match s with
  | c :: s' => if isspace c then lstrip s' else s
  | [] => []
  end.
Definition strip (s : str) : str := rev (lstrip (rev (lstrip s))).

(** The code points at which [str.splitlines] breaks a line. *)
Definition linebreak (c : N) : bool :=
  ((10 <=? c) && (c <=? 13)) || ((28 <=? c) && (c <=? 30)) || (c =? 0x85)
  || (c =? 0x2028) || (c =? 0x2029).

(** [s.splitlines()]; [cur] is the line being read, last code point first.
    A carriage return followed by a line feed is one break. *)
Fixpoint splitlines (s cur : str) : list str :=
  match s with
  | [] => match cur with [] => [] | _ => [rev cur] end
  | c :: s' =>
      if linebreak c then
        rev cur ::
          match s' with
          | c' :: s'' =>
              if (c =? 13) && (c' =? 10) then splitlines s'' [] else splitlines s' []
          | [] => splitlines s' []
          end
      else splitlines s' (c :: cur)
  end.

(** [sep.join(parts)] *)
Fixpoint join {A} (sep : list A) (parts : list (list A)) : list A :=
  match parts with
  | [] => []
  | [p] => p
  | p :: ps => p ++ sep ++ join sep ps
  end.

(** [data.split(sep)] for a one-byte separator: every occurrence splits. *)
Fixpoint split_on (sep : byte) (data cur : bytes) : list bytes :=
  match data with
  | [] => [rev cur]
  | b :: data' =>
      if bool_decide (b = sep) then rev cur :: split_on sep data' []
      else split_on sep data' (b :: cur)
  end.

(** [data.split(sep, 1)]: split at the first occurrence only. *)
Fixpoint split_once (sep : byte) (data cur : bytes) : list bytes :=
  match data with
  | [] => [rev cur]
  | b :: data' =>
      if bool_decide (b = sep) then [rev cur; data']
      else split_once sep data' (b :: cur)
  end.

(** The first index [>= i] at which [b] occurs in [l], whose first element
    has index [i]; [-1] when there is none. *)
Fixpoint find_from (b : byte) (l : bytes) (i : Z) : Z :=
  match l with
  | [] => (-1)%Z
  | x :: l' => if bool_decide (x = b) then i else find_from b l' (i + 1)%Z
  end.

(** [data.find(b, start)]: a negative [start] counts from the end. *)
Definition bytes_find (b : byte) (data : bytes) (start : Z) : Z :=
  let len := Z.of_nat (length data) in
  let s := if (start <? 0)%Z then Z.max 0 (len + start) else start in
  find_from b (drop (Z.to_nat s) data) s.

(** [data.index(b, start)] for [start >= 0]. *)
Definition bytes_index (b : byte) (data : bytes) (start : nat) : result nat :=
  let r := find_from b (drop start data) (Z.of_nat start) in
  if (r <? 0)%Z then Raise (ValueError "subsection not found") else Ok (Z.to_nat r).

(** ** [struct] *)

(** Format [L] with [!]: four bytes, big-endian, for [0 <= z < 2^32]. *)
Definition pack_L (z : Z) : result bytes :=
  if ((0 <=? z) && (z <? 2 ^ 32))%Z then Ok (SHA1.be32 (Z.to_N z))
  else Raise StructError.

(** Format [H] with [!]: two bytes, big-endian, for [0 <= z < 2^16]. *)
Definition pack_H (z : Z) : result bytes :=
  if ((0 <=? z) && (z <? 2 ^ 16))%Z
  then Ok [byte_of_N (N.shiftr (Z.to_N z) 8); byte_of_N (Z.to_N z)]
  else Raise StructError.

(** Format [<n>s]: truncated or padded with NUL bytes to [n] bytes. *)
Definition pack_s (n : nat) (b : bytes) : bytes :=
  take n b ++ repeat x00 (n - length b).

(** The big-endian value of a run of bytes. *)
Definition be_value (b : bytes) : Z :=
  fold_left (fun acc x => (acc * 256 + Z.of_N (Byte.to_N x))%Z) b 0%Z.

(** ** [zlib] *)

(** The two [zlib] functions the code calls. [decompress] returns [None]
    where [zlib.decompress] raises [zlib.error]. *)
Class Zlib := {
  compress : bytes -> bytes;
  decompress : bytes -> option bytes
}.

(** What is assumed of them: decompression inverts compression. *)
Class ZlibInverse `{Zlib} : Prop :=
  decompress_compress : forall b : bytes, decompress (compress b) = Some b.

(** ** The repository on disk *)

(** The files below [<repo>/.git] that the code reads and writes. The
    directories [objects] and [refs/heads] exist (the repository has been
    initialised). [objects] maps the path of an object file, relative to
    [.git/objects], to its content; [index_file] is [.git/index];
    [master_ref] is the text of [.git/refs/heads/master]. *)
Record repo := Repo {
  objects : gmap str bytes;
  index_file : option bytes;
  master_ref : option str
}.

(** What [os.stat] returns; the two times are already truncated to ints. *)
Record stat_result := Stat {
  st_ctime : Z; st_mtime : Z; st_dev : Z; st_ino : Z; st_mode : Z;
  st_uid : Z; st_gid : Z; st_size : Z
}.

(** A file of the working directory. *)
Record file := File { content : bytes; stat : stat_result }.

(** [os.path.join(sha1_hash[:2], sha1_hash[2:])] *)
Definition object_path (sha1_hash : str) : str :=
  take 2 sha1_hash ++ txt "/" ++ drop 2 sha1_hash.

(** The object file of a hash, when there is one. A path whose last
    component is empty names the bucket directory, not a file. *)
Definition object_file (st : repo) (sha1_hash : str) : option bytes :=
  match drop 2 sha1_hash with
  | [] => None
  | _ => objects st !! object_path sha1_hash
  end.

(** ** object_store.py *)

Module object_store.
Section object_store.
Context `{Zlib}.

Definition compute_hash (data : bytes) (obj_type : str) : result (str * bytes) :=
  header ← encode (obj_type ++ txt " " ++ dec (N.of_nat (length data)));
  let full_data := header ++ x00 :: data in
  Ok (hexdigest full_data, full_data).

Definition store_object (data : bytes) (obj_type : str) (st : repo)
  : result (str * repo) :=
  '(sha1_hash, full_data) ← compute_hash data obj_type;
  match object_file st sha1_hash with
  | Some _ => Ok (sha1_hash, st)
  | None =>
      Ok (sha1_hash,
          Repo (<[object_path sha1_hash := compress full_data]> (objects st))
               (index_file st) (master_ref st))
  end.

Definition retrieve_object (sha1_hash : str) (st : repo) : result (str * bytes) :=
  match object_file st sha1_hash with
  | None => Raise FileNotFoundError
  | Some compressed_data =>
      match decompress compressed_data with
      | None => Raise ZlibError
      | Some full_data =>
          match split_once x00 full_data [] with
          | [header; data] =>
              text ← decode header;
              match split_ws isspace text [] with
              | [obj_type; _] => Ok (obj_type, data)
              | _ => Raise (ValueError "unpack")
              end
          | _ => Raise (ValueError "unpack")
          end
      end
  end.

End object_store.
End object_store.

(** ** index_manager.py *)

Module index_manager.

Record IndexEntry := mkIndexEntry {
  ctime_s : Z; ctime_n : Z; mtime_s : Z; mtime_n : Z; dev : Z; ino : Z;
  mode : Z; uid : Z; gid : Z; size : Z; sha1 : bytes; flags : Z; path : str
}.

(** [struct.unpack('!4sLL', b)] *)
Definition unpack_header (b : bytes) : result (bytes * Z * Z) :=
  if decide (length b = 12%nat)
  then Ok (slice b 0 4, be_value (slice b 4 8), be_value (slice b 8 12))
  else Raise StructError.

(** The entry made of the fields [struct.unpack('!LLLLLLLLLL20sH', b)] and
    of [path]. *)
Definition unpack_entry (b : bytes) : result (str -> IndexEntry) :=
  if decide (length b = 62%nat)
  then
    let L k := be_value (slice b (4 * k) (4 * k + 4)) in
    Ok (mkIndexEntry (L 0%nat) (L 1%nat) (L 2%nat) (L 3%nat) (L 4%nat) (L 5%nat)
          (L 6%nat) (L 7%nat) (L 8%nat) (L 9%nat) (slice b 40 60)
          (be_value (slice b 60 62)))
  else Raise StructError.

(** The [while] loop of [read_index]. Every turn moves [i] forward by at
    least 64, so [length entry_data] turns are never used up. *)
Fixpoint read_entries (fuel : nat) (entry_data : bytes) (i : nat)
    (entries : list IndexEntry) {struct fuel} : result (list IndexEntry) :=
  if decide (i + 62 <= length entry_data)%nat then
    match fuel with
    | O => Raise OutOfFuel
    | S fuel' =>
        fields ← unpack_entry (slice entry_data i (i + 62));
        path_end ← bytes_index x00 entry_data (i + 62);
        path ← decode (slice entry_data (i + 62) path_end);
        let entry := fields path in
        let entry_len := ((62 + length path + 8) / 8 * 8)%nat in
        read_entries fuel' entry_data (i + entry_len) (entries ++ [entry])
    end
  else Ok entries.

Definition read_index (st : repo) : result (list IndexEntry) :=
  match index_file st with
  | None => Ok []
  | Some data =>
      '(signature, version, num_entries) ← unpack_header (take 12 data);
      if negb (bool_decide (signature = lit "DIRC"))
      then Raise (ValueError "Invalid index file signature")
      else if negb (version =? 2)%Z
      then Raise (ValueError "Unsupported index file version")
      else
        let entry_data := drop 12 data in
        read_entries (length entry_data) entry_data 0 []
  end.

Definition mask (z : Z) : Z := Z.land z 0xFFFFFFFF.

(** One turn of the [for] loop of [write_index]: the packed entry and its
    padding. *)
Definition pack_entry (entry : IndexEntry) : result bytes :=
  path_bytes ← encode (path entry);
  f0 ← pack_L (mask (ctime_s entry)); f1 ← pack_L (mask (ctime_n entry));
  f2 ← pack_L (mask (mtime_s entry)); f3 ← pack_L (mask (mtime_n entry));
  f4 ← pack_L (mask (dev entry)); f5 ← pack_L (mask (ino entry));
  f6 ← pack_L (mask (mode entry)); f7 ← pack_L (mask (uid entry));
  f8 ← pack_L (mask (gid entry)); f9 ← pack_L (mask (size entry));
  fl ← pack_H (flags entry);
  let entry_data :=
    f0 ++ f1 ++ f2 ++ f3 ++ f4 ++ f5 ++ f6 ++ f7 ++ f8 ++ f9
    ++ pack_s 20 (sha1 entry) ++ fl ++ path_bytes ++ [x00] in
  Ok (entry_data
      ++ repeat x00 ((62 + length path_bytes + 8) / 8 * 8 - length entry_data)).

Fixpoint pack_entries (entries : list IndexEntry) (data : bytes) : result bytes :=
  match entries with
  | [] => Ok data
  | entry :: entries' => e ← pack_entry entry; pack_entries entries' (data ++ e)
  end.

(** The bytes [write_index] writes. *)
Definition index_bytes (entries : list IndexEntry) : result bytes :=
  n ← pack_L (Z.of_nat (length entries));
  two ← pack_L 2;
  data ← pack_entries entries (lit "DIRC" ++ two ++ n);
  Ok (data ++ SHA1.digest data).

Definition write_index (entries : list IndexEntry) (st : repo) : result repo :=
  data ← index_bytes entries;
  Ok (Repo (objects st) (Some data) (master_ref st)).

(** [entries[path] = entry] on a dict, which keeps its keys in the order of
    their first insertion. *)
Fixpoint dict_set (entries : list (str * IndexEntry)) (k : str) (v : IndexEntry)
  : list (str * IndexEntry) :=
  match entries with
  | [] => [(k, v)]
  | (k', v') :: rest =>
      if decide (k' = k) then (k, v) :: rest else (k', v') :: dict_set rest k v
  end.

Section index_manager.
Context `{Zlib}.

(** The [for] loop of [add_to_index] over the files of the working
    directory [worktree]. *)
Fixpoint add_paths (paths : list str) (worktree : gmap str file)
    (entries : list (str * IndexEntry)) (st : repo)
  : result (list (str * IndexEntry) * repo) :=
  match paths with
  | [] => Ok (entries, st)
  | path :: paths' =>
      match worktree !! path with
      | None => Raise FileNotFoundError
      | Some f =>
          let data := content f in
          '(sha1_hash, st') ← object_store.store_object data (txt "blob") st;
          let stat_info := stat f in
          sha1_bytes ← encode sha1_hash;
          let entry :=
            mkIndexEntry (mask (st_ctime stat_info)) 0 (mask (st_mtime stat_info)) 0
              (mask (st_dev stat_info)) (mask (st_ino stat_info))
              (mask (st_mode stat_info)) (mask (st_uid stat_info))
              (mask (st_gid stat_info)) (mask (st_size stat_info))
              sha1_bytes 0 path in
          add_paths paths' worktree (dict_set entries path entry) st'
      end
  end.

(** Returns the repository after the call and the line it prints. *)
Definition add_to_index (paths : list str) (worktree : gmap str file) (st : repo)
  : result (repo * str) :=
  old ← read_index st;
  let entries := foldl (fun d entry => dict_set d (path entry) entry) [] old in
  '(entries', st') ← add_paths paths worktree entries st;
  st'' ← write_index (map snd entries') st';
  Ok (st'', txt "Added " ++ dec (N.of_nat (length paths)) ++ txt " file(s) to the index.").

End index_manager.

(** The lines [list_index] prints. *)
Definition list_index (st : repo) : result (list str) :=
  entries ← read_index st;
  Ok (map (fun entry => oct (mode entry) ++ txt " " ++ hex (sha1 entry)
                        ++ txt " " ++ path entry) entries).

End index_manager.

(** ** commit_manager.py *)

Module commit_manager.
Import index_manager.
Section commit_manager.
Context `{Zlib}.

Fixpoint tree_entries (entries : list IndexEntry) : result (list bytes) :=
  match entries with
  | [] => Ok []
  | entry :: entries' =>
      mode_path ← encode (oct (mode entry) ++ txt " " ++ path entry);
      rest ← tree_entries entries';
      Ok ((mode_path ++ x00 :: sha1 entry) :: rest)
  end.

Definition write_tree (st : repo) : result (str * repo) :=
  entries ← read_index st;
  records ← tree_entries entries;
  let tree_data := concat records in
  object_store.store_object tree_data (txt "tree") st.

Definition get_latest_commit (st : repo) : option str :=
  match master_ref st with
  | None => None
  | Some text => Some (strip text)
  end.

Definition update_ref (commit_hash : str) (st : repo) : repo :=
  Repo (objects st) (index_file st) (Some (commit_hash ++ [10])).

(** A Python value is true in a condition unless it is [None] or empty. *)
Definition truthy (v : option str) : bool :=
  match v with Some (_ :: _) => true | _ => false end.

(** The text of the commit object. [timestamp] is
    [int(time.mktime(time.localtime()))] and [timezone] is [time.timezone]. *)
Definition commit_text (tree_hash : str) (parent_commit : option str)
    (message author : str) (timestamp timezone : Z) : str :=
  let utc_offset := (- timezone)%Z in
  let author_time :=
    dec_int timestamp ++ txt " "
    ++ (if (utc_offset >? 0)%Z then txt "+" else txt "-")
    ++ dec02 (Z.abs utc_offset / 3600)%Z
    ++ dec02 ((Z.abs utc_offset / 60) mod 60)%Z in
  let commit_lines :=
    [ txt "tree " ++ tree_hash;
      if truthy parent_commit then txt "parent " ++ default [] parent_commit else [];
      txt "author " ++ author ++ txt " " ++ author_time;
      txt "committer " ++ author ++ txt " " ++ author_time;
      [];
      message;
      [] ] in
  join [10] commit_lines.

(** Returns the hash, the repository after the call and the line printed. *)
Definition create_commit (message author : str) (timestamp timezone : Z) (st : repo)
  : result (str * repo * str) :=
  '(tree_hash, st1) ← write_tree st;
  let parent_commit := get_latest_commit st1 in
  commit_data ← encode (commit_text tree_hash parent_commit message author
                          timestamp timezone);
  '(commit_hash, st2) ← object_store.store_object commit_data (txt "commit") st1;
  let st3 := update_ref commit_hash st2 in
  Ok (commit_hash, st3, txt "Committed to master: " ++ slice commit_hash 0 7).

Variable st : repo.

(** [find_tree_objects] and its [while] loop. Both the recursion and the
    loop may fail to end on a store that is not a tree of objects, so every
    call and every turn uses one unit of [fuel]. *)
Fixpoint find_tree_objects (fuel : nat) (tree_sha1 : str) {struct fuel}
  : result (gset str) :=
  match fuel with
  | O => Raise OutOfFuel
  | S fuel' =>
      '(_, tree_data) ← object_store.retrieve_object tree_sha1 st;
      tree_loop fuel' tree_data 0 {[tree_sha1]}
  end
with tree_loop (fuel : nat) (tree_data : bytes) (i : Z) (objects : gset str)
    {struct fuel} : result (gset str) :=
  if (i <? Z.of_nat (length tree_data))%Z then
    match fuel with
    | O => Raise OutOfFuel
    | S fuel' =>
        let mode_end := bytes_find x20 tree_data i in
        let sha_start := (bytes_find x00 tree_data mode_end + 1)%Z in
        let sha1 := slice tree_data (Z.to_nat sha_start) (Z.to_nat sha_start + 20) in
        let sha1_hex := hex sha1 in
        let objects := objects ∪ {[sha1_hex]} in
        let i := (sha_start + 20)%Z in
        '(obj_type, _) ← object_store.retrieve_object sha1_hex st;
        objects ←
          (if bool_decide (obj_type = txt "tree")
           then sub ← find_tree_objects fuel' sha1_hex; Ok (objects ∪ sub)
           else Ok objects);
        tree_loop fuel' tree_data i objects
    end
  else Ok objects.

Fixpoint find_commit_objects (fuel : nat) (commit_sha1 : str) {struct fuel}
  : result (gset str) :=
  match fuel with
  | O => Raise OutOfFuel
  | S fuel' =>
      '(obj_type, commit_data) ← object_store.retrieve_object commit_sha1 st;
      if negb (bool_decide (obj_type = txt "commit")) then Raise AssertionError
      else
        text ← decode commit_data;
        let lines := splitlines text [] in
        tree_hash ←
          match filter (fun line => startswith (txt "tree ") line) lines with
          | line :: _ => Ok (slice line 5 45)
          | [] => Raise StopIteration
          end;
        sub ← find_tree_objects fuel' tree_hash;
        let objects := {[commit_sha1]} ∪ sub in
        let parent_hashes :=
          map (fun line => slice line 7 47)
              (filter (fun line => startswith (txt "parent ") line) lines) in
        foldl (fun acc parent_hash =>
                 objects ← acc;
                 sub ← find_commit_objects fuel' parent_hash;
                 Ok (objects ∪ sub))
              (Ok objects) parent_hashes
  end.

End commit_manager.
End commit_manager.

(** ** remote_manager.py *)

Module remote_manager.
Section remote_manager.
Context `{Zlib}.

(** The [for] loop of [get_remote_master_hash] over the lines of the
    response of the server. *)
Fixpoint scan_lines (lines : list bytes) : result (option str) :=
  match lines with
  | [] => Ok None
  | line :: lines' =>
      if startswith (lit "00") line then scan_lines lines'
      else if contains (lit "refs/heads/master") line then
        match split_ws isspace_byte line [] with
        | first :: _ => remote_hash ← decode first; Ok (Some remote_hash)
        | [] => Raise IndexError
        end
      else scan_lines lines'
  end.

(** [response] is what [http_request] returned. *)
Definition get_remote_master_hash (response : bytes) : result (option str) :=
  scan_lines (split_on x0a response []).

Definition find_missing_objects (fuel : nat) (local_sha1 : str)
    (remote_sha1 : option str) (st : repo) : result (gset str) :=
  local_objects ← commit_manager.find_commit_objects st fuel local_sha1;
  if commit_manager.truthy remote_sha1 then
    remote_objects ←
      commit_manager.find_commit_objects st fuel (default [] remote_sha1);
    Ok (local_objects ∖ remote_objects)
  else Ok local_objects.

Definition retrieve_object (sha1_hash : str) (st : repo) : result (str * bytes) :=
  match object_file st sha1_hash with
  | None => Raise FileNotFoundError
  | Some compressed_data =>
      match decompress compressed_data with
      | None => Raise ZlibError
      | Some decompressed_data =>
          match split_once x00 decompressed_data [] with
          | [header; data] =>
              text ← decode header;
              match split_ws isspace text [] with
              | obj_type :: _ => Ok (obj_type, data)
              | [] => Raise IndexError
              end
          | _ => Raise (ValueError "unpack")
          end
      end
  end.

(** The [while] loop of [pack_object]: one byte for every seven bits left
    of [size]. A number of [n] bits needs at most [n] turns. *)
Fixpoint size_bytes (fuel : nat) (size : N) : list N :=
  match fuel with
  | O => []
  | S fuel' =>
      if size =? 0 then []
      else N.lor (N.land size 0x7f) 0x80 :: size_bytes fuel' (N.shiftr size 7)
  end.

(** The list [header] of [pack_object]. *)
Definition pack_header (type_num size : N) : list N :=
  let size' := N.shiftr size 4 in
  N.lor (N.shiftl type_num 4) (N.land size 0x0f)
  :: size_bytes (N.to_nat (N.size size')) size'.

Definition type_num (obj_type : str) : result N :=
  if bool_decide (obj_type = txt "commit") then Ok 1
  else if bool_decide (obj_type = txt "tree") then Ok 2
  else if bool_decide (obj_type = txt "blob") then Ok 3
  else Raise KeyError.

Definition pack_object (obj_type : str) (data : bytes) : result bytes :=
  n ← type_num obj_type;
  Ok (map byte_of_N (pack_header n (N.of_nat (length data))) ++ compress data).

(** [a <= b] on str: code point by code point. *)
Fixpoint str_leb (a b : str) : bool :=
  match a, b with
  | [], _ => true
  | _ :: _, [] => false
  | x :: a', y :: b' => (x <? y) || ((x =? y) && str_leb a' b')
  end.

Definition str_le (a b : str) : Prop := Is_true (str_leb a b).

(** [sorted(objects)] *)
Definition sorted (objects : gset str) : list str :=
  merge_sort str_le (elements objects).

(** The [for] loop of [create_pack]. *)
Fixpoint pack_body (hashes : list str) (st : repo) (body : bytes) : result bytes :=
  match hashes with
  | [] => Ok body
  | sha1 :: hashes' =>
      '(obj_type, data) ← retrieve_object sha1 st;
      packed_obj ← pack_object obj_type data;
      pack_body hashes' st (body ++ packed_obj)
  end.

Definition create_pack (objects : gset str) (st : repo) : result bytes :=
  two ← pack_L 2;
  n ← pack_L (Z.of_nat (size objects));
  let header := lit "PACK" ++ two ++ n in
  body ← pack_body (sorted objects) st [];
  let full_data := header ++ body in
  let sha1_digest := SHA1.digest full_data in
  Ok (full_data ++ sha1_digest).

(** The [for] loop of [build_pkt_line_data]. *)
Fixpoint pkt_loop (lines : list str) : result (list bytes) :=
  match lines with
  | [] => Ok []
  | line :: lines' =>
      len ← encode (hex04 (N.of_nat (length line + 4)));
      payload ← encode line;
      rest ← pkt_loop lines';
      Ok ((len ++ payload) :: rest)
  end.

Definition build_pkt_line_data (lines : list str) : result bytes :=
  pkt_lines ← pkt_loop lines;
  Ok (concat (pkt_lines ++ [lit "0000"])).

(** How a call of [push] ends: it prints a line, or an exception leaves it.
    [TypeError] is the exception of [None[:2]]; [HTTPError] stands for what
    [urllib] raises. *)
Inductive push_outcome : Type :=
  | Printed (line : str)
  | Raised (e : exn)
  | TypeError
  | HTTPError.

(** [http_request url username password data] is what the server answers,
    [None] when the request raises. *)
Definition push (http_request : str -> str -> str -> option bytes -> option bytes)
    (git_url username password : str) (fuel : nat) (st : repo) : push_outcome :=
  let local_sha1 := commit_manager.get_latest_commit st in
  match http_request (git_url ++ txt "/info/refs?service=git-receive-pack")
          username password None with
  | None => HTTPError
  | Some response =>
      match remote_manager.get_remote_master_hash response with
      | Raise e => Raised e
      | Ok remote_sha1 =>
          match local_sha1 with
          | None => TypeError
          | Some local_sha1 =>
              match remote_manager.find_missing_objects fuel local_sha1 remote_sha1 st with
              | Raise e => Raised e
              | Ok missing_objects =>
                  match remote_manager.create_pack missing_objects st with
                  | Raise e => Raised e
                  | Ok pack_data =>
                      let lines :=
                        [ (if commit_manager.truthy remote_sha1
                           then default [] remote_sha1 else repeat 48 40)
                          ++ txt " " ++ local_sha1 ++ txt " refs/heads/master"
                          ++ [0] ++ txt "report-status" ] in
                      match build_pkt_line_data lines with
                      | Raise e => Raised e
                      | Ok pkt =>
                          match http_request (git_url ++ txt "/git-receive-pack")
                                  username password (Some (pkt ++ pack_data)) with
                          | None => HTTPError
                          | Some response =>
                              if contains (lit "unpack ok") response
                              then Printed (txt "Push successful")
                              else Printed (txt "Push failed")
                          end
                      end
                  end
              end
          end
      end
  end.

End remote_manager.
End remote_manager.

(** ** repo_manager.py *)

Module repo_manager.

(** A directory or a regular file. *)
Inductive node : Type :=
  | Dir
  | File (content : bytes).

(** The directory tree at [repo_path]. A path is the list of its components
    below [repo_path]; the empty path is [repo_path] itself. The directory
    above [repo_path] exists. *)
Abbreviation tree := (gmap (list str) node).

Inductive OSError : Type :=
  | FileExistsError
  | FileNotFoundError
  | NotADirectoryError
  | IsADirectoryError.

(** [os.mkdir(path)]. Returns the tree after the call and the exception it
    raises, if any. *)
Definition mkdir (path : list str) (t : tree) : tree * option OSError :=
  match t !! path with
  | Some _ => (t, Some FileExistsError)
  | None =>
      match path with
      | [] => (<[path := Dir]> t, None)
      | _ :: _ =>
          match t !! removelast path with
          | Some Dir => (<[path := Dir]> t, None)
          | Some (File _) => (t, Some NotADirectoryError)
          | None => (t, Some FileNotFoundError)
          end
      end
  end.

(** [os.makedirs(name)] for the path [rev rname]: the directories above
    are made first when [head] does not exist, and a [FileExistsError] of
    that call is passed over. *)
Fixpoint makedirs_rev (rname : list str) (t : tree) : tree * option OSError :=
  match rname with
  | [] => mkdir [] t
  | _ :: rhead =>
      if bool_decide (is_Some (t !! rev rhead)) then mkdir (rev rname) t
      else
        match makedirs_rev rhead t with
        | (t1, None) | (t1, Some FileExistsError) => mkdir (rev rname) t1
        | (t1, Some e) => (t1, Some e)
        end
  end.

Definition makedirs (name : list str) (t : tree) : tree * option OSError :=
  makedirs_rev (rev name) t.

(** [open(path, 'wb')] and [write(content)]. *)
Definition write_file (path : list str) (content : bytes) (t : tree)
  : tree * option OSError :=
  match t !! path with
  | Some Dir => (t, Some IsADirectoryError)
  | _ =>
      match t !! removelast path with
      | Some Dir => (<[path := File content]> t, None)
      | Some (File _) => (t, Some NotADirectoryError)
      | None => (t, Some FileNotFoundError)
      end
  end.

(** How [create_repo] ends: it returns after printing a line, or it leaves
    by [sys.exit(status)] after the message about [e] on the error stream. *)
Inductive outcome : Type :=
  | Returned (stdout : str)
  | Exited (status : Z) (e : OSError).

Definition create_repo (repo_path : str) (t : tree) : tree * outcome :=
  match makedirs [txt ".git"; txt "objects"] t with
  | (t1, Some e) => (t1, Exited 1 e)
  | (t1, None) =>
      match makedirs [txt ".git"; txt "refs"; txt "heads"] t1 with
      | (t2, Some e) => (t2, Exited 1 e)
      | (t2, None) =>
          match write_file [txt ".git"; txt "HEAD"] (lit "ref: refs/heads/master") t2 with
          | (t3, Some e) => (t3, Exited 1 e)
          | (t3, None) =>
              (t3, Returned (txt "Repository initialized at " ++ repo_path))
          end
      end
  end.

End repo_manager.

(** ** Notions of the specification *)

(** The three kinds of object. *)
Definition kinds : list str := [txt "blob"; txt "tree"; txt "commit"].

(** A word: visible ASCII characters, at least one. *)
Definition is_word (w : str) : Prop :=
  w <> [] /\ Forall (fun c => 32 < c < 127) w.

(** The object file named by the hash of [(obj_type, data)] is absent, or
    it holds that object: no other content sits under this hash. *)
Definition free_or_same `{Zlib} (st : repo) (data : bytes) (obj_type : str) : Prop :=
  forall (sha1_hash : str) (full_data : bytes),
    object_store.compute_hash data obj_type = Ok (sha1_hash, full_data) ->
    object_file st sha1_hash = None
    \/ exists c, object_file st sha1_hash = Some c /\ decompress c = Some full_data.

(** Every hash of the set names an object file that [retrieve_object] of
    remote_manager.py reads as an object of one of the three kinds. *)
Definition resolvable `{Zlib} (st : repo) (objects : gset str) : Prop :=
  forall h : str, h ∈ objects ->
    exists (kind : str) (data : bytes),
      remote_manager.retrieve_object h st = Ok (kind, data) /\ kind ∈ kinds.




(** [h] is the hash of the object [(kind, body)]. *)
Definition is_object_hash (h kind : str) (body : bytes) : Prop :=
  exists full_data : bytes, object_store.compute_hash body kind = Ok (h, full_data).

(** *** Index entries with a path in ASCII *)

(** An entry that [write_index] writes without loss, with a path in ASCII. *)
Definition entry_ascii (e : index_manager.IndexEntry) : Prop :=
  Forall (fun z => 0 <= z < 2 ^ 32)%Z
    [index_manager.ctime_s e; index_manager.ctime_n e; index_manager.mtime_s e;
     index_manager.mtime_n e; index_manager.dev e; index_manager.ino e;
     index_manager.mode e; index_manager.uid e; index_manager.gid e;
     index_manager.size e]
  /\ length (index_manager.sha1 e) = 20%nat
  /\ (0 <= index_manager.flags e < 2 ^ 16)%Z
  /\ Forall (fun c => 0 < c < 128) (index_manager.path e).

(** The 62 bytes of the fixed fields of an entry. *)
Definition fixed_fields (e : index_manager.IndexEntry) : bytes :=
  SHA1.be32 (Z.to_N (index_manager.ctime_s e))
  ++ SHA1.be32 (Z.to_N (index_manager.ctime_n e))
  ++ SHA1.be32 (Z.to_N (index_manager.mtime_s e))
  ++ SHA1.be32 (Z.to_N (index_manager.mtime_n e))
  ++ SHA1.be32 (Z.to_N (index_manager.dev e))
  ++ SHA1.be32 (Z.to_N (index_manager.ino e))
  ++ SHA1.be32 (Z.to_N (index_manager.mode e))
  ++ SHA1.be32 (Z.to_N (index_manager.uid e))
  ++ SHA1.be32 (Z.to_N (index_manager.gid e))
  ++ SHA1.be32 (Z.to_N (index_manager.size e))
  ++ index_manager.sha1 e
  ++ [byte_of_N (N.shiftr (Z.to_N (index_manager.flags e)) 8);
      byte_of_N (Z.to_N (index_manager.flags e))].

(** The record [write_index] writes for an entry with an ASCII path. *)
Definition entry_record (e : index_manager.IndexEntry) : bytes :=
  fixed_fields e ++ map byte_of_N (index_manager.path e) ++ [x00]
  ++ repeat x00 ((62 + length (index_manager.path e) + 8) / 8 * 8
                 - (62 + length (index_manager.path e) + 1)).

(** *** The objects reachable from a commit

    The notions below follow the words of the specification: what a tree
    lists, the closure of a tree, the tree and the parents of a commit, and
    the objects reachable from a commit. They are stated on the store and
    do not follow the traversal of the code. *)

(** One record of a tree: a mode without blank or NUL, a path without NUL
    and the 20 bytes of a hash. *)
Record tree_entry := TreeEntry {
  te_mode : bytes;
  te_path : bytes;
  te_sha1 : bytes
}.

Definition entry_ok (e : tree_entry) : Prop :=
  (x20 ∉ te_mode e) /\ (x00 ∉ te_mode e) /\ (x00 ∉ te_path e)
  /\ length (te_sha1 e) = 20%nat.

Definition entry_bytes (e : tree_entry) : bytes :=
  te_mode e ++ x20 :: te_path e ++ x00 :: te_sha1 e.

(** The content of a tree: its records one after the other. *)
Definition tree_bytes (entries : list tree_entry) : bytes :=
  concat (map entry_bytes entries).

Section reachable.
Context `{Zlib}.
Variable st : repo.

(** [t] is a tree object that lists the hashes [hs], in this order. *)
Definition tree_members (t : str) (hs : list str) : Prop :=
  exists entries : list tree_entry,
    object_store.retrieve_object t st = Ok (txt "tree", tree_bytes entries)
    /\ Forall entry_ok entries
    /\ hs = map (fun e => hex (te_sha1 e)) entries.








End reachable.

(** *** Notions for the proofs about the walk *)

Section walk_notions.
Context `{Zlib}.
Variable st : repo.




End walk_notions.

(** *** Notions for the other properties *)

(** Every entry of the tree lies in a directory. *)
Definition well_formed (t : repo_manager.tree) : Prop :=
  forall (path : list str) (name : str),
    is_Some (t !! (path ++ [name])) -> t !! path = Some repo_manager.Dir.

(** The 62 bytes that [write_index] packs for the fixed fields. *)
Definition packed_fields (e : index_manager.IndexEntry) : bytes :=
  SHA1.be32 (Z.to_N (index_manager.mask (index_manager.ctime_s e)))
  ++ SHA1.be32 (Z.to_N (index_manager.mask (index_manager.ctime_n e)))
  ++ SHA1.be32 (Z.to_N (index_manager.mask (index_manager.mtime_s e)))
  ++ SHA1.be32 (Z.to_N (index_manager.mask (index_manager.mtime_n e)))
  ++ SHA1.be32 (Z.to_N (index_manager.mask (index_manager.dev e)))
  ++ SHA1.be32 (Z.to_N (index_manager.mask (index_manager.ino e)))
  ++ SHA1.be32 (Z.to_N (index_manager.mask (index_manager.mode e)))
  ++ SHA1.be32 (Z.to_N (index_manager.mask (index_manager.uid e)))
  ++ SHA1.be32 (Z.to_N (index_manager.mask (index_manager.gid e)))
  ++ SHA1.be32 (Z.to_N (index_manager.mask (index_manager.size e)))
  ++ pack_s 20 (index_manager.sha1 e)
  ++ [byte_of_N (N.shiftr (Z.to_N (index_manager.flags e)) 8);
      byte_of_N (Z.to_N (index_manager.flags e))].

(** An entry that [write_index] can write: its path has a UTF-8 form and
    its flags fit 16 bits. *)
Definition writable (e : index_manager.IndexEntry) : Prop :=
  (exists b : bytes, encode (index_manager.path e) = Ok b)
  /\ (0 <= index_manager.flags e < 2 ^ 16)%Z.

(** The dict of [add_to_index]: every key is the path of its entry. *)
Definition keyed (d : list (str * index_manager.IndexEntry)) : Prop :=
  Forall (fun kv => kv.1 = index_manager.path kv.2) d.

(** What one turn of the loop of [add_to_index] puts in the dict. *)
Definition entry_of (path : str) (f : file) (sha1_hash : str) : index_manager.IndexEntry :=
  let stat_info := stat f in
  index_manager.mkIndexEntry
    (index_manager.mask (st_ctime stat_info)) 0
    (index_manager.mask (st_mtime stat_info)) 0
    (index_manager.mask (st_dev stat_info)) (index_manager.mask (st_ino stat_info))
    (index_manager.mask (st_mode stat_info)) (index_manager.mask (st_uid stat_info))
    (index_manager.mask (st_gid stat_info)) (index_manager.mask (st_size stat_info))
    (map byte_of_N sha1_hash) 0 path.

(** An entry as [write_index] stores it: the integer fields cut to 32
    bits, the hash field cut or padded to 20 bytes. *)
Definition stored_form (e : index_manager.IndexEntry) : index_manager.IndexEntry :=
  index_manager.mkIndexEntry
    (index_manager.mask (index_manager.ctime_s e))
    (index_manager.mask (index_manager.ctime_n e))
    (index_manager.mask (index_manager.mtime_s e))
    (index_manager.mask (index_manager.mtime_n e))
    (index_manager.mask (index_manager.dev e))
    (index_manager.mask (index_manager.ino e))
    (index_manager.mask (index_manager.mode e))
    (index_manager.mask (index_manager.uid e))
    (index_manager.mask (index_manager.gid e))
    (index_manager.mask (index_manager.size e))
    (pack_s 20 (index_manager.sha1 e))
    (index_manager.flags e)
    (index_manager.path e).

(** An entry whose path is in ASCII, without NUL, and whose flags fit 16
    bits. *)
Definition ascii_path_entry (e : index_manager.IndexEntry) : Prop :=
  (0 <= index_manager.flags e < 2 ^ 16)%Z
  /\ Forall (fun c => 0 < c < 128) (index_manager.path e).

(** The tree record of an index entry. *)
Definition index_tree_entry (e : index_manager.IndexEntry) : tree_entry :=
  TreeEntry (map byte_of_N (oct (index_manager.mode e)))
    (map byte_of_N (index_manager.path e)) (index_manager.sha1 e).

(** The number that the length bytes of a record header write: seven bits
    a byte, the low bits first. *)
Fixpoint varint_value (l : list N) : N :=
  match l with
  | [] => 0
  | b :: l' => N.land b 0x7f + 128 * varint_value l'
  end.

(** The lines that [get_remote_master_hash] passes over. *)
Definition passed_over (line : bytes) : Prop :=
  startswith (lit "00") line = true
  \/ contains (lit "refs/heads/master") line = false.

(** The four hexadecimal digits of a number below 65536. *)
Definition four_digits (n : N) : str :=
  [hexdigit (n / 4096); hexdigit (n / 256 mod 16); hexdigit (n / 16 mod 16);
   hexdigit (n mod 16)].

(** Forty visible ASCII characters, as the hash of an object has. *)
Definition is_hash (h : str) : Prop :=
  length h = 40%nat /\ Forall (fun c => 32 < c < 127) h.

(** ** Inputs of the scenarios *)

(** An empty repository, as [init] leaves it. *)
Definition empty_repo : repo := Repo ∅ None None.

(** The working directory with the file [a.txt] that holds [hello]. *)
Definition hello_worktree : gmap str file :=
  {[ txt "a.txt" :=
       File (lit "hello")
            (Stat 1700000000 1700000000 2049 131 33188 1000 1000 5) ]}.

(** The object [blob 5\0hello]. *)
Definition hello_blob : bytes := lit "blob 5" ++ x00 :: lit "hello".

(** Two index entries; the path of the first is the one letter U+00E9. *)
Definition entry_e_acute : index_manager.IndexEntry :=
  index_manager.mkIndexEntry 1 2 3 4 5 6 33188 7 8 9 (repeat x11 20) 0 [233].
Definition entry_b : index_manager.IndexEntry :=
  index_manager.mkIndexEntry 11 12 13 14 15 16 33188 17 18 19 (repeat x22 20) 0
    (txt "b").

(** The trivial codec, for running the code on examples. *)
Definition stored : Zlib := {| compress := fun b => b; decompress := Some |}.



(** A repository that holds the blob of [hello] and nothing else. *)
Definition hello_repo : repo :=
  Repo {[ object_path (hexdigest hello_blob) := @compress stored hello_blob ]}
       None None.

(** The hash and the 20-byte digest of the object [(kind, data)]. *)
Definition hash_of (data : bytes) (kind : str) : str :=
  match object_store.compute_hash data kind with
  | Ok (h, _) => h
  | Raise _ => []
  end.
Definition digest_of (data : bytes) (kind : str) : bytes :=
  match object_store.compute_hash data kind with
  | Ok (_, full_data) => SHA1.digest full_data
  | Raise _ => []
  end.

(** [store_object] when it succeeds. *)
Definition put (data : bytes) (kind : str) (st : repo) : repo :=
  match @object_store.store_object stored data kind st with
  | Ok (_, st') => st'
  | Raise _ => st
  end.

(** A history of two commits. The first has the tree [demo_subtree], with
    the file [b.txt]; the second has the tree [demo_tree], with the file
    [a.txt] and the directory [dir] that is [demo_subtree]. *)
Definition demo_entries_sub : list tree_entry :=
  [TreeEntry (lit "100644") (lit "b.txt") (digest_of (lit "world") (txt "blob"))].
Definition demo_subtree : bytes := tree_bytes demo_entries_sub.
Definition demo_entries : list tree_entry :=
  [TreeEntry (lit "100644") (lit "a.txt") (digest_of (lit "hello") (txt "blob"));
   TreeEntry (lit "40000") (lit "dir") (digest_of demo_subtree (txt "tree"))].
Definition demo_tree : bytes := tree_bytes demo_entries.
Definition demo_parent : bytes :=
  lit "tree " ++ map byte_of_N (hash_of demo_subtree (txt "tree"))
  ++ x0a :: lit "author A" ++ [x0a; x0a] ++ lit "first" ++ [x0a].
Definition demo_commit : bytes :=
  lit "tree " ++ map byte_of_N (hash_of demo_tree (txt "tree"))
  ++ x0a :: lit "parent " ++ map byte_of_N (hash_of demo_parent (txt "commit"))
  ++ x0a :: lit "author A" ++ [x0a; x0a] ++ lit "second" ++ [x0a].
Definition demo_repo : repo :=
  put demo_commit (txt "commit")
    (put demo_parent (txt "commit")
       (put demo_tree (txt "tree")
          (put demo_subtree (txt "tree")
             (put (lit "world") (txt "blob")
                (put (lit "hello") (txt "blob") empty_repo))))).
Definition demo_commit_hash : str := hash_of demo_commit (txt "commit").
Definition demo_parent_hash : str := hash_of demo_parent (txt "commit").
Definition demo_tree_hash : str := hash_of demo_tree (txt "tree").

(** The repository with the blob of [hello], after the blob of [world] is
    stored. *)
Definition world_repo : repo := put (lit "world") (txt "blob") hello_repo.

(** An object file named [abcdef] that says it holds 999 bytes. *)
Definition mislabelled_repo : repo :=
  Repo {[ object_path (txt "abcdef") := lit "blob 999" ++ x00 :: lit "hi" ]} None None.

(** An object file whose header has three words. *)
Definition three_words_repo : repo :=
  Repo {[ object_path (txt "abcdef") := lit "blob 2 x" ++ x00 :: lit "hi" ]} None None.

(** An object file without a NUL byte. *)
Definition no_nul_repo : repo :=
  Repo {[ object_path (txt "abcdef") := lit "blob 2" ]} None None.

(** The record written for the entry whose path is U+00E9. *)
Definition record_e_acute : bytes :=
  match index_manager.pack_entry entry_e_acute with Ok r => r | Raise _ => [] end.

(** An entry whose integer fields are out of the range of 32 bits, and
    whose hash field has three bytes. *)
Definition entry_wide : index_manager.IndexEntry :=
  index_manager.mkIndexEntry (-1) (2 ^ 40) 3 4 5 6 33188 7 8 9 (lit "abc") 0 (txt "w").

(** [add] of the file [a.txt] in an empty repository. *)
Definition hello_added : result (repo * str) :=
  @index_manager.add_to_index stored [txt "a.txt"] hello_worktree empty_repo.
Definition hello_added_repo : repo :=
  match hello_added with Ok (st, _) => st | Raise _ => empty_repo end.
Definition hello_added_out : str :=
  match hello_added with Ok (_, out) => out | Raise _ => [] end.

(** The repository whose index holds the entry [entry_b]. *)
Definition index_b_repo : repo :=
  Repo ∅ (match index_manager.index_bytes [entry_b] with
          | Ok data => Some data
          | Raise _ => None
          end) None.

(** A repository with one commit object, which names no tree. *)
Definition no_tree_commit : bytes := lit "author A" ++ [x0a; x0a] ++ lit "first" ++ [x0a].
Definition no_tree_repo : repo := put no_tree_commit (txt "commit") empty_repo.

(** What the walk of the tree of the second commit of [demo_repo] returns. *)
Definition demo_tree_walk : result (gset str) :=
  @commit_manager.find_tree_objects stored demo_repo 8 demo_tree_hash.
Definition demo_tree_objects : gset str :=
  match demo_tree_walk return gset str with Ok objects => objects | Raise _ => ∅ end.

(** A repository with the blob of [hello] and an object whose bytes are the
    hash of that blob and the letter [x]. *)
Definition stuck_tree : bytes := digest_of (lit "hello") (txt "blob") ++ lit "x".
Definition stuck_repo : repo :=
  put stuck_tree (txt "tree") (put (lit "hello") (txt "blob") empty_repo).

(** What the walk from the second commit of [demo_repo] returns. *)
Definition demo_walk_result : result (gset str) :=
  @commit_manager.find_commit_objects stored demo_repo 8 demo_commit_hash.
Definition demo_objects : gset str :=
  match demo_walk_result return gset str with Ok objects => objects | Raise _ => ∅ end.

(** The pack of the one blob of [hello_repo]. *)
Definition hello_pack_result : result bytes :=
  @remote_manager.create_pack stored {[ hexdigest hello_blob ]} hello_repo.
Definition hello_pack : bytes :=
  match hello_pack_result return bytes with Ok pack => pack | Raise _ => [] end.

(** The data made for the one line whose one letter is U+00E9. *)
Definition e_acute_pkt : bytes :=
  match remote_manager.build_pkt_line_data [[233]] return bytes with
  | Ok out => out
  | Raise _ => []
  end.


(** [demo_repo] with its ref on the second commit, and a server whose
    master branch is on the first commit and which accepts what it is
    sent. *)
Definition demo_pushed_repo : repo :=
  Repo (objects demo_repo) None (Some (demo_commit_hash ++ [10])).
Definition parent_server (url username password : str) (data : option bytes)
  : option bytes :=
  match data with
  | None => Some (map byte_of_N demo_parent_hash ++ lit " refs/heads/master" ++ [x0a])
  | Some _ => Some (lit "000eunpack ok" ++ [x0a] ++ lit "0000")
  end.
Definition demo_missing_result : result (gset str) :=
  @remote_manager.find_missing_objects stored 8 demo_commit_hash (Some demo_parent_hash)
    demo_pushed_repo.
Definition demo_missing : gset str :=
  match demo_missing_result return gset str with Ok m => m | Raise _ => ∅ end.
Definition demo_pack_result : result bytes :=
  @remote_manager.create_pack stored demo_missing demo_pushed_repo.
Definition demo_pack : bytes :=
  match demo_pack_result return bytes with Ok p => p | Raise _ => [] end.

(** The tree that [create_repo] leaves at a path where nothing was. *)
Definition initialized_tree : repo_manager.tree :=
  (repo_manager.create_repo (txt "r") ∅).1.


(* ==================================================================== *)
(** * Properties *)

#[local] Arguments Nat.div : simpl never.
#[local] Arguments Nat.modulo : simpl never.

Example sha1_abc :
  hexdigest (lit "abc") = txt "a9993e364706816aba3e25717850c26c9cd0d89d".
Proof. vm_compute. reflexivity. Qed.

Example sha1_empty :
  hexdigest [] = txt "da39a3ee5e6b4b0d3255bfef95601890afd80709".
Proof. vm_compute. reflexivity. Qed.

Example sha1_two_blocks :
  hexdigest (lit "abcdbcdecdefdefgefghfghighijhijkijkljklmklmnlmnomnopnopq")
  = txt "84983e441c3bd26ebaae4aa1f95129e5e54670f1".
Proof. vm_compute. reflexivity. Qed.

(** ** The exception monad *)

Lemma bind_ok {A B} (a : A) (k : A -> result B) : Ok a ≫= k = k a.
Proof. reflexivity. Qed.

Lemma bind_raise {A B} (e : exn) (k : A -> result B) : Raise e ≫= k = Raise e.
Proof. reflexivity. Qed.

Ltac rbind := rewrite ?bind_ok, ?bind_raise; cbv zeta.

(** Linear arithmetic with division and remainder by constants. *)
Ltac nlia := zify; Z.to_euclidean_division_equations; lia.

(** Case analysis on the comparisons of the goal, dropping the cases that
    contradict the hypotheses. *)
Ltac split_bound :=
  match goal with
  | |- context [(?a <=? ?b)] => destruct (N.leb_spec a b)
  | |- context [(?a <? ?b)] => destruct (N.ltb_spec a b)
  | |- context [(?a =? ?b)] => destruct (N.eqb_spec a b)
  end.
Ltac bounds := repeat (split_bound; try (exfalso; lia)).
Ltac nbounds := repeat (split_bound; try (exfalso; nlia)).

(** ** Bytes *)

Lemma to_N_byte_of_N (n : N) : n < 256 -> Byte.to_N (byte_of_N n) = n.
Proof.
  intros Hn. unfold byte_of_N. rewrite N.mod_small by exact Hn.
  destruct (Byte.of_N n) as [b|] eqn:E.
  - by apply Byte.to_of_N.
  - apply Byte.of_N_None_iff in E. lia.
Qed.

Lemma to_N_byte_of_N_mod (n : N) : Byte.to_N (byte_of_N n) = n mod 256.
Proof.
  unfold byte_of_N. destruct (Byte.of_N (n mod 256)) as [b|] eqn:E.
  - by apply Byte.to_of_N.
  - apply Byte.of_N_None_iff in E. pose proof (N.mod_lt n 256). lia.
Qed.

Lemma byte_of_N_to_N (b : byte) : byte_of_N (Byte.to_N b) = b.
Proof.
  unfold byte_of_N. pose proof (Byte.to_N_bounded b).
  rewrite N.mod_small by lia. by rewrite Byte.of_to_N.
Qed.

Lemma slice_take {A} (l : list A) (n a b : nat) :
  (a <= b <= n)%nat -> slice (take n l) a b = slice l a b.
Proof.
  intros Hb. unfold slice. rewrite !take_drop_commute, take_take.
  do 2 f_equal. lia.
Qed.

Lemma startswith_app {A} `{EqDecision A} (p s t : list A) :
  startswith p s = true -> startswith p (s ++ t) = true.
Proof.
  revert s. induction p as [|x p IH]; intros [|y s]; simpl; try done.
  intros [Hxy Hp]%andb_prop. rewrite Hxy. simpl. by apply IH.
Qed.

Lemma split_on_last (sep : byte) (l cur : bytes) :
  sep ∉ l -> split_on sep (l ++ [sep]) cur = [rev cur ++ l; []].
Proof.
  revert cur. induction l as [|b l IH]; intros cur Hl; simpl.
  - rewrite bool_decide_eq_true_2 by done. by rewrite app_nil_r.
  - apply not_elem_of_cons in Hl as [Hb Hl].
    rewrite bool_decide_eq_false_2 by congruence.
    rewrite IH by done. simpl. by rewrite <- app_assoc.
Qed.

(** ** Ref discovery *)

(** C10. A response whose line for [refs/heads/master] carries a hash that
    begins with the two digits [00] is read as a response without that
    branch: the line is dropped with the control lines and
    [get_remote_master_hash] returns [None]. [tail] is what follows the ref
    name on the line (the capabilities). *)
Theorem remote_master_hash_00_skipped (h tail : bytes) :
  startswith (lit "00") h = true ->
  x0a ∉ h ++ lit " refs/heads/master" ++ tail ->
  remote_manager.get_remote_master_hash
    (h ++ lit " refs/heads/master" ++ tail ++ [x0a]) = Ok None.
Proof.
  intros H00 Hnl. unfold remote_manager.get_remote_master_hash.
  replace (h ++ lit " refs/heads/master" ++ tail ++ [x0a])
    with ((h ++ lit " refs/heads/master" ++ tail) ++ [x0a])
    by (by rewrite <- !app_assoc).
  rewrite split_on_last by exact Hnl.
  cbn [rev app remote_manager.scan_lines].
  by rewrite (startswith_app _ _ _ H00).
Qed.

Lemma remote_master_hash_00_skipped_witness :
  remote_manager.get_remote_master_hash
    (lit "00a1b2c3d4e5f60718293a4b5c6d7e8f90a1b2c3 refs/heads/master" ++ [x0a])
  = Ok None.
Proof.
  apply (remote_master_hash_00_skipped
           (lit "00a1b2c3d4e5f60718293a4b5c6d7e8f90a1b2c3") []).
  - reflexivity.
  - vm_compute. intros Hin. repeat (apply elem_of_cons in Hin as [Hin|Hin]; [discriminate|]).
    by apply elem_of_nil in Hin.
Defined.

(** The same line with a hash that begins otherwise is found. *)
Example remote_master_hash_found :
  remote_manager.get_remote_master_hash
    (lit "a1a1b2c3d4e5f60718293a4b5c6d7e8f90a1b2c3 refs/heads/master" ++ [x0a])
  = Ok (Some (txt "a1a1b2c3d4e5f60718293a4b5c6d7e8f90a1b2c3")).
Proof. vm_compute. reflexivity. Qed.

(** ** UTF-8 *)

Lemma bind_ok_inv {A B} (r : result A) (k : A -> result B) (b : B) :
  r ≫= k = Ok b -> exists a, r = Ok a /\ k a = Ok b.
Proof.
  destruct r as [a|e]; simpl; intros Hk;
    [exists a; split; [reflexivity | exact Hk] | discriminate].
Qed.

Lemma bind_raise_inv {A B} (r : result A) (k : A -> result B) (e : exn) :
  r ≫= k = Raise e -> r = Raise e \/ exists a, r = Ok a /\ k a = Raise e.
Proof.
  destruct r as [a|e']; simpl; intros Hk;
    [right; exists a; split; [reflexivity | exact Hk] | left; congruence].
Qed.

(** The only exception of [decode] is [UnicodeDecodeError]. *)
Lemma decode_error (b : bytes) (e : exn) :
  decode b = Raise e -> e = UnicodeDecodeError.
Proof.
  remember (length b) as n eqn:Hn. revert b Hn.
  induction (lt_wf n) as [n _ IH]. intros b Hn.
  assert (Hrec : forall r (k : str -> result str), (length r < n)%nat ->
            (forall s, k s <> Raise e) ->
            decode r ≫= k = Raise e -> e = UnicodeDecodeError).
  { intros r k Hr Hk [Hd|(s & _ & Hd)]%bind_raise_inv; [by eapply IH | by apply Hk in Hd]. }
  destruct b as [|b0 r0]; [done|]. simpl in Hn. cbn [decode].
  repeat case_match; subst; simpl in *;
    try (intros Heq; by inversion Heq);
    apply Hrec; simpl; (lia || done).
Qed.





(** ** Reading the index *)

Lemma entry_len_pos (n : nat) : (1 <= (62 + n + 8) / 8 * 8)%nat.
Proof.
  assert (1 <= (62 + n + 8) / 8)%nat; [|lia].
  apply Nat.div_le_lower_bound; lia.
Qed.

(** The loop of [read_index] ends within the turns it is given. *)
Lemma read_entries_total (fuel : nat) (entry_data : bytes) (i : nat)
    (entries : list index_manager.IndexEntry) :
  (length entry_data <= i + fuel)%nat ->
  index_manager.read_entries fuel entry_data i entries <> Raise OutOfFuel.
Proof.
  revert i entries. induction fuel as [|fuel IH]; intros i entries Hlen;
    cbn [index_manager.read_entries].
  - destruct (decide _); [lia | done].
  - destruct (decide _); [|done].
    destruct (index_manager.unpack_entry _) as [fields|e] eqn:Ef; rbind.
    2:{ unfold index_manager.unpack_entry in Ef.
        destruct (decide _); [done | by inversion Ef]. }
    destruct (bytes_index _ _ _) as [path_end|e] eqn:Ei; rbind.
    2:{ unfold bytes_index in Ei. destruct (_ <? _)%Z; by inversion Ei. }
    destruct (decode _) as [path|e] eqn:Ed; rbind.
    + apply IH. pose proof (entry_len_pos (length path)). lia.
    + apply decode_error in Ed. by subst.
Qed.

(** C9, as the code has it. Without an index file [read_index] returns the
    empty list. With an index file that has its twelve header bytes, it
    raises the signature error when the first four bytes are not [DIRC], the
    version error when they are and the version is not 2, and otherwise goes
    on to read the entries: its result is the result of the entry loop on
    the bytes after the header, and the loop ends. *)
Theorem read_index_validation (st : repo) :
  (index_file st = None -> index_manager.read_index st = Ok [])
  /\ (forall data : bytes,
        index_file st = Some data -> (12 <= length data)%nat ->
        (take 4 data <> lit "DIRC" ->
           index_manager.read_index st
           = Raise (ValueError "Invalid index file signature"))
        /\ (take 4 data = lit "DIRC" -> be_value (slice data 4 8) <> 2%Z ->
             index_manager.read_index st
             = Raise (ValueError "Unsupported index file version"))
        /\ (take 4 data = lit "DIRC" -> be_value (slice data 4 8) = 2%Z ->
             index_manager.read_index st
             = index_manager.read_entries (length (drop 12 data)) (drop 12 data) 0 []
             /\ index_manager.read_index st <> Raise OutOfFuel)).
Proof.
  unfold index_manager.read_index. split; [by intros ->|].
  intros data -> Hlen.
  assert (Hh : index_manager.unpack_header (take 12 data)
               = Ok (take 4 data, be_value (slice data 4 8),
                     be_value (slice data 8 12))).
  { unfold index_manager.unpack_header.
    rewrite decide_True by (rewrite length_take; lia).
    rewrite !slice_take by lia. reflexivity. }
  rewrite Hh. simpl. repeat split.
  - intros Hsig. by rewrite bool_decide_eq_false_2.
  - intros Hsig Hver. rewrite bool_decide_eq_true_2 by done. simpl.
    by apply Z.eqb_neq in Hver as ->.
  - rewrite bool_decide_eq_true_2 by done. simpl.
    by apply Z.eqb_eq in H0 as ->.
  - rewrite bool_decide_eq_true_2 by done. simpl.
    apply Z.eqb_eq in H0 as ->. simpl.
    apply read_entries_total. lia.
Qed.

Lemma read_index_validation_witness :
  index_manager.read_index (Repo ∅ None None) = Ok []
  /\ index_manager.read_index
       (Repo ∅ (Some (lit "XIRC" ++ [x00; x00; x00; x02; x00; x00; x00; x00])) None)
     = Raise (ValueError "Invalid index file signature")
  /\ index_manager.read_index
       (Repo ∅ (Some (lit "DIRC" ++ [x00; x00; x00; x03; x00; x00; x00; x00])) None)
     = Raise (ValueError "Unsupported index file version")
  /\ index_manager.read_index
       (Repo ∅ (Some (lit "DIRC" ++ [x00; x00; x00; x02; x00; x00; x00; x00])) None)
     = Ok [].
Proof.
  split; [|split; [|split]].
  - by apply (read_index_validation (Repo ∅ None None)).
  - eapply (read_index_validation (Repo ∅ (Some _) None));
      [reflexivity | simpl; lia | discriminate].
  - eapply (read_index_validation (Repo ∅ (Some _) None));
      [reflexivity | simpl; lia | reflexivity | discriminate].
  - etransitivity.
    + eapply (read_index_validation (Repo ∅ (Some _) None));
        [reflexivity | simpl; lia | reflexivity | reflexivity].
    + reflexivity.
Defined.

(** C9 as stated fails on a file shorter than its header: these eight
    bytes start with a signature that is not [DIRC], and [read_index] fails
    in [struct.unpack], before the validation and with another exception
    than the one of the validation. *)
Lemma read_index_truncated_header :
  let data := lit "XXXX" ++ [x00; x00; x00; x02] in
  take 4 data <> lit "DIRC"
  /\ index_manager.read_index (Repo ∅ (Some data) None) = Raise StructError
  /\ forall msg, index_manager.read_index (Repo ∅ (Some data) None)
                 <> Raise (ValueError msg).
Proof. split; [discriminate|]. split; [reflexivity | discriminate]. Qed.

(** ** The record header of a packed object *)

Lemma size_bytes_fuel (fuel : nat) (n : N) :
  n < 2 ^ N.of_nat fuel ->
  forall fuel', (fuel <= fuel')%nat ->
    remote_manager.size_bytes fuel' n = remote_manager.size_bytes fuel n.
Proof.
  revert n. induction fuel as [|fuel IH]; intros n Hn fuel' Hf.
  - assert (n = 0) as -> by (simpl in Hn; lia). by destruct fuel'.
  - destruct fuel' as [|fuel']; [lia|]. simpl.
    destruct (n =? 0); [done|]. f_equal. apply IH; [|lia].
    rewrite N.shiftr_div_pow2.
    apply N.Div0.div_lt_upper_bound.
    rewrite Nat2N.inj_succ, N.pow_succ_r' in Hn. lia.
Qed.

(** The loop of [pack_object] is not cut short: the list is the one the
    loop builds until [size] is zero. *)
Lemma size_bytes_unfold (n : N) :
  remote_manager.size_bytes (N.to_nat (N.size n)) n
  = if n =? 0 then []
    else N.lor (N.land n 0x7f) 0x80
         :: remote_manager.size_bytes (N.to_nat (N.size (N.shiftr n 7))) (N.shiftr n 7).
Proof.
  destruct (N.eqb_spec n 0) as [->|Hn]; [done|].
  destruct (N.to_nat (N.size n)) as [|fuel] eqn:Ef.
  { destruct n as [|p]; [done|]. exfalso. change (N.size (N.pos p)) with (N.pos (Pos.size p)) in Ef. lia. }
  simpl. rewrite (proj2 (N.eqb_neq n 0) Hn). f_equal.
  apply size_bytes_fuel.
  - rewrite N2Nat.id. apply N.size_gt.
  - assert (N.size (N.shiftr n 7) < N.size n); [|lia].
    rewrite (N.size_log2 n) by done.
    destruct (N.eq_dec (N.shiftr n 7) 0) as [->|Hs]; [simpl; lia|].
    rewrite N.size_log2, N.log2_shiftr by done.
    assert (7 <= N.log2 n); [|lia].
    apply N.log2_le_pow2; [lia|].
    rewrite N.shiftr_div_pow2 in Hs.
    destruct (N.lt_ge_cases n (2 ^ 7)) as [Hlt|Hge]; [|done].
    by apply N.div_small in Hlt.
Qed.

Lemma size_bytes_bit7 (fuel : nat) (n : N) :
  Forall (fun b => N.testbit b 7 = true) (remote_manager.size_bytes fuel n).
Proof.
  revert n. induction fuel as [|fuel IH]; intros n; simpl; [constructor|].
  destruct (n =? 0); constructor; [|apply IH].
  rewrite N.lor_spec. apply orb_true_r.
Qed.

(** C6, as the code has it. For an object of sixteen bytes or more the
    record header has at least two bytes; its first byte, which is followed
    by a length byte, has the continuation bit clear, and its last byte,
    which is followed by none, has the continuation bit set. *)
Theorem pack_header_continuation_bits (type_num size : N) :
  type_num < 8 -> 16 <= size ->
  exists first mid last,
    remote_manager.pack_header type_num size = first :: mid ++ [last]
    /\ N.testbit first 7 = false
    /\ N.testbit last 7 = true.
Proof.
  intros Ht Hs. unfold remote_manager.pack_header.
  set (size' := N.shiftr size 4).
  assert (Hs' : size' <> 0).
  { unfold size'. rewrite N.shiftr_div_pow2. intros H0.
    apply N.div_small_iff in H0; [change (2 ^ 4) with 16 in H0; lia | done]. }
  pose proof (size_bytes_bit7 (N.to_nat (N.size size')) size') as Hall.
  rewrite size_bytes_unfold, (proj2 (N.eqb_neq _ _) Hs') in Hall |- *.
  set (l := _ :: _) in *.
  destruct (rev l) as [|last mid] eqn:El.
  { apply (f_equal (@rev N)) in El. rewrite rev_involutive in El. discriminate. }
  apply (f_equal (@rev N)) in El. rewrite rev_involutive in El. simpl in El.
  exists (N.lor (N.shiftl type_num 4) (N.land size 15)), (rev mid), last.
  rewrite El. split; [done|]. split.
  - rewrite N.lor_spec, N.land_spec, N.shiftl_spec_high' by lia.
    replace (N.testbit type_num (7 - 4)) with false;
      [by rewrite andb_false_r|].
    symmetry. apply N.bits_above_log2.
    destruct (N.eq_dec type_num 0) as [->|Hn]; [simpl; lia|].
    apply N.log2_lt_pow2; [lia|]. change (2 ^ (7 - 4)) with 8. lia.
  - rewrite El in Hall. apply Forall_app in Hall as [_ Hlast].
    by inversion Hlast.
Qed.

Lemma pack_header_continuation_bits_witness :
  exists first mid last,
    remote_manager.pack_header 3 16 = first :: mid ++ [last]
    /\ N.testbit first 7 = false
    /\ N.testbit last 7 = true.
Proof. apply (pack_header_continuation_bits 3 16); lia. Defined.

(** The record header of a blob of sixteen bytes: [0x30 0x81]. *)
Example pack_header_blob_16 : remote_manager.pack_header 3 16 = [0x30; 0x81].
Proof. reflexivity. Qed.

(** ** Writing and reading the index *)

(** C4, at an input where the code fails. The index written for two
    entries of which the first has the path U+00E9, two bytes in UTF-8 and
    one code point, is read back with a different second entry:
    [write_index] pads the entry to 72 bytes, from the length in bytes of the
    path, and [read_index] steps over 64, from its length in code points. *)
Theorem index_roundtrip_fails_non_ascii_path :
  (st ← index_manager.write_index [entry_e_acute; entry_b] empty_repo;
   index_manager.read_index st)
  = Ok [entry_e_acute;
        index_manager.mkIndexEntry 0 0 11 12 13 14 15 16 33188 17
          ([x00; x00; x00; x12; x00; x00; x00; x13] ++ repeat x22 12) 8738
          (repeat 34 6)]
  /\ (st ← index_manager.write_index [entry_b; entry_e_acute] empty_repo;
      index_manager.read_index st)
     = Ok [entry_b; entry_e_acute].
Proof. split; vm_compute; reflexivity. Qed.

(** ** Staging a file and listing the index *)

(** C5, at the scenario of the claim. [add] of the file [a.txt] that holds
    [hello] stores one object, the blob whose hash is the SHA-1 of
    [blob 5\0hello], that is [b6fc4c62...]; the listing then prints, next to
    the path, the hexadecimal form of the first twenty characters of that
    hash, not the hash. *)
Theorem add_hello_then_status `{Zlib} :
  hexdigest hello_blob = txt "b6fc4c620b67d95f953a5c1c1230aaab5db5a1b0"
  /\ ('(st, _) ← index_manager.add_to_index [txt "a.txt"] hello_worktree empty_repo;
      Ok (objects st))
     = Ok {[ object_path (hexdigest hello_blob) := compress hello_blob ]}
  /\ ('(st, _) ← index_manager.add_to_index [txt "a.txt"] hello_worktree empty_repo;
      index_manager.list_index st)
     = Ok [txt "100644 6236666334633632306236376439356639353361 a.txt"].
Proof. repeat split; vm_compute; reflexivity. Qed.

(** ** Decimal text and ASCII *)

Lemma uint_digits_digit (d : Decimal.uint) : Forall is_digit (uint_digits d).
Proof. induction d; simpl; constructor; (done || unfold is_digit, digit; lia). Qed.

Lemma dec_digit (n : N) : Forall is_digit (dec n).
Proof. apply uint_digits_digit. Qed.

Lemma dec_nonempty (n : N) : dec n <> [].
Proof.
  unfold dec. destruct n as [|p]; [done|].
  pose proof (Unsigned.to_uint_nonnil p) as Hp. simpl.
  by destruct (Pos.to_uint p).
Qed.

Lemma encode_ascii (s : str) :
  Forall (fun c => c < 128) s -> encode s = Ok (map byte_of_N s).
Proof.
  induction 1 as [|c s Hc _ IH]; [done|]. cbn [encode map].
  unfold encode_cp. rewrite (proj2 (N.ltb_lt c 128) Hc), IH. reflexivity.
Qed.

Lemma decode_ascii (s : str) :
  Forall (fun c => c < 128) s -> decode (map byte_of_N s) = Ok s.
Proof.
  induction 1 as [|c s Hc _ IH]; [done|]. cbn [decode map].
  rewrite to_N_byte_of_N by lia.
  rewrite (proj2 (N.ltb_lt c 128) Hc), IH. reflexivity.
Qed.

Lemma split_once_first (sep : byte) (hd data cur : bytes) :
  sep ∉ hd -> split_once sep (hd ++ sep :: data) cur = [rev cur ++ hd; data].
Proof.
  revert cur. induction hd as [|b hd IH]; intros cur Hhd; simpl.
  - rewrite bool_decide_eq_true_2 by done. by rewrite app_nil_r.
  - apply not_elem_of_cons in Hhd as [Hb Hhd].
    rewrite bool_decide_eq_false_2 by congruence.
    rewrite IH by done. simpl. by rewrite <- app_assoc.
Qed.

(** A run of elements that are not blank is read as one word. *)
Lemma split_ws_word {A} (blank : A -> bool) (w rest cur : list A) :
  Forall (fun c => blank c = false) w ->
  split_ws blank (w ++ rest) cur = split_ws blank rest (rev w ++ cur).
Proof.
  intros Hw. revert cur. induction Hw as [|c w Hc _ IH]; intros cur; [done|].
  simpl. rewrite Hc, IH. by rewrite <- app_assoc.
Qed.

Lemma split_ws_two {A} (blank : A -> bool) (w1 w2 : list A) (sp : A) :
  w1 <> [] -> w2 <> [] -> blank sp = true ->
  Forall (fun c => blank c = false) w1 ->
  Forall (fun c => blank c = false) w2 ->
  split_ws blank (w1 ++ sp :: w2) [] = [w1; w2].
Proof.
  intros H1 H2 Hsp Hw1 Hw2.
  rewrite split_ws_word by done. rewrite app_nil_r. cbn [split_ws]. rewrite Hsp.
  destruct (rev w1) as [|x r] eqn:Er.
  { apply (f_equal (@rev A)) in Er. by rewrite rev_involutive in Er. }
  rewrite <- Er, rev_involutive. f_equal.
  rewrite <- (app_nil_r w2) at 1. rewrite split_ws_word by done.
  rewrite app_nil_r. cbn [split_ws].
  destruct (rev w2) as [|y r2] eqn:Er2.
  { apply (f_equal (@rev A)) in Er2. by rewrite rev_involutive in Er2. }
  by rewrite <- Er2, rev_involutive.
Qed.

(** ** Hashes *)

Lemma hex_length (b : bytes) : length (hex b) = (2 * length b)%nat.
Proof. induction b as [|x b IH]; [done|]. unfold hex in *. simpl. lia. Qed.

Lemma hexdigest_length (msg : bytes) : length (hexdigest msg) = 40%nat.
Proof. unfold hexdigest. by rewrite hex_length. Qed.

Lemma object_file_hexdigest (st : repo) (msg : bytes) :
  object_file st (hexdigest msg) = objects st !! object_path (hexdigest msg).
Proof.
  unfold object_file. pose proof (hexdigest_length msg) as Hl.
  destruct (drop 2 (hexdigest msg)) eqn:Ed; [|done].
  apply (f_equal length) in Ed. rewrite length_drop, Hl in Ed. done.
Qed.

(** ** Storing and retrieving an object *)

Lemma visible_not_space (c : N) : 32 < c < 127 -> isspace c = false.
Proof. intros Hc. unfold isspace. bounds. reflexivity. Qed.

Lemma kinds_word (kind : str) : kind ∈ kinds -> is_word kind.
Proof.
  unfold kinds. intros Hk.
  repeat (apply elem_of_cons in Hk as [->|Hk];
          [split; [done | repeat constructor; vm_compute; done]|]).
  by apply elem_of_nil in Hk.
Qed.

(** The header [<kind> <length>] of an object, as text. *)
Lemma header_text (kind : str) (n : N) :
  is_word kind ->
  let header := kind ++ txt " " ++ dec n in
  Forall (fun c => 0 < c < 128) header
  /\ split_ws isspace header [] = [kind; dec n].
Proof.
  intros [Hne Hvis]. split.
  - apply Forall_app. split; [|apply Forall_app; split].
    + eapply Forall_impl; [exact Hvis|]. simpl. lia.
    + repeat constructor; vm_compute; done.
    + eapply Forall_impl; [apply dec_digit|]. unfold is_digit. simpl. lia.
  - apply split_ws_two; [done | apply dec_nonempty | reflexivity | |].
    + eapply Forall_impl; [exact Hvis|]. apply visible_not_space.
    + eapply Forall_impl; [apply dec_digit|]. unfold is_digit.
      intros c Hc. apply visible_not_space. lia.
Qed.

Lemma compute_hash_word `{Zlib} (kind : str) (data : bytes) :
  is_word kind ->
  let full_data :=
    map byte_of_N (kind ++ txt " " ++ dec (N.of_nat (length data))) ++ x00 :: data in
  object_store.compute_hash data kind = Ok (hexdigest full_data, full_data).
Proof.
  intros Hk. unfold object_store.compute_hash.
  destruct (header_text kind (N.of_nat (length data)) Hk) as [Hascii _].
  rewrite encode_ascii; [done|].
  eapply Forall_impl; [exact Hascii|]. simpl. lia.
Qed.

(** What [retrieve_object] reads in an object file that holds
    [(kind, data)]. *)
Lemma retrieve_object_holds `{Zlib} (kind : str) (data c : bytes) (st : repo) :
  is_word kind ->
  let full_data :=
    map byte_of_N (kind ++ txt " " ++ dec (N.of_nat (length data))) ++ x00 :: data in
  object_file st (hexdigest full_data) = Some c ->
  decompress c = Some full_data ->
  object_store.retrieve_object (hexdigest full_data) st = Ok (kind, data).
Proof.
  intros Hk full_data Hfile Hz. unfold object_store.retrieve_object.
  rewrite Hfile, Hz.
  destruct (header_text kind (N.of_nat (length data)) Hk) as [Hascii Hsplit].
  unfold full_data. rewrite split_once_first.
  - cbn [rev app]. rewrite decode_ascii.
    + rbind. by rewrite Hsplit.
    + eapply Forall_impl; [exact Hascii|]. simpl. lia.
  - intros Hin. apply list_elem_of_fmap in Hin as (c0 & Hc0 & Hin).
    rewrite Forall_forall in Hascii. apply Hascii in Hin.
    apply (f_equal Byte.to_N) in Hc0. rewrite to_N_byte_of_N in Hc0 by lia.
    simpl in Hc0. lia.
Qed.

(** C1. For each of the three kinds and every content, when the object
    file named by the hash is absent or already holds this object,
    [store_object] returns a hash under which [retrieve_object] finds the
    kind and the content. *)
Theorem store_retrieve_roundtrip `{ZlibInverse} (kind : str) (content : bytes)
    (st : repo) :
  kind ∈ kinds ->
  free_or_same st content kind ->
  exists (h : str) (st' : repo),
    object_store.store_object content kind st = Ok (h, st')
    /\ object_store.retrieve_object h st' = Ok (kind, content).
Proof.
  intros Hk%kinds_word Hfree.
  pose proof (compute_hash_word kind content Hk) as Hhash. cbv zeta in Hhash.
  specialize (Hfree _ _ Hhash).
  unfold object_store.store_object. rewrite Hhash. rbind.
  destruct Hfree as [Hnone|(c & Hc & Hz)].
  - rewrite Hnone. eexists _, _. split; [reflexivity|].
    eapply retrieve_object_holds; [done| |apply decompress_compress].
    rewrite object_file_hexdigest. simpl. apply lookup_insert_eq.
  - rewrite Hc. eexists _, _. split; [reflexivity|].
    by eapply retrieve_object_holds.
Qed.

Lemma store_retrieve_roundtrip_witness :
  exists (h : str) (st' : repo),
    @object_store.store_object stored (lit "hello") (txt "blob") empty_repo
    = Ok (h, st')
    /\ @object_store.retrieve_object stored h st' = Ok (txt "blob", lit "hello").
Proof.
  apply (@store_retrieve_roundtrip stored (fun b => eq_refl)).
  - apply elem_of_cons. left. reflexivity.
  - intros h full Hc. left. unfold object_file.
    destruct (drop 2 h); [reflexivity | apply lookup_empty].
Defined.

(** ** The pack *)

Lemma str_leb_total (a b : str) :
  remote_manager.str_leb a b = true \/ remote_manager.str_leb b a = true.
Proof.
  revert b. induction a as [|x a IH]; intros [|y b]; simpl; auto.
  destruct (N.ltb_spec x y), (N.ltb_spec y x), (N.eqb_spec x y), (N.eqb_spec y x);
    simpl; auto; lia.
Qed.

Lemma str_leb_trans (a b c : str) :
  remote_manager.str_leb a b = true -> remote_manager.str_leb b c = true ->
  remote_manager.str_leb a c = true.
Proof.
  revert b c. induction a as [|x a IH]; intros [|y b] [|z c]; simpl; try done.
  destruct (N.ltb_spec x y), (N.ltb_spec y z), (N.ltb_spec x z),
    (N.eqb_spec x y), (N.eqb_spec y z), (N.eqb_spec x z);
    simpl; try done; try lia.
  apply IH.
Qed.

#[local] Instance str_le_total : Total remote_manager.str_le.
Proof.
  intros a b. unfold remote_manager.str_le.
  destruct (str_leb_total a b) as [->| ->]; simpl; auto.
Qed.

#[local] Instance str_le_trans : Transitive remote_manager.str_le.
Proof.
  intros a b c. unfold remote_manager.str_le.
  intros Hab%Is_true_true Hbc%Is_true_true. apply Is_true_true.
  by eapply str_leb_trans.
Qed.

#[local] Instance str_le_dec (a b : str) : Decision (remote_manager.str_le a b).
Proof. unfold remote_manager.str_le. apply _. Qed.

Lemma be_value_be32 (n : N) :
  n < 2 ^ 32 -> be_value (SHA1.be32 n) = Z.of_N n.
Proof.
  intros Hn. change (2 ^ 32) with 4294967296 in Hn.
  unfold SHA1.be32, be_value. cbn [fold_left].
  rewrite !to_N_byte_of_N_mod, !N.shiftr_div_pow2.
  change (2 ^ 24) with 16777216. change (2 ^ 16) with 65536. change (2 ^ 8) with 256.
  nlia.
Qed.

Lemma pack_L_value (z : Z) :
  (0 <= z < 2 ^ 32)%Z ->
  exists b : bytes, pack_L z = Ok b /\ length b = 4%nat /\ be_value b = z.
Proof.
  intros Hz. unfold pack_L.
  rewrite (proj2 (Z.leb_le 0 z)), (proj2 (Z.ltb_lt z (2 ^ 32))) by lia.
  eexists. split; [reflexivity|]. split; [reflexivity|].
  rewrite be_value_be32; [lia|]. change (2 ^ 32) with 4294967296.
  change (2 ^ 32)%Z with 4294967296%Z in Hz. lia.
Qed.




(** ** Lines of a text *)




(** ** The text of a commit *)

Lemma hexdigit_visible (n : N) : n < 16 -> 32 < hexdigit n < 127.
Proof. intros Hn. unfold hexdigit. bounds; lia. Qed.

Lemma hex_visible (b : bytes) : Forall (fun c => 32 < c < 127) (hex b).
Proof.
  induction b as [|x b IH]; [constructor|]. unfold hex in *. cbn [flat_map app].
  pose proof (Byte.to_N_bounded x).
  repeat constructor; [apply hexdigit_visible; nlia .. | exact IH].
Qed.








(** ** Commits *)

Lemma compute_hash_hexdigest `{Zlib} (data : bytes) (kind h : str) (full : bytes) :
  object_store.compute_hash data kind = Ok (h, full) -> h = hexdigest full.
Proof.
  unfold object_store.compute_hash.
  intros (header & _ & Heq)%bind_ok_inv. by inversion Heq.
Qed.

Lemma store_object_inv `{Zlib} (data : bytes) (kind h : str) (st st' : repo) :
  object_store.store_object data kind st = Ok (h, st') ->
  is_object_hash h kind data
  /\ (exists b, h = hexdigest b)
  /\ index_file st' = index_file st
  /\ master_ref st' = master_ref st.
Proof.
  unfold object_store.store_object.
  intros ([h0 full] & Hc & Heq)%bind_ok_inv.
  pose proof (compute_hash_hexdigest _ _ _ _ Hc) as Hh.
  destruct (object_file st h0); inversion Heq; subst;
    (split; [by exists full|]); (split; [by exists full|]); done.
Qed.


Lemma lstrip_visible (s : str) :
  Forall (fun c => 32 < c < 127) s -> lstrip s = s.
Proof. intros [|c s' Hc _]; [done|]. cbn [lstrip]. by rewrite visible_not_space. Qed.

(** The ref file written by [update_ref] is read back as the hash. *)
Lemma strip_hash_line (b : bytes) : strip (hexdigest b ++ [10]) = hexdigest b.
Proof.
  pose proof (hexdigest_length b) as Hlen.
  unfold strip, hexdigest in *. pose proof (hex_visible (SHA1.digest b)) as Hv.
  set (h := hex (SHA1.digest b)) in *.
  assert (Hl : lstrip (h ++ [10]) = h ++ [10]).
  { destruct h as [|c s]; [done|]. inversion Hv; subst.
    cbn [app lstrip]. by rewrite visible_not_space. }
  rewrite Hl, rev_app_distr. cbn [rev app lstrip].
  change (isspace 10) with true. cbv iota.
  rewrite lstrip_visible; [apply rev_involutive |].
  apply Forall_forall. intros c Hc%list_elem_of_In%in_rev%list_elem_of_In.
  rewrite Forall_forall in Hv. by apply Hv.
Qed.





(** ** Walking a tree *)

Lemma find_from_app (b : byte) (w r : bytes) (i : Z) :
  b ∉ w -> find_from b (w ++ b :: r) i = (i + Z.of_nat (length w))%Z.
Proof.
  revert i. induction w as [|x w IH]; intros i Hw; cbn [app find_from length].
  - rewrite bool_decide_eq_true_2 by done. lia.
  - apply not_elem_of_cons in Hw as [Hx Hw].
    rewrite bool_decide_eq_false_2 by congruence. rewrite IH by done. lia.
Qed.

Lemma bytes_find_at (b : byte) (pre w r : bytes) :
  b ∉ w ->
  bytes_find b (pre ++ w ++ b :: r) (Z.of_nat (length pre))
  = Z.of_nat (length pre + length w).
Proof.
  intros Hw. unfold bytes_find.
  destruct (Z.ltb_spec (Z.of_nat (length pre)) 0) as [Hneg|_]; [lia|].
  rewrite Nat2Z.id, drop_app_length, find_from_app by done. lia.
Qed.

Lemma entry_bytes_length (e : tree_entry) :
  length (entry_bytes e)
  = (length (te_mode e) + 1 + length (te_path e) + 1 + length (te_sha1 e))%nat.
Proof. unfold entry_bytes. rewrite !length_app. simpl. rewrite !length_app. simpl. lia. Qed.

Section walk.
Context `{Zlib}.
Variable st : repo.

Lemma tree_loop_S (fuel : nat) (tree_data : bytes) (i : Z) (objects : gset str) :
  commit_manager.tree_loop st (S fuel) tree_data i objects
  = if (i <? Z.of_nat (length tree_data))%Z then
      let mode_end := bytes_find x20 tree_data i in
      let sha_start := (bytes_find x00 tree_data mode_end + 1)%Z in
      let sha1 := slice tree_data (Z.to_nat sha_start) (Z.to_nat sha_start + 20) in
      let sha1_hex := hex sha1 in
      let objects := objects ∪ {[sha1_hex]} in
      let i := (sha_start + 20)%Z in
      '(obj_type, _) ← object_store.retrieve_object sha1_hex st;
      objects ←
        (if bool_decide (obj_type = txt "tree")
         then sub ← commit_manager.find_tree_objects st fuel sha1_hex;
              Ok (objects ∪ sub)
         else Ok objects);
      commit_manager.tree_loop st fuel tree_data i objects
    else Ok objects.
Proof. reflexivity. Qed.


(** One turn of the loop on a well-formed record. *)
Lemma tree_loop_entry (fuel : nat) (pre rest : bytes) (e : tree_entry)
    (objects : gset str) :
  entry_ok e ->
  commit_manager.tree_loop st (S fuel) (pre ++ entry_bytes e ++ rest)
    (Z.of_nat (length pre)) objects
  = '(obj_type, _) ← object_store.retrieve_object (hex (te_sha1 e)) st;
    objects' ←
      (if bool_decide (obj_type = txt "tree")
       then sub ← commit_manager.find_tree_objects st fuel (hex (te_sha1 e));
            Ok (objects ∪ {[hex (te_sha1 e)]} ∪ sub)
       else Ok (objects ∪ {[hex (te_sha1 e)]}));
    commit_manager.tree_loop st fuel (pre ++ entry_bytes e ++ rest)
      (Z.of_nat (length (pre ++ entry_bytes e))) objects'.
Proof.
  intros (Hm20 & Hm00 & Hp00 & Hlen). rewrite tree_loop_S.
  pose proof (entry_bytes_length e) as Hel.
  rewrite (proj2 (Z.ltb_lt _ _)) by (rewrite !length_app; lia).
  cbv zeta.
  assert (Hfind1 : bytes_find x20 (pre ++ entry_bytes e ++ rest) (Z.of_nat (length pre))
                   = Z.of_nat (length pre + length (te_mode e))).
  { unfold entry_bytes. rewrite <- (app_assoc (te_mode e)). by apply bytes_find_at. }
  rewrite Hfind1.
  assert (Hfind2 : bytes_find x00 (pre ++ entry_bytes e ++ rest)
                     (Z.of_nat (length pre + length (te_mode e)))
                   = Z.of_nat (length (pre ++ te_mode e) + length (x20 :: te_path e))).
  { rewrite <- length_app.
    replace (pre ++ entry_bytes e ++ rest)
      with ((pre ++ te_mode e) ++ (x20 :: te_path e) ++ x00 :: (te_sha1 e ++ rest)).
    - apply bytes_find_at. intros [Heq|Hin]%elem_of_cons; [discriminate | done].
    - unfold entry_bytes. rewrite <- !app_assoc. simpl. by rewrite <- !app_assoc. }
  rewrite Hfind2.
  set (sha_start := (length (pre ++ te_mode e) + length (x20 :: te_path e) + 1)%nat).
  replace (Z.of_nat (length (pre ++ te_mode e) + length (x20 :: te_path e)) + 1)%Z
    with (Z.of_nat sha_start) by (unfold sha_start; lia).
  rewrite Nat2Z.id.
  assert (Hslice : slice (pre ++ entry_bytes e ++ rest) sha_start (sha_start + 20)
                   = te_sha1 e).
  { unfold slice.
    replace (pre ++ entry_bytes e ++ rest)
      with ((pre ++ te_mode e ++ x20 :: te_path e ++ [x00]) ++ te_sha1 e ++ rest).
    - rewrite drop_app_length'.
      + replace (sha_start + 20 - sha_start)%nat with (length (te_sha1 e)) by lia.
        by rewrite take_app_length.
      + unfold sha_start. rewrite !length_app. simpl. rewrite !length_app. simpl. lia.
    - unfold entry_bytes. rewrite <- !app_assoc. simpl. rewrite <- !app_assoc. done. }
  rewrite Hslice.
  replace (Z.of_nat sha_start + 20)%Z with (Z.of_nat (length (pre ++ entry_bytes e))).
  2:{ unfold sha_start. rewrite !length_app, Hel. simpl. lia. }
  reflexivity.
Qed.

Lemma find_tree_objects_S (fuel : nat) (tree_sha1 : str) :
  commit_manager.find_tree_objects st (S fuel) tree_sha1
  = '(_, tree_data) ← object_store.retrieve_object tree_sha1 st;
    commit_manager.tree_loop st fuel tree_data 0 {[tree_sha1]}.
Proof. reflexivity. Qed.




End walk.

(** ** What a tree lists *)



Section closure.
Context `{Zlib}.
Variable st : repo.




End closure.

(** ** Walking the commits *)

Section commits.
Context `{Zlib}.
Variable st : repo.

Lemma find_commit_objects_S (fuel : nat) (commit_sha1 : str) :
  commit_manager.find_commit_objects st (S fuel) commit_sha1
  = '(obj_type, commit_data) ← object_store.retrieve_object commit_sha1 st;
    if negb (bool_decide (obj_type = txt "commit")) then Raise AssertionError
    else
      text ← decode commit_data;
      let lines := splitlines text [] in
      tree_hash ←
        match filter (fun line : str => startswith (txt "tree ") line) lines with
        | line :: _ => Ok (slice line 5 45)
        | [] => Raise StopIteration
        end;
      sub ← commit_manager.find_tree_objects st fuel tree_hash;
      let objects := {[commit_sha1]} ∪ sub in
      let parent_hashes :=
        map (fun line : str => slice line 7 47)
            (filter (fun line : str => startswith (txt "parent ") line) lines) in
      foldl (fun acc parent_hash =>
               objects ← acc;
               sub ← commit_manager.find_commit_objects st fuel parent_hash;
               Ok (objects ∪ sub))
            (Ok objects) parent_hashes.
Proof. reflexivity. Qed.





End commits.


(** ** The missing objects *)



Ltac not_in :=
  let H := fresh in
  vm_compute; intros H;
  repeat (apply elem_of_cons in H as [H|H]; [discriminate|]);
  by apply elem_of_nil in H.

Ltac entries_ok := repeat constructor; try not_in.







(** ** The index with paths in ASCII *)

Lemma mask_small (z : Z) : (0 <= z < 2 ^ 32)%Z -> index_manager.mask z = z.
Proof.
  intros Hz. unfold index_manager.mask.
  change 0xFFFFFFFF%Z with (Z.ones 32). rewrite Z.land_ones by lia.
  apply Z.mod_small. lia.
Qed.

Lemma pack_L_small (z : Z) :
  (0 <= z < 2 ^ 32)%Z -> pack_L (index_manager.mask z) = Ok (SHA1.be32 (Z.to_N z)).
Proof.
  intros Hz. rewrite mask_small by done. unfold pack_L.
  by rewrite (proj2 (Z.leb_le 0 z)), (proj2 (Z.ltb_lt z (2 ^ 32))) by lia.
Qed.

Lemma be_value_be32_Z (z : Z) :
  (0 <= z < 2 ^ 32)%Z -> be_value (SHA1.be32 (Z.to_N z)) = z.
Proof.
  intros Hz. rewrite be_value_be32; [lia|].
  change (2 ^ 32) with 4294967296. change (2 ^ 32)%Z with 4294967296%Z in Hz. lia.
Qed.

Lemma be_value_be16 (z : Z) :
  (0 <= z < 2 ^ 16)%Z ->
  be_value [byte_of_N (N.shiftr (Z.to_N z) 8); byte_of_N (Z.to_N z)] = z.
Proof.
  intros Hz. change (2 ^ 16)%Z with 65536%Z in Hz.
  unfold be_value. cbn [fold_left].
  rewrite !to_N_byte_of_N_mod, !N.shiftr_div_pow2. change (2 ^ 8) with 256. nlia.
Qed.

Lemma be32_length (x : N) : length (SHA1.be32 x) = 4%nat.
Proof. reflexivity. Qed.

Lemma fixed_fields_length (e : index_manager.IndexEntry) :
  length (index_manager.sha1 e) = 20%nat -> length (fixed_fields e) = 62%nat.
Proof. intros Hs. unfold fixed_fields. rewrite !length_app, Hs. reflexivity. Qed.

Lemma unpack_fixed_fields (e : index_manager.IndexEntry) :
  entry_ascii e ->
  exists fields,
    index_manager.unpack_entry (fixed_fields e) = Ok fields
    /\ fields (index_manager.path e) = e.
Proof.
  intros (Hf & Hs & Hfl & _).
  repeat (apply Forall_cons in Hf as [? Hf]).
  unfold index_manager.unpack_entry.
  rewrite decide_True by (by apply fixed_fields_length).
  eexists. split; [reflexivity|]. destruct e as [c1 c2 m1 m2 dv io md ui gi sz sh fl pa].
  cbn [index_manager.ctime_s index_manager.ctime_n
    index_manager.mtime_s index_manager.mtime_n index_manager.dev index_manager.ino
    index_manager.mode index_manager.uid index_manager.gid index_manager.size
    index_manager.sha1 index_manager.flags index_manager.path] in *.
  unfold fixed_fields, slice.
  cbn [index_manager.ctime_s index_manager.ctime_n
    index_manager.mtime_s index_manager.mtime_n index_manager.dev index_manager.ino
    index_manager.mode index_manager.uid index_manager.gid index_manager.size
    index_manager.sha1 index_manager.flags index_manager.path].
  unfold SHA1.be32. cbn [app take drop Nat.mul Nat.add Nat.sub].
  f_equal; try (by apply be_value_be32_Z).
  - rewrite drop_0. by apply take_app_length'.
  - rewrite drop_app_length' by done. by apply be_value_be16.
Qed.

Lemma ascii_bytes_no_nul (s : str) :
  Forall (fun c => 0 < c < 128) s -> x00 ∉ map byte_of_N s.
Proof.
  intros Hs Hin. apply list_elem_of_fmap in Hin as (c & Hc & Hin).
  rewrite Forall_forall in Hs. apply Hs in Hin.
  apply (f_equal Byte.to_N) in Hc. rewrite to_N_byte_of_N in Hc by lia.
  simpl in Hc. lia.
Qed.

Lemma padded_length (n : nat) :
  (62 + n + 1 <= (62 + n + 8) / 8 * 8)%nat.
Proof.
  pose proof (Nat.div_mod_eq (62 + n + 8) 8) as Hd.
  pose proof (Nat.mod_upper_bound (62 + n + 8) 8). lia.
Qed.

Lemma pack_entry_ascii (e : index_manager.IndexEntry) :
  entry_ascii e -> index_manager.pack_entry e = Ok (entry_record e).
Proof.
  intros (Hf & Hs & Hfl & Hp).
  repeat (apply Forall_cons in Hf as [? Hf]).
  unfold index_manager.pack_entry.
  rewrite encode_ascii by (eapply Forall_impl; [exact Hp|]; simpl; lia). rbind.
  rewrite !pack_L_small by done. rbind.
  unfold pack_H.
  destruct Hfl as [Hfl0 Hfl1].
  rewrite (proj2 (Z.leb_le 0 (index_manager.flags e)) Hfl0),
    (proj2 (Z.ltb_lt (index_manager.flags e) (2 ^ 16)) Hfl1).
  cbn [andb]. rbind. unfold entry_record, fixed_fields, pack_s.
  rewrite take_ge by lia. rewrite Hs. cbn [Nat.sub repeat]. rewrite app_nil_r.
  rewrite <- !app_assoc. do 12 f_equal. cbn [app].
  rewrite !length_app, !be32_length, Hs. cbn [length].
  rewrite length_app, length_map. cbn [length].
  repeat f_equal; lia.
Qed.

Lemma entry_record_length (e : index_manager.IndexEntry) :
  length (index_manager.sha1 e) = 20%nat ->
  length (entry_record e) = ((62 + length (index_manager.path e) + 8) / 8 * 8)%nat.
Proof.
  intros Hs. unfold entry_record.
  rewrite !length_app, fixed_fields_length, length_map, repeat_length by done.
  pose proof (padded_length (length (index_manager.path e))). cbn [length]. lia.
Qed.

(** One turn of the loop of [read_index] on the record of an entry. *)
Lemma read_entries_record (fuel : nat) (pre rest : bytes)
    (e : index_manager.IndexEntry) (entries : list index_manager.IndexEntry) :
  entry_ascii e ->
  index_manager.read_entries (S fuel) (pre ++ entry_record e ++ rest) (length pre) entries
  = index_manager.read_entries fuel (pre ++ entry_record e ++ rest)
      (length (pre ++ entry_record e)) (entries ++ [e]).
Proof.
  intros He. pose proof He as (Hf & Hs & Hfl & Hp).
  pose proof (entry_record_length e Hs) as Hlen.
  pose proof (padded_length (length (index_manager.path e))) as Hpad.
  pose proof (fixed_fields_length e Hs) as Hfix.
  cbn [index_manager.read_entries].
  rewrite decide_True by (rewrite !length_app; lia).
  assert (Hslice : slice (pre ++ entry_record e ++ rest) (length pre) (length pre + 62)
                   = fixed_fields e).
  { unfold slice. rewrite drop_app_length.
    replace (length pre + 62 - length pre)%nat with (length (fixed_fields e)) by lia.
    unfold entry_record. rewrite <- !app_assoc. apply take_app_length. }
  rewrite Hslice.
  destruct (unpack_fixed_fields e He) as (fields & Hu & Hfields).
  rewrite Hu. rbind.
  assert (Hidx : bytes_index x00 (pre ++ entry_record e ++ rest) (length pre + 62)
                 = Ok (length pre + 62 + length (index_manager.path e))%nat).
  { unfold bytes_index.
    replace (pre ++ entry_record e ++ rest)
      with ((pre ++ fixed_fields e) ++ map byte_of_N (index_manager.path e)
            ++ x00 :: (repeat x00 ((62 + length (index_manager.path e) + 8) / 8 * 8
                                   - (62 + length (index_manager.path e) + 1)) ++ rest)).
    2:{ unfold entry_record. rewrite <- !app_assoc. reflexivity. }
    rewrite drop_app_length' by (rewrite length_app; lia).
    rewrite find_from_app by (by apply ascii_bytes_no_nul).
    rewrite length_map.
    destruct (Z.ltb_spec (Z.of_nat (length pre + 62)
                          + Z.of_nat (length (index_manager.path e))) 0); [lia|].
    f_equal. lia. }
  rewrite Hidx. rbind.
  assert (Hpath : slice (pre ++ entry_record e ++ rest) (length pre + 62)
                    (length pre + 62 + length (index_manager.path e))
                  = map byte_of_N (index_manager.path e)).
  { unfold slice.
    replace (pre ++ entry_record e ++ rest)
      with ((pre ++ fixed_fields e) ++ map byte_of_N (index_manager.path e)
            ++ x00 :: (repeat x00 ((62 + length (index_manager.path e) + 8) / 8 * 8
                                   - (62 + length (index_manager.path e) + 1)) ++ rest)).
    2:{ unfold entry_record. rewrite <- !app_assoc. reflexivity. }
    rewrite drop_app_length' by (rewrite length_app; lia).
    apply take_app_length'. rewrite length_map. lia. }
  rewrite Hpath, decode_ascii by (eapply Forall_impl; [exact Hp|]; simpl; lia).
  rbind. rewrite Hfields. f_equal. rewrite length_app. lia.
Qed.

Lemma read_entries_records (es : list index_manager.IndexEntry) :
  Forall entry_ascii es ->
  forall (pre tail : bytes) (acc : list index_manager.IndexEntry) (fuel : nat),
    (length tail < 62)%nat -> (length es <= fuel)%nat ->
    index_manager.read_entries fuel
      (pre ++ concat (map entry_record es) ++ tail) (length pre) acc
    = Ok (acc ++ es).
Proof.
  induction 1 as [|e es He _ IH]; intros pre tail acc fuel Htail Hfuel.
  - cbn [map concat app]. rewrite app_nil_r.
    destruct fuel; cbn [index_manager.read_entries];
      by rewrite decide_False by (rewrite length_app; lia).
  - destruct fuel as [|fuel]; [simpl in Hfuel; lia|]. simpl in Hfuel.
    cbn [map concat]. rewrite <- (app_assoc (entry_record e)).
    rewrite read_entries_record by done.
    rewrite (app_assoc pre), IH by (done || lia).
    by rewrite <- app_assoc.
Qed.

Lemma pack_entries_ascii (es : list index_manager.IndexEntry) (data : bytes) :
  Forall entry_ascii es ->
  index_manager.pack_entries es data = Ok (data ++ concat (map entry_record es)).
Proof.
  intros Hes. revert data. induction Hes as [|e es He _ IH]; intros data.
  - cbn. by rewrite app_nil_r.
  - cbn [index_manager.pack_entries map concat].
    rewrite pack_entry_ascii by done. rbind. rewrite IH. by rewrite <- app_assoc.
Qed.

Lemma records_length (es : list index_manager.IndexEntry) :
  Forall entry_ascii es -> (length es <= length (concat (map entry_record es)))%nat.
Proof.
  induction 1 as [|e es (_ & Hs & _) _ IH]; [done|].
  cbn [map concat length]. rewrite length_app, entry_record_length by done.
  pose proof (entry_len_pos (length (index_manager.path e))). lia.
Qed.

(** The round trip of C4 holds when every path is in ASCII: the lengths of
    a path in bytes and in code points are then the same. *)
Lemma index_roundtrip_ascii_paths (entries : list index_manager.IndexEntry)
    (st : repo) :
  Forall entry_ascii entries ->
  (Z.of_nat (length entries) < 2 ^ 32)%Z ->
  exists st' : repo,
    index_manager.write_index entries st = Ok st'
    /\ index_manager.read_index st' = Ok entries.
Proof.
  intros Hes Hn. unfold index_manager.write_index, index_manager.index_bytes.
  destruct (pack_L_value (Z.of_nat (length entries))) as (count & Hc & Hlen & _);
    [lia|].
  rewrite Hc. rbind. change (pack_L 2) with (Ok [x00; x00; x00; x02]). rbind.
  rewrite pack_entries_ascii by done. rbind.
  eexists. split; [reflexivity|].
  unfold index_manager.read_index. cbn [index_file].
  set (records := concat (map entry_record entries)).
  set (header := lit "DIRC" ++ [x00; x00; x00; x02] ++ count).
  assert (Hh : length header = 12%nat).
  { unfold header. rewrite !length_app, Hlen. reflexivity. }
  rewrite <- (app_assoc header).
  rewrite take_app_length', drop_app_length' by done.
  unfold index_manager.unpack_header. rewrite decide_True by done.
  rbind. cbn beta iota.
  assert (Hsig : slice header 0 4 = lit "DIRC") by reflexivity.
  assert (Hver : be_value (slice header 4 8) = 2%Z) by reflexivity.
  rewrite Hsig, Hver. rewrite bool_decide_eq_true_2 by done. cbn [negb Z.eqb Pos.eqb].
  apply (read_entries_records entries Hes [] (SHA1.digest (header ++ records)) []).
  - change (length (SHA1.digest (header ++ records))) with 20%nat. lia.
  - rewrite length_app. pose proof (records_length entries Hes). unfold records. lia.
Qed.

(** In the history of [demo_repo] the walk from the second commit finds the
    six objects, the blob of the nested tree among them; the walk from the
    first finds three of them, and three are missing on a remote that has
    the first commit. *)
Example demo_walk :
  (objects ← @commit_manager.find_commit_objects stored demo_repo 8 demo_commit_hash;
   Ok (size objects, bool_decide (hash_of (lit "world") (txt "blob") ∈ objects)))
  = Ok (6%nat, true)
  /\ (objects ← @remote_manager.find_missing_objects stored 8 demo_commit_hash
                  (Some demo_parent_hash) demo_repo;
      Ok (elements objects))
     = Ok [demo_commit_hash; demo_tree_hash; hash_of (lit "hello") (txt "blob")].
Proof. split; vm_compute; reflexivity. Qed.

(* ==================================================================== *)
(** * Further properties of the code *)

(** ** The object store *)

(** What [store_object] does to the repository. *)
Lemma store_object_effect `{Zlib} (data : bytes) (kind h : str) (st st' : repo) :
  object_store.store_object data kind st = Ok (h, st') ->
  exists full : bytes,
    object_store.compute_hash data kind = Ok (h, full)
    /\ ((is_Some (objects st !! object_path h) /\ st' = st)
        \/ (objects st !! object_path h = None
            /\ st' = Repo (<[object_path h := compress full]> (objects st))
                       (index_file st) (master_ref st))).
Proof.
  unfold object_store.store_object.
  intros ([h0 full] & Hc & Heq)%bind_ok_inv.
  pose proof (compute_hash_hexdigest _ _ _ _ Hc) as ->.
  rewrite object_file_hexdigest in Heq.
  exists full. destruct (objects st !! _) as [c|] eqn:E; inversion Heq; subst.
  - split; [done|]. left. rewrite E. by split; [eexists|].
  - split; [done|]. right. by split.
Qed.

Lemma object_file_lookup (st : repo) (h : str) (c : bytes) :
  object_file st h = Some c -> objects st !! object_path h = Some c.
Proof. unfold object_file. by destruct (drop 2 h). Qed.

Lemma store_object_keeps `{Zlib} (data : bytes) (kind h : str) (st st' : repo) :
  object_store.store_object data kind st = Ok (h, st') ->
  forall (h' : str) (c : bytes),
    object_file st h' = Some c -> object_file st' h' = Some c.
Proof.
  intros (full & Hc & [[_ ->]|[Hnone ->]])%store_object_effect h' c Hf; [done|].
  pose proof (object_file_lookup _ _ _ Hf) as Hl.
  unfold object_file in *. cbn [objects].
  destruct (drop 2 h'); [done|].
  rewrite lookup_insert_ne; [done|]. intros Heq. rewrite Heq in Hnone. congruence.
Qed.

Lemma store_object_stored `{Zlib} (data : bytes) (kind h : str) (st st' : repo) :
  object_store.store_object data kind st = Ok (h, st') ->
  is_Some (object_file st' h).
Proof.
  intros (full & Hc & Hcase)%store_object_effect.
  pose proof (compute_hash_hexdigest _ _ _ _ Hc) as ->.
  rewrite object_file_hexdigest.
  destruct Hcase as [[Hs ->]|[_ ->]]; [done|].
  cbn [objects]. rewrite lookup_insert_eq. by eexists.
Qed.

(** X1. Storing an object a second time changes nothing: the call returns
    the same hash and leaves the repository as the first call left it. *)
Theorem store_object_idempotent `{Zlib} (data : bytes) (kind h : str)
    (st st' : repo) :
  object_store.store_object data kind st = Ok (h, st') ->
  object_store.store_object data kind st' = Ok (h, st').
Proof.
  intros Hs. pose proof (store_object_stored _ _ _ _ _ Hs) as [c Hc].
  apply store_object_effect in Hs as (full & Hh & _).
  unfold object_store.store_object. rewrite Hh. rbind. by rewrite Hc.
Qed.

Lemma store_object_idempotent_witness :
  @object_store.store_object stored (lit "hello") (txt "blob") hello_repo
  = Ok (hexdigest hello_blob, hello_repo).
Proof.
  apply (@store_object_idempotent stored (lit "hello") (txt "blob")
           (hexdigest hello_blob) empty_repo hello_repo).
  vm_compute. reflexivity.
Defined.

(** X2. [store_object] never rewrites an object file: every object file of
    the repository is there afterwards with the same content, an object
    file exists under the hash returned, and the index and the ref are left
    as they were. *)
Theorem store_object_preserves `{Zlib} (data : bytes) (kind h : str)
    (st st' : repo) :
  object_store.store_object data kind st = Ok (h, st') ->
  (forall (h' : str) (c : bytes),
     object_file st h' = Some c -> object_file st' h' = Some c)
  /\ is_Some (object_file st' h)
  /\ index_file st' = index_file st
  /\ master_ref st' = master_ref st.
Proof.
  intros Hs. split; [by eapply store_object_keeps|].
  split; [by eapply store_object_stored|].
  by apply store_object_inv in Hs as (_ & _ & ? & ?).
Qed.

Lemma store_object_preserves_witness :
  (forall (h' : str) (c : bytes),
     object_file hello_repo h' = Some c -> object_file world_repo h' = Some c)
  /\ is_Some (object_file world_repo (hash_of (lit "world") (txt "blob")))
  /\ index_file world_repo = index_file hello_repo
  /\ master_ref world_repo = master_ref hello_repo.
Proof.
  apply (@store_object_preserves stored (lit "world") (txt "blob")
           (hash_of (lit "world") (txt "blob")) hello_repo world_repo).
  vm_compute. reflexivity.
Defined.

(** ** Reading an object file *)

Lemma word_not_space (w : str) :
  is_word w -> Forall (fun c => isspace c = false) w.
Proof. intros [_ Hw]. eapply Forall_impl; [exact Hw|]. apply visible_not_space. Qed.

Lemma word_ascii (w : str) : is_word w -> Forall (fun c => 0 < c < 128) w.
Proof. intros [_ Hw]. eapply Forall_impl; [exact Hw|]. simpl. lia. Qed.

(** The header [<kind> <word>] in bytes holds no NUL and is read back as
    its two words. *)
Lemma header_words (kind w : str) :
  is_word kind -> is_word w ->
  let header := kind ++ txt " " ++ w in
  (x00 ∉ map byte_of_N header)
  /\ decode (map byte_of_N header) = Ok header
  /\ split_ws isspace header [] = [kind; w].
Proof.
  intros Hk Hw header.
  assert (Ha : Forall (fun c => 0 < c < 128) header).
  { apply Forall_app. split; [by apply word_ascii|].
    apply Forall_app. split; [repeat constructor; vm_compute; done | by apply word_ascii]. }
  split; [by apply ascii_bytes_no_nul|]. split.
  - apply decode_ascii. eapply Forall_impl; [exact Ha|]. simpl. lia.
  - apply split_ws_two; [apply Hk | apply Hw | reflexivity | |]; by apply word_not_space.
Qed.

(** X3. [retrieve_object] checks neither the hash nor the length: an object
    file whose content is a header of two words, a NUL byte and some data
    is read as the first word and the data, under whatever name the file
    has and whatever the second word says. *)
Theorem retrieve_object_unchecked `{Zlib} (h kind w : str) (data c : bytes)
    (st : repo) :
  is_word kind -> is_word w ->
  object_file st h = Some c ->
  decompress c = Some (map byte_of_N (kind ++ txt " " ++ w) ++ x00 :: data) ->
  object_store.retrieve_object h st = Ok (kind, data).
Proof.
  intros Hk Hw Hf Hz. destruct (header_words kind w Hk Hw) as (Hnul & Hdec & Hsplit).
  unfold object_store.retrieve_object. rewrite Hf, Hz.
  rewrite split_once_first by done. cbn [rev app].
  rewrite Hdec. rbind. by rewrite Hsplit.
Qed.

Lemma retrieve_object_unchecked_witness :
  @object_store.retrieve_object stored (txt "abcdef") mislabelled_repo
  = Ok (txt "blob", lit "hi").
Proof.
  apply (@retrieve_object_unchecked stored (txt "abcdef") (txt "blob") (txt "999")
           (lit "hi") (lit "blob 999" ++ x00 :: lit "hi") mislabelled_repo).
  - split; [done | repeat constructor; vm_compute; done].
  - split; [done | repeat constructor; vm_compute; done].
  - reflexivity.
  - reflexivity.
Defined.

(** X4. The two [retrieve_object] functions agree wherever the one of
    object_store.py returns; where the one of remote_manager.py returns and
    the other does not, the other raises the [ValueError] of its unpacking
    of the header, whose words are not two. *)
Theorem retrieve_object_agree `{Zlib} (h : str) (st : repo) (r : str * bytes) :
  (object_store.retrieve_object h st = Ok r ->
   remote_manager.retrieve_object h st = Ok r)
  /\ (remote_manager.retrieve_object h st = Ok r ->
      object_store.retrieve_object h st = Ok r
      \/ object_store.retrieve_object h st = Raise (ValueError "unpack")).
Proof.
  unfold object_store.retrieve_object, remote_manager.retrieve_object.
  destruct (object_file st h) as [c|]; [|by split].
  destruct (decompress c) as [full|]; [|by split].
  destruct (split_once x00 full []) as [|header [|data [|x l]]]; try by split.
  destruct (decode header) as [text|e]; [|by split]. rbind.
  destruct (split_ws isspace text []) as [|w1 [|w2 [|w3 l]]]; split; intros Heq;
    try done; auto.
Qed.

Lemma retrieve_object_agree_witness :
  (@object_store.retrieve_object stored (txt "abcdef") mislabelled_repo
   = Ok (txt "blob", lit "hi") ->
   @remote_manager.retrieve_object stored (txt "abcdef") mislabelled_repo
   = Ok (txt "blob", lit "hi"))
  /\ (@remote_manager.retrieve_object stored (txt "abcdef") three_words_repo
      = Ok (txt "blob", lit "hi") ->
      @object_store.retrieve_object stored (txt "abcdef") three_words_repo
      = Ok (txt "blob", lit "hi")
      \/ @object_store.retrieve_object stored (txt "abcdef") three_words_repo
         = Raise (ValueError "unpack")).
Proof.
  split.
  - apply (@retrieve_object_agree stored (txt "abcdef") mislabelled_repo).
  - apply (@retrieve_object_agree stored (txt "abcdef") three_words_repo).
Defined.

Example retrieve_object_three_words :
  @remote_manager.retrieve_object stored (txt "abcdef") three_words_repo
  = Ok (txt "blob", lit "hi")
  /\ @object_store.retrieve_object stored (txt "abcdef") three_words_repo
     = Raise (ValueError "unpack").
Proof. split; reflexivity. Qed.

Lemma split_once_none (sep : byte) (data cur : bytes) :
  sep ∉ data -> split_once sep data cur = [rev cur ++ data].
Proof.
  revert cur. induction data as [|b data IH]; intros cur Hd; simpl.
  - by rewrite app_nil_r.
  - apply not_elem_of_cons in Hd as [Hb Hd].
    rewrite bool_decide_eq_false_2 by congruence.
    rewrite IH by done. simpl. by rewrite <- app_assoc.
Qed.

(** X5. The failures of [retrieve_object]. Without an object file under the
    hash it raises [FileNotFoundError]; with an object file that holds no
    NUL byte once decompressed, it raises the [ValueError] of unpacking one
    value into two names. *)
Theorem retrieve_object_failures `{Zlib} (h : str) (st : repo) :
  (drop 2 h <> [] -> objects st !! object_path h = None ->
   object_store.retrieve_object h st = Raise FileNotFoundError)
  /\ (forall c full : bytes,
        object_file st h = Some c -> decompress c = Some full -> x00 ∉ full ->
        object_store.retrieve_object h st = Raise (ValueError "unpack")).
Proof.
  unfold object_store.retrieve_object. split.
  - intros Hd Hnone. unfold object_file. destruct (drop 2 h); [done|]. by rewrite Hnone.
  - intros c full -> -> Hnul. by rewrite split_once_none.
Qed.

Lemma retrieve_object_failures_witness :
  @object_store.retrieve_object stored (txt "abcdef") empty_repo = Raise FileNotFoundError
  /\ @object_store.retrieve_object stored (txt "abcdef") no_nul_repo
     = Raise (ValueError "unpack").
Proof.
  split.
  - apply (@retrieve_object_failures stored (txt "abcdef") empty_repo); done.
  - apply (proj2 (@retrieve_object_failures stored (txt "abcdef") no_nul_repo)
             (lit "blob 2") (lit "blob 2")); [reflexivity | reflexivity |].
    vm_compute. intros Hin.
    repeat (apply elem_of_cons in Hin as [Hin|Hin]; [discriminate|]).
    by apply elem_of_nil in Hin.
Defined.

Lemma Ok_inj {A} (a b : A) : Ok a = Ok b -> a = b.
Proof. congruence. Qed.

(** ** The index file *)

Lemma entry_b_ascii : entry_ascii entry_b.
Proof.
  split; [|split; [reflexivity|split; [done|]]].
  - repeat constructor; done.
  - repeat constructor; vm_compute; done.
Qed.

(** X6. [read_index] reads the entries that are in the file, whatever the
    header says of their number and whatever follows them: the count field
    of the header and the checksum at the end are not looked at. *)
Theorem read_index_ignores_count_and_checksum
    (entries : list index_manager.IndexEntry) (count trailer : bytes) (st : repo) :
  Forall entry_ascii entries ->
  length count = 4%nat ->
  (length trailer < 62)%nat ->
  index_file st
  = Some (lit "DIRC" ++ [x00; x00; x00; x02] ++ count
          ++ concat (map entry_record entries) ++ trailer) ->
  index_manager.read_index st = Ok entries.
Proof.
  intros Hes Hc Ht Hf. unfold index_manager.read_index. rewrite Hf.
  set (records := concat (map entry_record entries)).
  set (header := lit "DIRC" ++ [x00; x00; x00; x02] ++ count).
  assert (Hh : length header = 12%nat).
  { unfold header. rewrite !length_app, Hc. reflexivity. }
  replace (lit "DIRC" ++ [x00; x00; x00; x02] ++ count ++ records ++ trailer)
    with (header ++ records ++ trailer) by (unfold header; by rewrite <- !app_assoc).
  rewrite take_app_length', drop_app_length' by done.
  unfold index_manager.unpack_header. rewrite decide_True by done.
  rbind. cbn beta iota.
  assert (Hsig : slice header 0 4 = lit "DIRC") by reflexivity.
  assert (Hver : be_value (slice header 4 8) = 2%Z) by reflexivity.
  rewrite Hsig, Hver. rewrite bool_decide_eq_true_2 by done. cbn [negb Z.eqb Pos.eqb].
  apply (read_entries_records entries Hes [] trailer []); [done|].
  rewrite length_app. pose proof (records_length entries Hes). unfold records. lia.
Qed.

Lemma read_index_ignores_count_and_checksum_witness :
  index_manager.read_index
    (Repo ∅ (Some (lit "DIRC" ++ [x00; x00; x00; x02] ++ [x00; x00; x00; x07]
                   ++ concat (map entry_record [entry_b]) ++ lit "no checksum"))
          None)
  = Ok [entry_b].
Proof.
  apply (read_index_ignores_count_and_checksum [entry_b] [x00; x00; x00; x07]
           (lit "no checksum")).
  - constructor; [apply entry_b_ascii | constructor].
  - reflexivity.
  - simpl. lia.
  - reflexivity.
Defined.

(** ** Writing an entry *)

Lemma mask_range (z : Z) : (0 <= index_manager.mask z < 2 ^ 32)%Z.
Proof.
  unfold index_manager.mask. change 0xFFFFFFFF%Z with (Z.ones 32).
  rewrite Z.land_ones by lia. apply Z.mod_pos_bound. lia.
Qed.

(** A field under its mask is always packed. *)
Lemma pack_L_mask (z : Z) :
  pack_L (index_manager.mask z) = Ok (SHA1.be32 (Z.to_N (index_manager.mask z))).
Proof.
  pose proof (mask_range z) as Hm. unfold pack_L.
  by rewrite (proj2 (Z.leb_le 0 _)), (proj2 (Z.ltb_lt _ (2 ^ 32))) by lia.
Qed.

Lemma pack_s_length (n : nat) (b : bytes) : length (pack_s n b) = n.
Proof. unfold pack_s. rewrite length_app, length_take, repeat_length. lia. Qed.

Lemma packed_fields_length (e : index_manager.IndexEntry) :
  length (packed_fields e) = 62%nat.
Proof. unfold packed_fields. rewrite !length_app, pack_s_length. reflexivity. Qed.

(** [pack_entry], case by case. *)
Lemma pack_entry_cases (e : index_manager.IndexEntry) :
  index_manager.pack_entry e =
  match encode (index_manager.path e) with
  | Raise x => Raise x
  | Ok path_bytes =>
      if ((0 <=? index_manager.flags e) && (index_manager.flags e <? 2 ^ 16))%Z
      then Ok (packed_fields e ++ path_bytes ++ [x00]
               ++ repeat x00 ((62 + length path_bytes + 8) / 8 * 8
                              - (62 + length path_bytes + 1)))
      else Raise StructError
  end.
Proof.
  unfold index_manager.pack_entry.
  destruct (encode (index_manager.path e)) as [pb|x]; [|done]. rbind.
  rewrite !pack_L_mask. rbind. unfold pack_H.
  destruct ((0 <=? _) && _)%Z; [|done]. rbind.
  unfold packed_fields. rewrite <- !app_assoc. do 12 f_equal.
  cbn [app]. do 3 f_equal.
  rewrite !length_app, !be32_length, pack_s_length. cbn [length].
  rewrite length_app. cbn [length]. do 2 f_equal; lia.
Qed.

(** X7. Every record that [write_index] writes for an entry is a whole
    number of 8-byte blocks: the 62 bytes of the fixed fields, the path in
    UTF-8, and from one to eight NUL bytes. *)
Theorem pack_entry_padded (e : index_manager.IndexEntry) (record : bytes) :
  index_manager.pack_entry e = Ok record ->
  exists (fixed path_bytes : bytes) (pad : nat),
    encode (index_manager.path e) = Ok path_bytes
    /\ length fixed = 62%nat
    /\ record = fixed ++ path_bytes ++ repeat x00 pad
    /\ (1 <= pad <= 8)%nat
    /\ (length record mod 8 = 0)%nat.
Proof.
  rewrite pack_entry_cases.
  destruct (encode (index_manager.path e)) as [pb|x]; [|done].
  destruct ((0 <=? _) && _)%Z; [|done]. intros <-%Ok_inj.
  pose proof (Nat.div_mod_eq (62 + length pb + 8) 8) as Hd.
  pose proof (Nat.mod_upper_bound (62 + length pb + 8) 8) as Hm.
  exists (packed_fields e), pb,
    (S ((62 + length pb + 8) / 8 * 8 - (62 + length pb + 1))).
  split; [done|]. split; [apply packed_fields_length|].
  split; [reflexivity|]. split; [lia|].
  rewrite !length_app, packed_fields_length, repeat_length. cbn [length].
  replace (62 + (length pb + (1 + ((62 + length pb + 8) / 8 * 8 - (62 + length pb + 1)))))%nat
    with ((62 + length pb + 8) / 8 * 8)%nat by lia.
  apply Nat.Div0.mod_mul.
Qed.

Lemma pack_entry_padded_witness :
  exists (fixed path_bytes : bytes) (pad : nat),
    encode (index_manager.path entry_e_acute) = Ok path_bytes
    /\ length fixed = 62%nat
    /\ record_e_acute = fixed ++ path_bytes ++ repeat x00 pad
    /\ (1 <= pad <= 8)%nat
    /\ (length record_e_acute mod 8 = 0)%nat.
Proof.
  apply (pack_entry_padded entry_e_acute record_e_acute). vm_compute. reflexivity.
Defined.

Lemma pack_entry_writable (e : index_manager.IndexEntry) :
  (exists r, index_manager.pack_entry e = Ok r) <-> writable e.
Proof.
  rewrite pack_entry_cases. unfold writable.
  destruct (encode (index_manager.path e)) as [pb|x].
  - destruct (Z.leb_spec 0 (index_manager.flags e)),
      (Z.ltb_spec (index_manager.flags e) (2 ^ 16)); cbn [andb]; split;
      try (intros [r Hr]; discriminate); try (intros [_ ?]; lia).
    + intros _. split; [by eexists | lia].
    + intros _. by eexists.
  - split; [by intros [r Hr] | by intros [[b Hb] _]].
Qed.

Lemma pack_entries_writable (entries : list index_manager.IndexEntry) (data : bytes) :
  (exists r, index_manager.pack_entries entries data = Ok r) <-> Forall writable entries.
Proof.
  revert data. induction entries as [|e entries IH]; intros data;
    cbn [index_manager.pack_entries].
  - split; [constructor | by eexists].
  - rewrite Forall_cons, <- pack_entry_writable. split.
    + intros [r (rec & He & Hr)%bind_ok_inv]. split; [by eexists|].
      apply (IH (data ++ rec)). by eexists.
    + intros [[rec He] Hall]. rewrite He. rbind. by apply IH.
Qed.

(** X8. [write_index] fails only on a path without a UTF-8 form, on flags
    that do not fit 16 bits or on 2^32 entries or more: the ten integer
    fields are cut to 32 bits and the hash field to 20 bytes, so they never
    make it fail. *)
Theorem write_index_succeeds_iff (entries : list index_manager.IndexEntry)
    (st : repo) :
  (exists st' : repo, index_manager.write_index entries st = Ok st')
  <-> (Z.of_nat (length entries) < 2 ^ 32)%Z /\ Forall writable entries.
Proof.
  unfold index_manager.write_index, index_manager.index_bytes.
  change (pack_L 2) with (Ok [x00; x00; x00; x02]). unfold pack_L at 1.
  destruct (Z.leb_spec 0 (Z.of_nat (length entries))) as [_|]; [|lia].
  destruct (Z.ltb_spec (Z.of_nat (length entries)) (2 ^ 32)) as [Hn|Hn]; cbn [andb]; rbind.
  - rewrite <- (pack_entries_writable entries
                  (lit "DIRC" ++ [x00; x00; x00; x02]
                   ++ SHA1.be32 (Z.to_N (Z.of_nat (length entries))))).
    split.
    + intros [st' (data & (body & Hb & _)%bind_ok_inv & _)%bind_ok_inv].
      split; [done | by eexists].
    + intros [_ [body Hb]]. rewrite Hb. rbind. by eexists.
  - split; [by intros [st' Hst] | intros [? _]; lia].
Qed.

Lemma write_index_succeeds_iff_witness :
  exists st' : repo, index_manager.write_index [entry_wide] empty_repo = Ok st'.
Proof.
  apply (write_index_succeeds_iff [entry_wide] empty_repo). split; [reflexivity|].
  constructor; [|constructor]. split; [by eexists | done].
Defined.

(** ** Staging files *)

Lemma dict_set_keys (d : list (str * index_manager.IndexEntry)) (k : str)
    (v : index_manager.IndexEntry) :
  (forall p, p ∈ map fst (index_manager.dict_set d k v) <-> p ∈ map fst d \/ p = k)
  /\ (NoDup (map fst d) -> NoDup (map fst (index_manager.dict_set d k v)))
  /\ (keyed d -> k = index_manager.path v -> keyed (index_manager.dict_set d k v))
  /\ (k, v) ∈ index_manager.dict_set d k v
  /\ (forall kv, kv ∈ d -> kv.1 <> k -> kv ∈ index_manager.dict_set d k v).
Proof.
  induction d as [|[k' v'] d (IH1 & IH2 & IH3 & IH4 & IH5)];
    cbn [index_manager.dict_set map fst].
  - split; [|split; [|split; [|split]]].
    + intros p. rewrite list_elem_of_singleton, elem_of_nil. tauto.
    + intros _. apply NoDup_singleton.
    + intros _ ->. by repeat constructor.
    + apply list_elem_of_singleton. done.
    + intros kv Hkv. by apply elem_of_nil in Hkv.
  - destruct (decide (k' = k)) as [->|Hne]; cbn [map fst].
    + split; [|split; [|split; [|split]]].
      * intros p. rewrite !elem_of_cons. tauto.
      * done.
      * intros [_ Hd]%Forall_cons ->. by constructor.
      * apply elem_of_cons. by left.
      * intros kv [->|Hkv]%elem_of_cons Hk; [done|]. apply elem_of_cons. by right.
    + split; [|split; [|split; [|split]]].
      * intros p. rewrite !elem_of_cons, IH1. tauto.
      * intros [Hnotin Hnd]%NoDup_cons. apply NoDup_cons. split; [|by apply IH2].
        rewrite IH1. intros [Hin| ->]; done.
      * intros [Hk Hd]%Forall_cons Hkv. constructor; [done | by apply IH3].
      * apply elem_of_cons. by right.
      * intros kv [->|Hkv]%elem_of_cons Hk; apply elem_of_cons; [by left|].
        right. by apply IH5.
Qed.

Lemma dict_set_origin (d : list (str * index_manager.IndexEntry)) (k : str)
    (v : index_manager.IndexEntry) (kv : str * index_manager.IndexEntry) :
  kv ∈ index_manager.dict_set d k v -> kv ∈ d \/ kv = (k, v).
Proof.
  induction d as [|[k' v'] d IH]; cbn [index_manager.dict_set].
  - intros ->%list_elem_of_singleton. by right.
  - destruct (decide (k' = k)) as [->|Hne].
    + intros [->|Hin]%elem_of_cons; [by right | left; by apply elem_of_cons; right].
    + intros [->|Hin]%elem_of_cons; [left; by apply elem_of_cons; left|].
      destruct (IH Hin) as [?| ->]; [left; by apply elem_of_cons; right | by right].
Qed.

Lemma hexdigest_encode (b : bytes) :
  encode (hexdigest b) = Ok (map byte_of_N (hexdigest b)).
Proof.
  apply encode_ascii. eapply Forall_impl; [apply hex_visible|]. simpl. lia.
Qed.

Lemma blob_word : is_word (txt "blob").
Proof. split; [done | repeat constructor; vm_compute; done]. Qed.

Section add.
Context `{Zlib}.

Lemma add_paths_cons (path : str) (paths : list str) (worktree : gmap str file)
    (d : list (str * index_manager.IndexEntry)) (st : repo) (f : file) :
  worktree !! path = Some f ->
  exists (full : bytes) (st1 : repo),
    object_store.store_object (content f) (txt "blob") st = Ok (hexdigest full, st1)
    /\ object_store.compute_hash (content f) (txt "blob") = Ok (hexdigest full, full)
    /\ index_manager.add_paths (path :: paths) worktree d st
       = index_manager.add_paths paths worktree
           (index_manager.dict_set d path (entry_of path f (hexdigest full))) st1.
Proof.
  intros Hf. cbn [index_manager.add_paths]. rewrite Hf.
  pose proof (compute_hash_word (txt "blob") (content f) blob_word) as Hc.
  cbv zeta in Hc. set (full := _ ++ x00 :: content f) in Hc.
  assert (Hs : exists st1,
             object_store.store_object (content f) (txt "blob") st
             = Ok (hexdigest full, st1)).
  { unfold object_store.store_object. rewrite Hc. rbind.
    destruct (object_file st (hexdigest full)); by eexists. }
  destruct Hs as [st1 Hs]. exists full, st1. split; [done|]. split; [done|].
  rewrite Hs. rbind. rewrite hexdigest_encode. rbind. reflexivity.
Qed.


Lemma add_paths_spec (paths : list str) (worktree : gmap str file) :
  forall (d d' : list (str * index_manager.IndexEntry)) (st st' : repo),
    index_manager.add_paths paths worktree d st = Ok (d', st') ->
    (NoDup (map fst d) -> NoDup (map fst d'))
    /\ (keyed d -> keyed d')
    /\ (forall p, p ∈ map fst d' <-> p ∈ map fst d \/ p ∈ paths)
    /\ (forall kv, kv ∈ d -> kv.1 ∉ paths -> kv ∈ d')
    /\ (forall p, p ∈ paths ->
          exists (f : file) (full : bytes),
            worktree !! p = Some f
            /\ object_store.compute_hash (content f) (txt "blob")
               = Ok (hexdigest full, full)
            /\ is_Some (object_file st' (hexdigest full))
            /\ (p, entry_of p f (hexdigest full)) ∈ d')
    /\ (forall h c, object_file st h = Some c -> object_file st' h = Some c)
    /\ index_file st' = index_file st
    /\ master_ref st' = master_ref st.
Proof.
  induction paths as [|p paths IH]; intros d d' st st' Hadd.
  - cbn [index_manager.add_paths] in Hadd. apply Ok_inj in Hadd.
    assert (d' = d /\ st' = st) as [-> ->] by (split; congruence).
    split; [done|]. split; [done|].
    split; [intros p; rewrite elem_of_nil; tauto|].
    split; [done|]. split; [intros p Hp; by apply elem_of_nil in Hp|]. done.
  - destruct (worktree !! p) as [f|] eqn:Hf.
    2:{ cbn [index_manager.add_paths] in Hadd. by rewrite Hf in Hadd. }
    destruct (add_paths_cons p paths worktree d st f Hf) as (full & st1 & Hs & Hc & Heq).
    rewrite Heq in Hadd. clear Heq.
    set (e := entry_of p f (hexdigest full)) in *.
    destruct (dict_set_keys d p e) as (K1 & K2 & K3 & K4 & K5).
    destruct (IH _ _ _ _ Hadd) as (I1 & I2 & I3 & I4 & I5 & I6 & I7 & I8).
    pose proof (store_object_stored _ _ _ _ _ Hs) as [c Hstored].
    split; [by intros ?%K2%I1|].
    split; [intros Hk; apply I2, K3; done|].
    split; [intros p0; rewrite I3, K1, elem_of_cons; tauto|].
    split.
    { intros kv Hkv Hnot. apply not_elem_of_cons in Hnot as [Hp Hps].
      apply I4; [by apply K5 | done]. }
    split.
    { intros p0 Hp0. destruct (decide (p0 ∈ paths)) as [Hin|Hnot]; [by apply I5|].
      apply elem_of_cons in Hp0 as [->|?]; [|done].
      exists f, full. split; [done|]. split; [done|].
      split; [exists c; by apply I6 | by apply I4]. }
    split.
    { intros h c0 Hh. apply I6. by eapply store_object_keeps. }
    apply store_object_inv in Hs as (_ & _ & Hi & Hm).
    split; congruence.
Qed.

(** The dict [add_to_index] starts from: the entries of the index by path,
    the last entry of a path standing for it. *)
Lemma index_dict (old : list index_manager.IndexEntry) :
  forall (d : list (str * index_manager.IndexEntry)),
    NoDup (map fst d) -> keyed d ->
    let d' := foldl (fun d entry => index_manager.dict_set d (index_manager.path entry) entry)
                d old in
    NoDup (map fst d') /\ keyed d'
    /\ (forall p, p ∈ map fst d' <-> p ∈ map fst d \/ p ∈ map index_manager.path old).
Proof.
  induction old as [|e old IH]; intros d Hnd Hk; cbn [foldl map].
  - split; [done|]. split; [done|]. intros p. rewrite elem_of_nil. tauto.
  - destruct (dict_set_keys d (index_manager.path e) e) as (K1 & K2 & K3 & _).
    destruct (IH (index_manager.dict_set d (index_manager.path e) e))
      as (I1 & I2 & I3); [by apply K2 | by apply K3|].
    split; [done|]. split; [done|].
    intros p. rewrite I3, K1, elem_of_cons. tauto.
Qed.

Lemma keyed_paths (d : list (str * index_manager.IndexEntry)) :
  keyed d -> map index_manager.path (map snd d) = map fst d.
Proof.
  induction 1 as [|[k v] d Hkv _ IH]; [done|]. cbn [map fst snd] in *.
  by rewrite IH, Hkv.
Qed.

(** What [add_to_index] does, step by step. *)
Lemma add_to_index_inv (paths : list str) (worktree : gmap str file)
    (st st' : repo) (out : str) :
  index_manager.add_to_index paths worktree st = Ok (st', out) ->
  exists (old : list index_manager.IndexEntry)
         (d : list (str * index_manager.IndexEntry)) (st1 : repo) (data : bytes),
    index_manager.read_index st = Ok old
    /\ index_manager.add_paths paths worktree
         (foldl (fun d entry => index_manager.dict_set d (index_manager.path entry) entry)
            [] old) st
       = Ok (d, st1)
    /\ index_manager.index_bytes (map snd d) = Ok data
    /\ st' = Repo (objects st1) (Some data) (master_ref st1)
    /\ out = txt "Added " ++ dec (N.of_nat (length paths)) ++ txt " file(s) to the index.".
Proof.
  unfold index_manager.add_to_index.
  intros (old & Hold & Hk)%bind_ok_inv.
  apply bind_ok_inv in Hk as ([d st1] & Hadd & Hk).
  apply bind_ok_inv in Hk as (st2 & Hw & Heq).
  unfold index_manager.write_index in Hw.
  apply bind_ok_inv in Hw as (data & Hdata & Hst2).
  exists old, d, st1, data. repeat (split; [done|]). split; congruence.
Qed.

End add.

(** X9. The index that [add_to_index] writes has one entry for each path:
    the paths it had and the paths added, none twice. The entry of an
    added path carries the stat fields of the file cut to 32 bits and, as
    its hash field, the forty characters of the hash of its blob. *)
Theorem add_to_index_entries `{Zlib} (paths : list str) (worktree : gmap str file)
    (st st' : repo) (out : str) :
  index_manager.add_to_index paths worktree st = Ok (st', out) ->
  exists (old new : list index_manager.IndexEntry) (data : bytes),
    index_manager.read_index st = Ok old
    /\ index_file st' = Some data
    /\ index_manager.index_bytes new = Ok data
    /\ NoDup (map index_manager.path new)
    /\ (forall p, p ∈ map index_manager.path new
                  <-> p ∈ map index_manager.path old \/ p ∈ paths)
    /\ (forall p, p ∈ paths ->
          exists (f : file) (full : bytes),
            worktree !! p = Some f
            /\ object_store.compute_hash (content f) (txt "blob")
               = Ok (hexdigest full, full)
            /\ entry_of p f (hexdigest full) ∈ new).
Proof.
  intros (old & d & st1 & data & Hold & Hadd & Hdata & -> & _)%add_to_index_inv.
  destruct (index_dict old []) as (D1 & D2 & D3); [constructor | constructor|].
  destruct (add_paths_spec _ _ _ _ _ _ Hadd) as (A1 & A2 & A3 & _ & A5 & _).
  exists old, (map snd d), data. split; [done|]. split; [done|]. split; [done|].
  rewrite keyed_paths by (by apply A2).
  split; [by apply A1|]. split.
  - intros p. rewrite A3, D3. cbn [map]. rewrite elem_of_nil. tauto.
  - intros p Hp. destruct (A5 p Hp) as (f & full & Hf & Hc & _ & Hin).
    exists f, full. split; [done|]. split; [done|].
    apply list_elem_of_fmap. by exists (p, entry_of p f (hexdigest full)).
Qed.


(** X11. After [add_to_index] an object file exists under the blob hash of
    every file added, every object file that was there is still there with
    its content, and the ref is untouched. *)
Theorem add_to_index_stores_blobs `{Zlib} (paths : list str) (worktree : gmap str file)
    (st st' : repo) (out : str) :
  index_manager.add_to_index paths worktree st = Ok (st', out) ->
  (forall (p : str) (f : file),
     p ∈ paths -> worktree !! p = Some f ->
     exists (h : str) (full : bytes),
       object_store.compute_hash (content f) (txt "blob") = Ok (h, full)
       /\ is_Some (object_file st' h))
  /\ (forall (h : str) (c : bytes),
        object_file st h = Some c -> object_file st' h = Some c)
  /\ master_ref st' = master_ref st.
Proof.
  intros (old & d & st1 & data & Hold & Hadd & Hdata & -> & _)%add_to_index_inv.
  destruct (add_paths_spec _ _ _ _ _ _ Hadd) as (_ & _ & _ & _ & A5 & A6 & _ & A8).
  split; [|split; [exact A6 | exact A8]].
  intros p f Hp Hf. destruct (A5 p Hp) as (f' & full & Hf' & Hc & Hs & _).
  assert (f' = f) as -> by congruence. by exists (hexdigest full), full.
Qed.

Lemma hello_added_ok : hello_added = Ok (hello_added_repo, hello_added_out).
Proof. vm_cast_no_check (eq_refl (Ok (hello_added_repo, hello_added_out))). Qed.

Lemma add_to_index_entries_witness :
  exists (old new : list index_manager.IndexEntry) (data : bytes),
    index_manager.read_index empty_repo = Ok old
    /\ index_file hello_added_repo = Some data
    /\ index_manager.index_bytes new = Ok data
    /\ NoDup (map index_manager.path new)
    /\ (forall p, p ∈ map index_manager.path new
                  <-> p ∈ map index_manager.path old \/ p ∈ [txt "a.txt"])
    /\ (forall p, p ∈ [txt "a.txt"] ->
          exists (f : file) (full : bytes),
            hello_worktree !! p = Some f
            /\ object_store.compute_hash (content f) (txt "blob")
               = Ok (hexdigest full, full)
            /\ entry_of p f (hexdigest full) ∈ new).
Proof.
  apply (@add_to_index_entries stored [txt "a.txt"] hello_worktree empty_repo
           hello_added_repo hello_added_out).
  exact hello_added_ok.
Defined.


Lemma add_to_index_stores_blobs_witness :
  (forall (p : str) (f : file),
     p ∈ [txt "a.txt"] -> hello_worktree !! p = Some f ->
     exists (h : str) (full : bytes),
       object_store.compute_hash (content f) (txt "blob") = Ok (h, full)
       /\ is_Some (object_file hello_added_repo h))
  /\ (forall (h : str) (c : bytes),
        object_file empty_repo h = Some c -> object_file hello_added_repo h = Some c)
  /\ master_ref hello_added_repo = master_ref empty_repo.
Proof.
  apply (@add_to_index_stores_blobs stored [txt "a.txt"] hello_worktree empty_repo
           hello_added_repo hello_added_out).
  exact hello_added_ok.
Defined.

(** ** The index, read after it is written *)

Lemma stored_form_ascii (e : index_manager.IndexEntry) :
  ascii_path_entry e -> entry_ascii (stored_form e).
Proof.
  intros [Hf Hp]. unfold entry_ascii, stored_form.
  cbn [index_manager.ctime_s index_manager.ctime_n
    index_manager.mtime_s index_manager.mtime_n index_manager.dev index_manager.ino
    index_manager.mode index_manager.uid index_manager.gid index_manager.size
    index_manager.sha1 index_manager.flags index_manager.path].
  split; [repeat constructor; apply mask_range|].
  split; [apply pack_s_length | done].
Qed.

Lemma mask_mask (z : Z) : index_manager.mask (index_manager.mask z) = index_manager.mask z.
Proof. apply mask_small, mask_range. Qed.

Lemma pack_s_pack_s (n : nat) (b : bytes) : pack_s n (pack_s n b) = pack_s n b.
Proof.
  unfold pack_s at 1. rewrite pack_s_length, Nat.sub_diag. cbn [repeat].
  rewrite app_nil_r. apply take_ge. by rewrite pack_s_length.
Qed.

Lemma pack_entry_stored_form (e : index_manager.IndexEntry) :
  index_manager.pack_entry (stored_form e) = index_manager.pack_entry e.
Proof.
  rewrite !pack_entry_cases. unfold packed_fields, stored_form.
  cbn [index_manager.ctime_s index_manager.ctime_n
    index_manager.mtime_s index_manager.mtime_n index_manager.dev index_manager.ino
    index_manager.mode index_manager.uid index_manager.gid index_manager.size
    index_manager.sha1 index_manager.flags index_manager.path].
  by rewrite !mask_mask, pack_s_pack_s.
Qed.

Lemma pack_entries_stored_form (entries : list index_manager.IndexEntry) (data : bytes) :
  index_manager.pack_entries (map stored_form entries) data
  = index_manager.pack_entries entries data.
Proof.
  revert data. induction entries as [|e entries IH]; intros data; [done|].
  cbn [map index_manager.pack_entries]. rewrite pack_entry_stored_form.
  destruct (index_manager.pack_entry e); [|done]. rbind. apply IH.
Qed.

(** What [read_index] reads in the bytes written for entries with ASCII
    paths. *)
Lemma index_bytes_read (entries : list index_manager.IndexEntry) (data : bytes)
    (st : repo) :
  Forall ascii_path_entry entries ->
  index_manager.index_bytes entries = Ok data ->
  index_file st = Some data ->
  index_manager.read_index st = Ok (map stored_form entries).
Proof.
  intros Hes Hdata Hfile.
  assert (Hn : (Z.of_nat (length (map stored_form entries)) < 2 ^ 32)%Z).
  { rewrite length_map. unfold index_manager.index_bytes in Hdata.
    apply bind_ok_inv in Hdata as (n & Hn & _). unfold pack_L in Hn.
    destruct (Z.ltb_spec (Z.of_nat (length entries)) (2 ^ 32)); [done|].
    by rewrite andb_false_r in Hn. }
  destruct (index_roundtrip_ascii_paths (map stored_form entries) st) as (st' & Hw & Hr);
    [|done|].
  { apply Forall_fmap. eapply Forall_impl; [exact Hes|]. apply stored_form_ascii. }
  rewrite length_map in Hn.
  destruct (pack_L_value (Z.of_nat (length entries))) as (count & Hc & _); [lia|].
  unfold index_manager.write_index, index_manager.index_bytes in Hw.
  unfold index_manager.index_bytes in Hdata.
  rewrite length_map, Hc in Hw. rewrite Hc in Hdata.
  change (pack_L 2) with (Ok [x00; x00; x00; x02]) in Hw, Hdata.
  rewrite !bind_ok in Hw. rewrite !bind_ok in Hdata.
  rewrite pack_entries_stored_form in Hw.
  destruct (index_manager.pack_entries entries _) as [body|]; [|done].
  rewrite !bind_ok in Hw. rewrite !bind_ok in Hdata. apply Ok_inj in Hdata as <-.
  apply Ok_inj in Hw as <-.
  unfold index_manager.read_index in *. cbn [index_file] in Hr. by rewrite Hfile.
Qed.

Lemma ascii_path_writable (e : index_manager.IndexEntry) :
  ascii_path_entry e -> writable e.
Proof.
  intros [Hf Hp]. split; [|done]. eexists. apply encode_ascii.
  eapply Forall_impl; [exact Hp|]. simpl. lia.
Qed.

Lemma index_bytes_writable (entries : list index_manager.IndexEntry) :
  (Z.of_nat (length entries) < 2 ^ 32)%Z -> Forall writable entries ->
  exists data : bytes, index_manager.index_bytes entries = Ok data.
Proof.
  intros Hn Hw. unfold index_manager.index_bytes.
  destruct (pack_L_value (Z.of_nat (length entries))) as (count & -> & _); [lia|].
  change (pack_L 2) with (Ok [x00; x00; x00; x02]). rbind.
  destruct (proj2 (pack_entries_writable entries (lit "DIRC" ++ [x00; x00; x00; x02] ++ count))
              Hw) as [body ->].
  rbind. by eexists.
Qed.

(** X12. For entries whose paths are in ASCII, the index that [write_index]
    writes is read back by [read_index] as the same entries in the same
    order, each with its integer fields cut to 32 bits and its hash field
    cut or padded to 20 bytes. *)
Theorem index_roundtrip_stored_form (entries : list index_manager.IndexEntry)
    (st : repo) :
  Forall ascii_path_entry entries ->
  (Z.of_nat (length entries) < 2 ^ 32)%Z ->
  exists st' : repo,
    index_manager.write_index entries st = Ok st'
    /\ index_manager.read_index st' = Ok (map stored_form entries).
Proof.
  intros Hes Hn.
  destruct (index_bytes_writable entries Hn) as [data Hdata].
  { eapply Forall_impl; [exact Hes|]. apply ascii_path_writable. }
  unfold index_manager.write_index. rewrite Hdata. rbind.
  eexists. split; [reflexivity|]. by eapply index_bytes_read.
Qed.

Lemma index_roundtrip_stored_form_witness :
  exists st' : repo,
    index_manager.write_index [entry_wide; entry_b] empty_repo = Ok st'
    /\ index_manager.read_index st' = Ok (map stored_form [entry_wide; entry_b]).
Proof.
  apply (index_roundtrip_stored_form [entry_wide; entry_b] empty_repo).
  - repeat constructor; vm_compute; congruence.
  - reflexivity.
Defined.

Example stored_form_wide :
  stored_form entry_wide
  = index_manager.mkIndexEntry 4294967295 0 3 4 5 6 33188 7 8 9
      (lit "abc" ++ repeat x00 17) 0 (txt "w").
Proof. reflexivity. Qed.

Section add_read.
Context `{Zlib}.

Lemma add_paths_origin (paths : list str) (worktree : gmap str file) :
  forall (d d' : list (str * index_manager.IndexEntry)) (st st' : repo),
    index_manager.add_paths paths worktree d st = Ok (d', st') ->
    forall kv, kv ∈ d' ->
      kv ∈ d \/ exists p f full,
                 p ∈ paths /\ worktree !! p = Some f
                 /\ kv = (p, entry_of p f (hexdigest full)).
Proof.
  induction paths as [|p paths IH]; intros d d' st st' Hadd kv Hkv.
  - cbn [index_manager.add_paths] in Hadd. apply Ok_inj in Hadd.
    left. congruence.
  - destruct (worktree !! p) as [f|] eqn:Hf.
    2:{ cbn [index_manager.add_paths] in Hadd. by rewrite Hf in Hadd. }
    destruct (add_paths_cons p paths worktree d st f Hf) as (full & st1 & _ & _ & Heq).
    rewrite Heq in Hadd.
    destruct (IH _ _ _ _ Hadd kv Hkv) as [Hin|(p' & f' & full' & Hp' & Hf' & ->)].
    + apply dict_set_origin in Hin as [Hin| ->]; [by left|].
      right. exists p, f, full. split; [by left | done].
    + right. exists p', f', full'. split; [by right | done].
Qed.

Lemma index_dict_origin (old : list index_manager.IndexEntry) :
  forall (d : list (str * index_manager.IndexEntry)) kv,
    kv ∈ foldl (fun d entry => index_manager.dict_set d (index_manager.path entry) entry)
           d old ->
    kv ∈ d \/ kv.2 ∈ old.
Proof.
  induction old as [|e old IH]; intros d kv; cbn [foldl]; [by left|].
  intros [[Hin| ->]%dict_set_origin|Hin]%IH.
  - by left.
  - right. by left.
  - right. by right.
Qed.

End add_read.

(** X13. [add] and then a reading of the index, for paths in ASCII: the
    entry read for a file added has the path, the size and the mode of the
    file, cut to 32 bits, and as its hash field the first twenty
    characters of the hash of the blob, not its twenty bytes. *)
Theorem add_to_index_then_read `{Zlib} (paths : list str) (worktree : gmap str file)
    (st st' : repo) (out : str) (old : list index_manager.IndexEntry) :
  index_manager.read_index st = Ok old ->
  Forall ascii_path_entry old ->
  Forall (fun p => Forall (fun c => 0 < c < 128) p) paths ->
  index_manager.add_to_index paths worktree st = Ok (st', out) ->
  exists entries : list index_manager.IndexEntry,
    index_manager.read_index st' = Ok entries
    /\ forall p, p ∈ paths ->
         exists (f : file) (full : bytes) (e : index_manager.IndexEntry),
           worktree !! p = Some f
           /\ object_store.compute_hash (content f) (txt "blob")
              = Ok (hexdigest full, full)
           /\ e ∈ entries
           /\ index_manager.path e = p
           /\ index_manager.sha1 e = take 20 (map byte_of_N (hexdigest full))
           /\ index_manager.size e = index_manager.mask (st_size (stat f))
           /\ index_manager.mode e = index_manager.mask (st_mode (stat f)).
Proof.
  intros Hold Hes Hpaths Hadd.
  apply add_to_index_inv in Hadd as (old' & d & st1 & data & Hold' & Hadd & Hdata & -> & _).
  assert (old' = old) as -> by congruence.
  assert (Hd : Forall ascii_path_entry (map snd d)).
  { apply Forall_forall. intros e ([k v] & -> & Hkv)%list_elem_of_fmap. cbn [snd].
    destruct (add_paths_origin _ _ _ _ _ _ Hadd _ Hkv)
      as [Hin|(p & f & full & Hp & _ & [= _ ->])].
    - apply index_dict_origin in Hin as [Hin|Hin]; [by apply elem_of_nil in Hin|].
      rewrite Forall_forall in Hes. by apply Hes.
    - split; [done|]. rewrite Forall_forall in Hpaths. by apply Hpaths. }
  exists (map stored_form (map snd d)). split.
  { by eapply index_bytes_read. }
  intros p Hp.
  destruct (add_paths_spec _ _ _ _ _ _ Hadd) as (_ & _ & _ & _ & A5 & _).
  destruct (A5 p Hp) as (f & full & Hf & Hc & _ & Hin).
  exists f, full, (stored_form (entry_of p f (hexdigest full))).
  split; [done|]. split; [done|]. split.
  { apply list_elem_of_fmap. eexists. split; [reflexivity|].
    apply list_elem_of_fmap. by exists (p, entry_of p f (hexdigest full)). }
  split; [done|]. split.
  { cbn [stored_form entry_of index_manager.sha1]. unfold pack_s.
    rewrite length_map, hexdigest_length. cbn [Nat.sub repeat]. apply app_nil_r. }
  split; apply mask_mask.
Qed.

Lemma add_to_index_then_read_witness :
  exists entries : list index_manager.IndexEntry,
    index_manager.read_index hello_added_repo = Ok entries
    /\ forall p, p ∈ [txt "a.txt"] ->
         exists (f : file) (full : bytes) (e : index_manager.IndexEntry),
           hello_worktree !! p = Some f
           /\ object_store.compute_hash (content f) (txt "blob")
              = Ok (hexdigest full, full)
           /\ e ∈ entries
           /\ index_manager.path e = p
           /\ index_manager.sha1 e = take 20 (map byte_of_N (hexdigest full))
           /\ index_manager.size e = index_manager.mask (st_size (stat f))
           /\ index_manager.mode e = index_manager.mask (st_mode (stat f)).
Proof.
  apply (@add_to_index_then_read stored [txt "a.txt"] hello_worktree empty_repo
           hello_added_repo hello_added_out []).
  - reflexivity.
  - constructor.
  - repeat constructor; vm_compute; done.
  - vm_cast_no_check (eq_refl (Ok (hello_added_repo, hello_added_out))).
Defined.

(** ** The ref *)

Lemma strip_line (h : str) :
  Forall (fun c => 32 < c < 127) h -> strip (h ++ [10]) = h.
Proof.
  intros Hv. destruct (decide (h = [])) as [->|Hne]; [reflexivity|]. unfold strip.
  assert (Hl : lstrip (h ++ [10]) = h ++ [10]).
  { destruct h as [|c s]; [done|]. inversion Hv; subst.
    cbn [app lstrip]. by rewrite visible_not_space. }
  rewrite Hl, rev_app_distr. cbn [rev app lstrip].
  change (isspace 10) with true. cbv iota.
  rewrite lstrip_visible; [apply rev_involutive |].
  apply Forall_forall. intros c Hc%list_elem_of_In%in_rev%list_elem_of_In.
  rewrite Forall_forall in Hv. by apply Hv.
Qed.

(** X14. The ref that [update_ref] writes is read back by
    [get_latest_commit] as the hash given, for a hash of visible ASCII
    characters: the line feed written after it is stripped. *)
Theorem update_ref_get_latest_commit (commit_hash : str) (st : repo) :
  Forall (fun c => 32 < c < 127) commit_hash ->
  commit_manager.get_latest_commit (commit_manager.update_ref commit_hash st)
  = Some commit_hash.
Proof.
  intros Hv. unfold commit_manager.get_latest_commit, commit_manager.update_ref.
  cbn [master_ref]. by rewrite strip_line.
Qed.

Lemma update_ref_get_latest_commit_witness :
  commit_manager.get_latest_commit
    (commit_manager.update_ref (txt "b6fc4c620b67d95f953a5c1c1230aaab5db5a1b0") empty_repo)
  = Some (txt "b6fc4c620b67d95f953a5c1c1230aaab5db5a1b0").
Proof.
  apply update_ref_get_latest_commit. repeat constructor; vm_compute; done.
Defined.

(** ** Commits *)

Lemma write_tree_effect `{Zlib} (st st' : repo) (tree_hash : str) :
  commit_manager.write_tree st = Ok (tree_hash, st') ->
  index_file st' = index_file st
  /\ forall (h : str) (c : bytes),
       object_file st h = Some c -> object_file st' h = Some c.
Proof.
  unfold commit_manager.write_tree.
  intros (entries & _ & (records & _ & Hs)%bind_ok_inv)%bind_ok_inv.
  split; [by apply store_object_inv in Hs as (_ & _ & ? & _)|].
  by eapply store_object_keeps.
Qed.

(** X15. What a commit leaves behind: the ref names the commit made, an
    object file exists under its hash, the object files that were there are
    there with their content, the index is untouched, and the line printed
    shows the first seven characters of the hash. *)
Theorem create_commit_effects `{Zlib} (message author : str) (timestamp timezone : Z)
    (st st' : repo) (commit_hash out : str) :
  commit_manager.create_commit message author timestamp timezone st
  = Ok (commit_hash, st', out) ->
  commit_manager.get_latest_commit st' = Some commit_hash
  /\ is_Some (object_file st' commit_hash)
  /\ (forall (h : str) (c : bytes),
        object_file st h = Some c -> object_file st' h = Some c)
  /\ index_file st' = index_file st
  /\ out = txt "Committed to master: " ++ take 7 commit_hash.
Proof.
  unfold commit_manager.create_commit.
  intros ([tree_hash st1] & Hw & Hk)%bind_ok_inv.
  apply bind_ok_inv in Hk as (commit_data & He & Hk).
  apply bind_ok_inv in Hk as ([h st2] & Hs & Heq).
  apply Ok_inj in Heq.
  assert (commit_hash = h /\ st' = commit_manager.update_ref h st2
          /\ out = txt "Committed to master: " ++ slice h 0 7) as (-> & -> & ->)
    by (repeat split; congruence).
  apply write_tree_effect in Hw as [Hi1 Hk1].
  pose proof (store_object_stored _ _ _ _ _ Hs) as Hstored.
  pose proof (store_object_keeps _ _ _ _ _ Hs) as Hk2.
  apply store_object_inv in Hs as (_ & [b ->] & Hi2 & _).
  split.
  { unfold commit_manager.get_latest_commit, commit_manager.update_ref.
    cbn [master_ref]. by rewrite strip_hash_line. }
  split; [done|]. split; [intros h c Hc; by apply Hk2, Hk1|].
  split; [cbn [commit_manager.update_ref index_file]; congruence|].
  unfold slice. by rewrite drop_0.
Qed.

Lemma dec_ascii (n : N) : Forall (fun c => c < 128) (dec n).
Proof. eapply Forall_impl; [apply dec_digit|]. unfold is_digit. simpl. lia. Qed.

Lemma dec_int_ascii (z : Z) : Forall (fun c => c < 128) (dec_int z).
Proof.
  unfold dec_int. destruct (z <? 0)%Z; [constructor; [done|]|]; apply dec_ascii.
Qed.

Lemma dec02_ascii (z : Z) : Forall (fun c => c < 128) (dec02 z).
Proof.
  unfold dec02. apply Forall_app. split; [|apply dec_int_ascii].
  apply Forall_forall. intros c Hc%list_elem_of_In%repeat_spec. by subst.
Qed.

(** The text of a commit without parent is in ASCII when its message and
    its author are. *)
Lemma commit_text_ascii (tree_hash message author : str) (timestamp timezone : Z) :
  Forall (fun c => c < 128) tree_hash ->
  Forall (fun c => c < 128) message ->
  Forall (fun c => c < 128) author ->
  Forall (fun c => c < 128)
    (commit_manager.commit_text tree_hash None message author timestamp timezone).
Proof.
  intros Htree Hmessage Hauthor. unfold commit_manager.commit_text.
  cbv zeta. cbn [commit_manager.truthy join app].
  repeat first
    [ done
    | apply dec_int_ascii
    | apply dec02_ascii
    | apply Forall_nil
    | apply Forall_cons; split; [done|]
    | apply Forall_app; split
    | destruct (_ >? _)%Z ].
Qed.

Lemma store_object_succeeds `{Zlib} (data : bytes) (kind : str) (st : repo) :
  is_word kind ->
  exists (b : bytes) (st' : repo),
    object_store.store_object data kind st = Ok (hexdigest b, st').
Proof.
  intros Hk. pose proof (compute_hash_word kind data Hk) as Hc. cbv zeta in Hc.
  unfold object_store.store_object. rewrite Hc. rbind.
  destruct (object_file st _); by eexists _, _.
Qed.

Lemma tree_word : is_word (txt "tree").
Proof. split; [done | repeat constructor; vm_compute; done]. Qed.

Lemma commit_word : is_word (txt "commit").
Proof. split; [done | repeat constructor; vm_compute; done]. Qed.

(** A commit is made when the index is empty or absent, there is no ref,
    and the message and the author are in ASCII. *)
Lemma create_commit_succeeds `{Zlib} (message author : str) (timestamp timezone : Z)
    (st : repo) :
  index_manager.read_index st = Ok [] ->
  master_ref st = None ->
  Forall (fun c => c < 128) message ->
  Forall (fun c => c < 128) author ->
  exists (commit_hash : str) (st' : repo) (out : str),
    commit_manager.create_commit message author timestamp timezone st
    = Ok (commit_hash, st', out).
Proof.
  intros Hindex Href Hmessage Hauthor.
  unfold commit_manager.create_commit, commit_manager.write_tree.
  rewrite Hindex. rbind. cbn [commit_manager.tree_entries]. rbind.
  destruct (store_object_succeeds (concat []) (txt "tree") st tree_word)
    as (b & st1 & Hs).
  rewrite Hs. rbind.
  apply store_object_inv in Hs as (_ & _ & _ & Href1).
  unfold commit_manager.get_latest_commit at 1. rewrite Href1, Href.
  rewrite encode_ascii.
  2:{ apply commit_text_ascii; [|done..].
      eapply Forall_impl; [apply hex_visible|]. simpl. lia. }
  rbind.
  match goal with
  | |- context [object_store.store_object ?d _ st1] =>
      destruct (store_object_succeeds d (txt "commit") st1 commit_word)
        as (b2 & st2 & ->)
  end.
  rbind. by eexists _, _, _.
Qed.

Lemma create_commit_effects_witness :
  exists (commit_hash : str) (st' : repo) (out : str),
    @commit_manager.create_commit stored (txt "first") (txt "A <a@b.c>")
      1700000000 (-3600) empty_repo
    = Ok (commit_hash, st', out)
    /\ commit_manager.get_latest_commit st' = Some commit_hash
    /\ is_Some (object_file st' commit_hash)
    /\ (forall (h : str) (c : bytes),
          object_file empty_repo h = Some c -> object_file st' h = Some c)
    /\ index_file st' = index_file empty_repo
    /\ out = txt "Committed to master: " ++ take 7 commit_hash.
Proof.
  destruct (@create_commit_succeeds stored (txt "first") (txt "A <a@b.c>")
              1700000000 (-3600) empty_repo)
    as (commit_hash & st' & out & Hcommit);
    [reflexivity | reflexivity | by repeat constructor | by repeat constructor |].
  exists commit_hash, st', out. split; [exact Hcommit|].
  exact (@create_commit_effects stored (txt "first") (txt "A <a@b.c>")
           1700000000 (-3600) empty_repo st' commit_hash out Hcommit).
Defined.

(** ** The tree of the index *)

Lemma oct_digits_range (fuel : nat) (n : N) (acc : str) :
  Forall (fun c => 48 <= c <= 55) acc ->
  Forall (fun c => 48 <= c <= 55) (oct_digits fuel n acc).
Proof.
  revert n acc. induction fuel as [|fuel IH]; intros n acc Hacc; cbn [oct_digits]; [done|].
  assert (Hd : Forall (fun c => 48 <= c <= 55) (digit (n mod 8) :: acc)).
  { constructor; [|done]. unfold digit. cbv beta. nlia. }
  destruct (n / 8 =? 0); [done | by apply IH].
Qed.

Lemma oct_range (z : Z) : (0 <= z)%Z -> Forall (fun c => 48 <= c <= 55) (oct z).
Proof.
  intros Hz. unfold oct. destruct (Z.ltb_spec z 0); [lia|].
  by apply oct_digits_range.
Qed.

Lemma bytes_not_in (s : str) (b : byte) (P : N -> Prop) :
  Forall P s -> (forall c, P c -> c < 256) -> ~ P (Byte.to_N b) ->
  b ∉ map byte_of_N s.
Proof.
  intros Hs Hlt Hb Hin. apply list_elem_of_fmap in Hin as (c & -> & Hin).
  rewrite Forall_forall in Hs. apply Hs in Hin.
  rewrite to_N_byte_of_N in Hb by (by apply Hlt). done.
Qed.

Lemma index_tree_entry_ok (e : index_manager.IndexEntry) :
  entry_ascii e -> entry_ok (index_tree_entry e).
Proof.
  intros (Hf & Hs & _ & Hp).
  assert (Hm : (0 <= index_manager.mode e)%Z).
  { rewrite Forall_forall in Hf. apply (Hf (index_manager.mode e)).
    repeat (apply elem_of_cons; (by left) || right). }
  pose proof (oct_range _ Hm) as Ho.
  unfold entry_ok, index_tree_entry. cbn [te_mode te_path te_sha1].
  split; [|split; [|split; [|done]]].
  - eapply bytes_not_in; [exact Ho | simpl; lia | simpl; lia].
  - eapply bytes_not_in; [exact Ho | simpl; lia | simpl; lia].
  - by apply ascii_bytes_no_nul.
Qed.

Lemma tree_entries_ascii `{Zlib} (entries : list index_manager.IndexEntry) :
  Forall entry_ascii entries ->
  commit_manager.tree_entries entries
  = Ok (map (fun e => entry_bytes (index_tree_entry e)) entries).
Proof.
  induction 1 as [|e entries He _ IH]; [done|].
  cbn [commit_manager.tree_entries map]. rewrite IH.
  pose proof He as (Hf & _ & _ & Hp).
  assert (Hm : (0 <= index_manager.mode e)%Z).
  { rewrite Forall_forall in Hf. apply (Hf (index_manager.mode e)).
    repeat (apply elem_of_cons; (by left) || right). }
  rewrite encode_ascii.
  - rbind. unfold entry_bytes, index_tree_entry. cbn [te_mode te_path te_sha1].
    rewrite !map_app. cbn [map txt list_byte_of_string].
    rewrite <- !app_assoc. reflexivity.
  - apply Forall_app. split.
    + eapply Forall_impl; [apply (oct_range _ Hm)|]. simpl. lia.
    + apply Forall_app. split; [repeat constructor; vm_compute; done|].
      eapply Forall_impl; [exact Hp|]. simpl. lia.
Qed.

(** X16. The tree that [write_tree] stores for an index with paths in
    ASCII is a tree as [find_tree_objects] reads it: it lists the hash
    fields of the index entries, in the order of the index. *)
Theorem write_tree_lists_index `{ZlibInverse} (st : repo)
    (entries : list index_manager.IndexEntry) :
  index_manager.read_index st = Ok entries ->
  Forall entry_ascii entries ->
  free_or_same st (tree_bytes (map index_tree_entry entries)) (txt "tree") ->
  exists (tree_hash : str) (st' : repo),
    commit_manager.write_tree st = Ok (tree_hash, st')
    /\ tree_members st' tree_hash
         (map (fun e => hex (index_manager.sha1 e)) entries).
Proof.
  intros Hr Hes Hfree. unfold commit_manager.write_tree.
  rewrite Hr. rbind. rewrite tree_entries_ascii by done. rbind.
  replace (concat (map (fun e => entry_bytes (index_tree_entry e)) entries))
    with (tree_bytes (map index_tree_entry entries))
    by (unfold tree_bytes; by rewrite map_map).
  set (data := tree_bytes (map index_tree_entry entries)) in *.
  pose proof (compute_hash_word (txt "tree") data tree_word) as Hhash.
  cbv zeta in Hhash. specialize (Hfree _ _ Hhash).
  unfold object_store.store_object. rewrite Hhash. rbind.
  assert (Hmem : forall st', (exists c, object_file st' (hexdigest
                   (map byte_of_N (txt "tree" ++ txt " " ++ dec (N.of_nat (length data)))
                    ++ x00 :: data)) = Some c
                   /\ decompress c = Some
                        (map byte_of_N (txt "tree" ++ txt " " ++ dec (N.of_nat (length data)))
                         ++ x00 :: data)) ->
            tree_members st' (hexdigest
                   (map byte_of_N (txt "tree" ++ txt " " ++ dec (N.of_nat (length data)))
                    ++ x00 :: data))
              (map (fun e => hex (index_manager.sha1 e)) entries)).
  { intros st' (c & Hc & Hz). exists (map index_tree_entry entries).
    split; [by eapply (retrieve_object_holds (txt "tree") data c st' tree_word)|].
    split.
    - apply Forall_fmap. eapply Forall_impl; [exact Hes|]. apply index_tree_entry_ok.
    - by rewrite map_map. }
  destruct Hfree as [Hnone|(c & Hc & Hz)].
  - rewrite Hnone. eexists _, _. split; [reflexivity|]. apply Hmem.
    exists (compress (map byte_of_N (txt "tree" ++ txt " " ++ dec (N.of_nat (length data)))
                    ++ x00 :: data)).
    split; [|apply decompress_compress].
    rewrite object_file_hexdigest. cbn [objects]. apply lookup_insert_eq.
  - rewrite Hc. eexists _, _. split; [reflexivity|]. apply Hmem. by exists c.
Qed.

Lemma write_tree_lists_index_witness :
  exists (tree_hash : str) (st' : repo),
    @commit_manager.write_tree stored index_b_repo = Ok (tree_hash, st')
    /\ @tree_members stored st' tree_hash
         (map (fun e => hex (index_manager.sha1 e)) [entry_b]).
Proof.
  apply (@write_tree_lists_index stored (fun b => eq_refl) index_b_repo [entry_b]).
  - vm_compute. reflexivity.
  - constructor; [apply entry_b_ascii | constructor].
  - intros h full Hc. left. unfold object_file.
    destruct (drop 2 h); [reflexivity | apply lookup_empty].
Defined.

(** ** Failures of the walk *)

Lemma filter_none {A} (P : A -> bool) (l : list A) :
  Forall (fun x => P x = false) l -> filter (fun x => P x) l = [].
Proof.
  induction 1 as [|x l Hx _ IH]; [done|].
  rewrite filter_cons_False by (rewrite Hx; simpl; tauto). done.
Qed.

(** X17. The failures of [find_commit_objects]: [FileNotFoundError] when no
    object file is under the hash, [AssertionError] when the object is not
    a commit, and [StopIteration] when no line of the commit starts with
    [tree ]. *)
Theorem find_commit_objects_failures `{Zlib} (st : repo) (commit_sha1 : str)
    (fuel : nat) :
  (drop 2 commit_sha1 <> [] -> objects st !! object_path commit_sha1 = None ->
   commit_manager.find_commit_objects st (S fuel) commit_sha1 = Raise FileNotFoundError)
  /\ (forall (kind : str) (data : bytes),
        object_store.retrieve_object commit_sha1 st = Ok (kind, data) ->
        kind <> txt "commit" ->
        commit_manager.find_commit_objects st (S fuel) commit_sha1
        = Raise AssertionError)
  /\ (forall (data : bytes) (text : str),
        object_store.retrieve_object commit_sha1 st = Ok (txt "commit", data) ->
        decode data = Ok text ->
        Forall (fun line => startswith (txt "tree ") line = false) (splitlines text []) ->
        commit_manager.find_commit_objects st (S fuel) commit_sha1
        = Raise StopIteration).
Proof.
  rewrite find_commit_objects_S. split; [|split].
  - intros Hd Hnone. unfold object_store.retrieve_object, object_file.
    destruct (drop 2 commit_sha1); [done|]. by rewrite Hnone.
  - intros kind data -> Hk. rbind. by rewrite bool_decide_eq_false_2.
  - intros data text -> Hd Hlines. rbind. rewrite bool_decide_eq_true_2 by done.
    cbn [negb]. rewrite Hd. rbind.
    rewrite (filter_none (fun line => startswith (txt "tree ") line)) by done.
    reflexivity.
Qed.

Lemma find_commit_objects_failures_witness :
  @commit_manager.find_commit_objects stored empty_repo 1 (hexdigest hello_blob)
  = Raise FileNotFoundError
  /\ @commit_manager.find_commit_objects stored hello_repo 1 (hexdigest hello_blob)
     = Raise AssertionError
  /\ @commit_manager.find_commit_objects stored no_tree_repo 1
       (hash_of no_tree_commit (txt "commit"))
     = Raise StopIteration.
Proof.
  split; [|split].
  - apply (@find_commit_objects_failures stored empty_repo (hexdigest hello_blob) 0);
      [vm_compute; discriminate | reflexivity].
  - apply (proj1 (proj2 (@find_commit_objects_failures stored hello_repo
                           (hexdigest hello_blob) 0)) (txt "blob") (lit "hello"));
      [vm_compute; reflexivity | discriminate].
  - apply (proj2 (proj2 (@find_commit_objects_failures stored no_tree_repo
                           (hash_of no_tree_commit (txt "commit")) 0))
             no_tree_commit (map Byte.to_N no_tree_commit));
      [vm_compute; reflexivity | vm_compute; reflexivity |].
    vm_compute. repeat constructor.
Defined.

Section sound.
Context `{Zlib}.
Variable st : repo.

Lemma tree_loop_grows (fuel : nat) (tree_data : bytes) :
  forall (i : Z) (objects r : gset str),
    commit_manager.tree_loop st fuel tree_data i objects = Ok r -> objects ⊆ r.
Proof.
  induction fuel as [|fuel IH]; intros i objects r.
  - cbn [commit_manager.tree_loop]. destruct (_ <? _)%Z; [done|].
    by intros ->%Ok_inj.
  - rewrite tree_loop_S. destruct (_ <? _)%Z; [|by intros ->%Ok_inj]. cbv zeta.
    intros ([kind data] & _ & Hk)%bind_ok_inv.
    apply bind_ok_inv in Hk as (objects' & Hobj & Hloop).
    apply IH in Hloop. etransitivity; [|exact Hloop].
    destruct (bool_decide _).
    + apply bind_ok_inv in Hobj as (sub & _ & <-%Ok_inj). set_solver.
    + apply Ok_inj in Hobj as <-. set_solver.
Qed.

Lemma tree_loop_listed (entries : list tree_entry) :
  Forall entry_ok entries ->
  forall (fuel : nat) (pre : bytes) (objects r : gset str),
    commit_manager.tree_loop st fuel (pre ++ tree_bytes entries)
      (Z.of_nat (length pre)) objects = Ok r ->
    Forall (fun e => hex (te_sha1 e) ∈ r
                     /\ exists (kind : str) (data : bytes),
                          object_store.retrieve_object (hex (te_sha1 e)) st
                          = Ok (kind, data))
           entries.
Proof.
  induction 1 as [|e entries He _ IH]; intros fuel pre objects r Hloop; [constructor|].
  change (tree_bytes (e :: entries)) with (entry_bytes e ++ tree_bytes entries) in Hloop.
  destruct fuel as [|fuel].
  { cbn [commit_manager.tree_loop] in Hloop.
    rewrite (proj2 (Z.ltb_lt _ _)) in Hloop; [done|].
    rewrite !length_app, entry_bytes_length. lia. }
  rewrite tree_loop_entry in Hloop by done.
  apply bind_ok_inv in Hloop as ([kind data] & Hr & Hk).
  apply bind_ok_inv in Hk as (objects' & Hobj & Hloop).
  rewrite app_assoc in Hloop.
  constructor; [|by eapply IH].
  split; [|by exists kind, data].
  apply tree_loop_grows in Hloop. apply Hloop.
  destruct (bool_decide _).
  - apply bind_ok_inv in Hobj as (sub & _ & <-%Ok_inj). set_solver.
  - apply Ok_inj in Hobj as <-. set_solver.
Qed.

End sound.

(** X18. When [find_tree_objects] returns, the set holds the tree itself
    and every hash the tree lists, and each of these hashes names an
    object of the store: a tree that lists a missing object makes the walk
    fail. *)
Theorem find_tree_objects_listed `{Zlib} (st : repo) (fuel : nat) (tree_sha1 : str)
    (hs : list str) (objects : gset str) :
  commit_manager.find_tree_objects st fuel tree_sha1 = Ok objects ->
  tree_members st tree_sha1 hs ->
  tree_sha1 ∈ objects
  /\ Forall (fun h => h ∈ objects
                      /\ exists (kind : str) (data : bytes),
                           object_store.retrieve_object h st = Ok (kind, data))
            hs.
Proof.
  intros Hfind (entries & Hr & Hok & ->).
  destruct fuel as [|fuel]; [done|].
  rewrite find_tree_objects_S, Hr in Hfind. rewrite bind_ok in Hfind.
  split.
  - apply tree_loop_grows in Hfind. set_solver.
  - apply Forall_fmap. eapply (tree_loop_listed st entries Hok fuel [] _ _ Hfind).
Qed.

Lemma find_tree_objects_listed_witness :
  demo_tree_hash ∈ demo_tree_objects
  /\ Forall (fun h => h ∈ demo_tree_objects
                      /\ exists (kind : str) (data : bytes),
                           @object_store.retrieve_object stored h demo_repo
                           = Ok (kind, data))
            (map (fun e => hex (te_sha1 e)) demo_entries).
Proof.
  apply (@find_tree_objects_listed stored demo_repo 8 demo_tree_hash).
  - vm_cast_no_check (eq_refl (Ok demo_tree_objects)).
  - exists demo_entries. split; [vm_compute; reflexivity|].
    split; [entries_ok | reflexivity].
Defined.

(** ** A tree on which the walk does not end *)

Lemma find_from_none (b : byte) (l : bytes) (i : Z) :
  b ∉ l -> find_from b l i = (-1)%Z.
Proof.
  revert i. induction l as [|x l IH]; intros i Hl; cbn [find_from]; [done|].
  apply not_elem_of_cons in Hl as [Hx Hl].
  rewrite bool_decide_eq_false_2 by congruence. by apply IH.
Qed.

Lemma drop_last (l : bytes) (b : byte) :
  last l = Some b -> drop (length l - 1) l = [b].
Proof.
  intros (l' & ->)%last_Some. rewrite length_app. cbn [length].
  replace (length l' + 1 - 1)%nat with (length l') by lia.
  by rewrite drop_app_length.
Qed.

Section stuck.
Context `{Zlib}.
Variable st : repo.

(** One turn of the loop on bytes without a blank whose last byte is not
    NUL: both searches fail, the hash is read at the start of the bytes and
    the loop goes on from position 20. *)
Lemma tree_loop_stuck (tree_data data : bytes) (b : byte) (kind : str) :
  (20 < length tree_data)%nat ->
  (x20 ∉ tree_data) ->
  last tree_data = Some b -> b <> x00 ->
  object_store.retrieve_object (hex (take 20 tree_data)) st = Ok (kind, data) ->
  kind <> txt "tree" ->
  forall (fuel : nat) (i : Z) (objects : gset str),
    (0 <= i < Z.of_nat (length tree_data))%Z ->
    commit_manager.tree_loop st fuel tree_data i objects = Raise OutOfFuel.
Proof.
  intros Hlen Hsp Hlast Hb Hr Hk.
  induction fuel as [|fuel IH]; intros i objects Hi.
  - cbn [commit_manager.tree_loop]. by rewrite (proj2 (Z.ltb_lt _ _)) by lia.
  - rewrite tree_loop_S, (proj2 (Z.ltb_lt _ _)) by lia. cbv zeta.
    assert (H1 : bytes_find x20 tree_data i = (-1)%Z).
    { unfold bytes_find. destruct (Z.ltb_spec i 0); [lia|].
      apply find_from_none. intros Hin. apply Hsp.
      rewrite <- (take_drop (Z.to_nat i) tree_data). apply elem_of_app. by right. }
    assert (H2 : bytes_find x00 tree_data (-1) = (-1)%Z).
    { unfold bytes_find. cbn [Z.ltb Z.compare].
      replace (Z.to_nat (Z.max 0 (Z.of_nat (length tree_data) + -1)))
        with (length tree_data - 1)%nat by lia.
      rewrite (drop_last _ _ Hlast). cbn [find_from].
      by rewrite bool_decide_eq_false_2. }
    rewrite H1, H2. change (-1 + 1)%Z with 0%Z.
    change (Z.to_nat 0) with 0%nat. change (0 + 20)%nat with 20%nat.
    unfold slice. rewrite drop_0. change (20 - 0)%nat with 20%nat.
    rewrite Hr. rbind.
    rewrite bool_decide_eq_false_2 by done. rbind.
    apply IH. lia.
Qed.

End stuck.

(** X19. On a malformed tree the walk never ends. When the bytes of the
    object hold no blank, are more than twenty, do not end with NUL, and
    start with the hash of an object that is no tree, every turn of the
    loop of [find_tree_objects] reads that hash again and sets its position
    back to 20: whatever the number of turns allowed, the loop has not
    ended when they are used up. *)
Theorem find_tree_objects_never_ends `{Zlib} (st : repo) (tree_sha1 kind0 kind : str)
    (tree_data data : bytes) (b : byte) :
  object_store.retrieve_object tree_sha1 st = Ok (kind0, tree_data) ->
  (20 < length tree_data)%nat ->
  (x20 ∉ tree_data) ->
  last tree_data = Some b -> b <> x00 ->
  object_store.retrieve_object (hex (take 20 tree_data)) st = Ok (kind, data) ->
  kind <> txt "tree" ->
  forall fuel : nat,
    commit_manager.find_tree_objects st fuel tree_sha1 = Raise OutOfFuel.
Proof.
  intros Ht Hlen Hsp Hlast Hb Hr Hk [|fuel]; [done|].
  rewrite find_tree_objects_S, Ht. rbind.
  eapply tree_loop_stuck; try done. lia.
Qed.

Lemma find_tree_objects_never_ends_witness :
  @commit_manager.find_tree_objects stored stuck_repo 1000
    (hash_of stuck_tree (txt "tree"))
  = Raise OutOfFuel.
Proof.
  apply (@find_tree_objects_never_ends stored stuck_repo
           (hash_of stuck_tree (txt "tree")) (txt "tree") (txt "blob")
           stuck_tree (lit "hello") "x"%byte).
  - vm_compute. reflexivity.
  - vm_compute. lia.
  - not_in.
  - reflexivity.
  - discriminate.
  - vm_compute. reflexivity.
  - discriminate.
Defined.

(** ** The missing objects, at the edges *)

Lemma find_commit_objects_nonempty `{Zlib} (st : repo) (fuel : nat) (c : str)
    (objects : gset str) :
  commit_manager.find_commit_objects st fuel c = Ok objects ->
  commit_manager.truthy (Some c) = true.
Proof.
  destruct fuel as [|fuel]; [done|]. rewrite find_commit_objects_S.
  intros ([kind data] & Hr & _)%bind_ok_inv.
  unfold object_store.retrieve_object, object_file in Hr.
  by destruct c.
Qed.

(** X20. [find_missing_objects] at its edges. With the remote tip equal to
    the local tip nothing is missing; with an empty string as remote tip
    the result is that of no remote tip, every object of the local walk;
    with a remote tip that has no object file in the local store the call
    raises [FileNotFoundError]. *)
Theorem find_missing_objects_edges `{Zlib} (st : repo) (fuel : nat) (local_sha1 : str)
    (local_objects : gset str) :
  commit_manager.find_commit_objects st fuel local_sha1 = Ok local_objects ->
  remote_manager.find_missing_objects fuel local_sha1 (Some local_sha1) st = Ok ∅
  /\ remote_manager.find_missing_objects fuel local_sha1 (Some []) st = Ok local_objects
  /\ forall remote_sha1 : str,
       drop 2 remote_sha1 <> [] -> objects st !! object_path remote_sha1 = None ->
       remote_manager.find_missing_objects fuel local_sha1 (Some remote_sha1) st
       = Raise FileNotFoundError.
Proof.
  intros Hl. pose proof (find_commit_objects_nonempty _ _ _ _ Hl) as Ht.
  unfold remote_manager.find_missing_objects. rewrite Hl. rbind.
  split; [|split].
  - rewrite Ht. change (default [] (Some local_sha1)) with local_sha1.
    rewrite Hl. rbind. f_equal. apply difference_diag_L.
  - reflexivity.
  - intros r Hd Hnone.
    assert (commit_manager.truthy (Some r) = true) as -> by (by destruct r).
    change (default [] (Some r)) with r. destruct fuel as [|fuel]; [done|].
    rewrite find_commit_objects_S. unfold object_store.retrieve_object, object_file.
    destruct (drop 2 r); [done|]. by rewrite Hnone.
Qed.

Lemma find_missing_objects_edges_witness :
  @remote_manager.find_missing_objects stored 8 demo_commit_hash
    (Some demo_commit_hash) demo_repo = Ok ∅
  /\ @remote_manager.find_missing_objects stored 8 demo_commit_hash (Some []) demo_repo
     = Ok demo_objects
  /\ forall remote_sha1 : str,
       drop 2 remote_sha1 <> [] -> objects demo_repo !! object_path remote_sha1 = None ->
       @remote_manager.find_missing_objects stored 8 demo_commit_hash
         (Some remote_sha1) demo_repo
       = Raise FileNotFoundError.
Proof.
  apply (@find_missing_objects_edges stored demo_repo 8 demo_commit_hash demo_objects).
  vm_cast_no_check (eq_refl (Ok demo_objects)).
Defined.

(** ** The pack, when it is built *)

Lemma type_num_kinds (kind : str) (n : N) :
  remote_manager.type_num kind = Ok n -> kind ∈ kinds /\ 1 <= n <= 3.
Proof.
  unfold remote_manager.type_num, kinds.
  repeat case_bool_decide; subst; intros Heq; try discriminate;
    apply Ok_inj in Heq as <-; (split; [|lia]); set_solver.
Qed.

Lemma pack_body_ok `{Zlib} (st : repo) (hashes : list str) :
  forall body r : bytes,
    remote_manager.pack_body hashes st body = Ok r ->
    Forall (fun h => exists kind data,
              remote_manager.retrieve_object h st = Ok (kind, data) /\ kind ∈ kinds)
           hashes.
Proof.
  induction hashes as [|h hashes IH]; intros body r Hb; [constructor|].
  cbn [remote_manager.pack_body] in Hb.
  apply bind_ok_inv in Hb as ([kind data] & Hr & Hb).
  apply bind_ok_inv in Hb as (packed & Hp & Hb).
  constructor; [|by eapply IH].
  exists kind, data. split; [done|].
  unfold remote_manager.pack_object in Hp.
  apply bind_ok_inv in Hp as (n & Hn & _). by apply type_num_kinds in Hn as [? _].
Qed.

(** X21. [create_pack] returns a pack only for a set of hashes that all
    resolve to objects of the three kinds, fewer than 2^32 of them: a hash
    without an object file, or an object of another kind, makes it fail. *)
Theorem create_pack_ok_resolvable `{Zlib} (objects : gset str) (st : repo)
    (pack : bytes) :
  remote_manager.create_pack objects st = Ok pack ->
  resolvable st objects /\ (Z.of_nat (size objects) < 2 ^ 32)%Z.
Proof.
  unfold remote_manager.create_pack.
  intros (two & _ & (n & Hn & (body & Hb & _)%bind_ok_inv)%bind_ok_inv)%bind_ok_inv.
  split.
  - apply pack_body_ok in Hb. rewrite Forall_forall in Hb.
    intros h Hh. apply Hb.
    assert (Hperm : remote_manager.sorted objects ≡ₚ elements objects)
      by apply merge_sort_Permutation.
    rewrite Hperm. by apply elem_of_elements.
  - unfold pack_L in Hn.
    destruct (Z.ltb_spec (Z.of_nat (size objects)) (2 ^ 32)); [done|].
    by rewrite andb_false_r in Hn.
Qed.

Lemma create_pack_ok_resolvable_witness :
  @resolvable stored hello_repo {[ hexdigest hello_blob ]}
  /\ (Z.of_nat (size ({[ hexdigest hello_blob ]} : gset str)) < 2 ^ 32)%Z.
Proof.
  apply (@create_pack_ok_resolvable stored {[ hexdigest hello_blob ]} hello_repo
           hello_pack).
  vm_cast_no_check (eq_refl (Ok hello_pack)).
Defined.

(** ** The record header, read back *)

Lemma lor_low7 (n : N) : N.lor (N.land n 0x7f) 0x80 = n mod 128 + 128.
Proof.
  change 0x7f with (N.ones 7). rewrite N.land_ones. change (2 ^ 7) with 128.
  assert (Hd : N.land (n mod 128) 128 = 0).
  { apply N.bits_inj. intros k. rewrite N.land_spec, N.bits_0.
    change 128 with (2 ^ 7). rewrite N.pow2_bits_eqb.
    destruct (N.eqb_spec 7 k) as [<-|]; [|apply andb_false_r].
    rewrite N.mod_pow2_bits_high by lia. done. }
  by rewrite N.add_nocarry_lxor, N.lxor_lor.
Qed.

Lemma low7 (n : N) : N.land (N.lor (N.land n 0x7f) 0x80) 0x7f = n mod 128.
Proof.
  rewrite lor_low7. change 0x7f with (N.ones 7). rewrite N.land_ones.
  change (2 ^ 7) with 128. nlia.
Qed.

Lemma size_bytes_value (fuel : nat) (n : N) :
  n < 2 ^ N.of_nat fuel ->
  varint_value (remote_manager.size_bytes fuel n) = n.
Proof.
  revert n. induction fuel as [|fuel IH]; intros n Hn.
  - simpl in *. lia.
  - cbn [remote_manager.size_bytes]. destruct (N.eqb_spec n 0) as [->|Hne]; [done|].
    cbn [varint_value]. rewrite low7, IH.
    + rewrite N.shiftr_div_pow2. change (2 ^ 7) with 128. nlia.
    + rewrite N.shiftr_div_pow2. change (2 ^ 7) with 128.
      rewrite Nat2N.inj_succ, N.pow_succ_r' in Hn.
      apply N.Div0.div_lt_upper_bound. lia.
Qed.

Lemma size_bytes_small (fuel : nat) (n : N) :
  Forall (fun b => b < 256) (remote_manager.size_bytes fuel n).
Proof.
  revert n. induction fuel as [|fuel IH]; intros n; cbn [remote_manager.size_bytes];
    [constructor|].
  destruct (n =? 0); constructor; [|apply IH].
  rewrite lor_low7. nlia.
Qed.

(** X22. The record header loses nothing: every value of the list is a
    byte, the first holds the type above its four low bits, and the length
    is the four low bits of the first byte plus sixteen times the number
    that the bytes after it write, seven bits each, low bits first. *)
Theorem pack_header_size_recoverable (type_num size : N) :
  type_num < 8 ->
  exists (first : N) (rest : list N),
    remote_manager.pack_header type_num size = first :: rest
    /\ Forall (fun b => b < 256) (first :: rest)
    /\ N.shiftr first 4 = type_num
    /\ size = N.land first 0x0f + 16 * varint_value rest.
Proof.
  intros Ht. unfold remote_manager.pack_header. eexists _, _. split; [reflexivity|].
  assert (Hfirst : N.lor (N.shiftl type_num 4) (N.land size 15)
                   = 16 * type_num + size mod 16).
  { change 15 with (N.ones 4). rewrite N.land_ones. change (2 ^ 4) with 16.
    rewrite N.shiftl_mul_pow2. change (2 ^ 4) with 16.
    assert (Hd : N.land (type_num * 16) (size mod 16) = 0).
    { apply N.bits_inj. intros k. rewrite N.land_spec, N.bits_0.
      destruct (N.lt_ge_cases k 4) as [Hk|Hk].
      - change 16 with (2 ^ 4). by rewrite N.mul_pow2_bits_low.
      - change 16 with (2 ^ 4). rewrite N.mod_pow2_bits_high by done.
        apply andb_false_r. }
    rewrite <- N.lxor_lor, <- N.add_nocarry_lxor by done. lia. }
  rewrite Hfirst. split; [|split].
  - constructor; [nlia | apply size_bytes_small].
  - rewrite N.shiftr_div_pow2. change (2 ^ 4) with 16. nlia.
  - rewrite size_bytes_value by (rewrite N2Nat.id; apply N.size_gt).
    rewrite N.shiftr_div_pow2. change (2 ^ 4) with 16.
    change 15 with (N.ones 4). rewrite N.land_ones. change (2 ^ 4) with 16. nlia.
Qed.

Lemma pack_header_size_recoverable_witness :
  exists (first : N) (rest : list N),
    remote_manager.pack_header 3 300 = first :: rest
    /\ Forall (fun b => b < 256) (first :: rest)
    /\ N.shiftr first 4 = 3
    /\ 300 = N.land first 0x0f + 16 * varint_value rest.
Proof. apply (pack_header_size_recoverable 3 300). lia. Defined.

(** ** Ref discovery, line by line *)

Lemma split_on_line (sep : byte) (line rest cur : bytes) :
  sep ∉ line ->
  split_on sep (line ++ sep :: rest) cur = (rev cur ++ line) :: split_on sep rest [].
Proof.
  revert cur. induction line as [|b line IH]; intros cur Hl; cbn [app split_on].
  - rewrite bool_decide_eq_true_2 by done. by rewrite app_nil_r.
  - apply not_elem_of_cons in Hl as [Hb Hl].
    rewrite bool_decide_eq_false_2 by congruence.
    rewrite IH by done. cbn [rev]. by rewrite <- app_assoc.
Qed.

Lemma split_on_lines (sep : byte) (lines : list bytes) (rest : bytes) :
  Forall (fun line => sep ∉ line) lines ->
  split_on sep (concat (map (fun line => line ++ [sep]) lines) ++ rest) []
  = lines ++ split_on sep rest [].
Proof.
  induction 1 as [|line lines Hl _ IH]; [done|].
  cbn [map concat]. rewrite <- !app_assoc. cbn [app].
  rewrite split_on_line by done. by rewrite IH.
Qed.

Lemma contains_app {A} `{EqDecision A} (p a b : list A) :
  contains p (a ++ p ++ b) = true.
Proof.
  assert (Hs : forall s, startswith p (p ++ s) = true).
  { induction p as [|x p IH]; intros s; cbn [app startswith]; [done|].
    by rewrite bool_decide_eq_true_2, IH. }
  induction a as [|x a IH]; cbn [app].
  - destruct (p ++ b) eqn:E; cbn [contains]; rewrite <- ?E, Hs; done.
  - cbn [contains]. rewrite IH. apply orb_true_r.
Qed.

Lemma scan_lines_passed (before after : list bytes) :
  Forall passed_over before ->
  remote_manager.scan_lines (before ++ after) = remote_manager.scan_lines after.
Proof.
  induction 1 as [|line before Hl _ IH]; [done|].
  cbn [app remote_manager.scan_lines].
  destruct Hl as [-> | Hc]; [done|].
  destruct (startswith _ line); [done|]. by rewrite Hc.
Qed.

Lemma word_not_blank_bytes (w : str) :
  is_word w -> Forall (fun b => isspace_byte b = false) (map byte_of_N w).
Proof.
  intros [_ Hw]. apply Forall_forall. intros b (c & -> & Hc)%list_elem_of_fmap.
  rewrite Forall_forall in Hw. apply Hw in Hc. unfold isspace_byte. cbv zeta.
  rewrite to_N_byte_of_N by lia. bounds. reflexivity.
Qed.

(** X23. [get_remote_master_hash] returns the first word of the first line
    that holds [refs/heads/master] and does not start with [00], whatever
    follows the ref name on that line: a ref whose name only starts with
    [refs/heads/master] is taken for the branch when it comes first.
    [before] are the lines passed over and [tail] is what follows the ref
    name. *)
Theorem remote_master_hash_first_match (h : str) (before : list bytes)
    (tail rest : bytes) :
  is_word h ->
  startswith (lit "00") (map byte_of_N h) = false ->
  Forall (fun line => x0a ∉ line) before -> Forall passed_over before ->
  (x0a ∉ tail) ->
  remote_manager.get_remote_master_hash
    (concat (map (fun line => line ++ [x0a]) before)
     ++ map byte_of_N h ++ lit " refs/heads/master" ++ tail ++ x0a :: rest)
  = Ok (Some h).
Proof.
  intros Hw H00 Hnl Hpass Htail. unfold remote_manager.get_remote_master_hash.
  rewrite split_on_lines by done.
  set (line := map byte_of_N h ++ lit " refs/heads/master" ++ tail).
  replace (map byte_of_N h ++ lit " refs/heads/master" ++ tail ++ x0a :: rest)
    with (line ++ x0a :: rest) by (unfold line; by rewrite <- !app_assoc).
  assert (Hline : x0a ∉ line).
  { unfold line. rewrite !not_elem_of_app. split; [|split; [not_in | done]].
    eapply bytes_not_in; [apply Hw | | ]; simpl; lia. }
  rewrite split_on_line by done. cbn [rev app].
  rewrite scan_lines_passed by done. cbn [remote_manager.scan_lines].
  assert (Hs : startswith (lit "00") line = false).
  { destruct Hw as [Hne Hv]. unfold line. destruct h as [|c1 [|c2 h]]; [done| |].
    - cbn in H00 |- *. by destruct (bool_decide _).
    - exact H00. }
  rewrite Hs.
  assert (Hc : contains (lit "refs/heads/master") line = true).
  { unfold line. change (lit " refs/heads/master") with ([x20] ++ lit "refs/heads/master").
    rewrite <- (app_assoc [x20]), app_assoc. apply contains_app. }
  rewrite Hc. unfold line.
  rewrite split_ws_word by (by apply word_not_blank_bytes).
  rewrite app_nil_r.
  change (lit " refs/heads/master" ++ tail)
    with (x20 :: (lit "refs/heads/master" ++ tail)).
  cbn [split_ws]. change (isspace_byte x20) with true. cbv iota.
  destruct (rev (map byte_of_N h)) as [|x r] eqn:Er.
  { apply (f_equal (@rev byte)) in Er. rewrite rev_involutive in Er.
    destruct Hw as [Hne _]. by destruct h. }
  rewrite <- Er, rev_involutive.
  rewrite decode_ascii; [done|].
  destruct Hw as [_ Hv]. eapply Forall_impl; [exact Hv|]. simpl. lia.
Qed.

Lemma remote_master_hash_first_match_witness :
  remote_manager.get_remote_master_hash
    (concat (map (fun line => line ++ [x0a]) [lit "001f# service=git-receive-pack"])
     ++ map byte_of_N (txt "a1a1b2c3d4e5f60718293a4b5c6d7e8f90a1b2c3")
     ++ lit " refs/heads/master" ++ lit "2" ++ x0a ::
        lit "b2b2b2c3d4e5f60718293a4b5c6d7e8f90a1b2c3 refs/heads/master")
  = Ok (Some (txt "a1a1b2c3d4e5f60718293a4b5c6d7e8f90a1b2c3")).
Proof.
  apply (remote_master_hash_first_match (txt "a1a1b2c3d4e5f60718293a4b5c6d7e8f90a1b2c3")
           [lit "001f# service=git-receive-pack"] (lit "2")).
  - split; [done | repeat constructor; vm_compute; done].
  - reflexivity.
  - constructor; [not_in | constructor].
  - constructor; [by left | constructor].
  - not_in.
Defined.

Lemma split_ws_nonempty {A} (blank : A -> bool) (s cur : list A) :
  cur <> [] \/ Exists (fun c => blank c = false) s ->
  split_ws blank s cur <> [].
Proof.
  revert cur. induction s as [|c s IH]; intros cur Hc; cbn [split_ws].
  - destruct Hc as [Hc|Hc]; [by destruct cur | by apply Exists_nil in Hc].
  - destruct (blank c) eqn:Eb.
    + destruct cur; [|done]. apply IH. right.
      destruct Hc as [Hc|Hc]; [done|]. apply Exists_cons in Hc as [Hc|Hc]; [congruence|done].
    + apply IH. by left.
Qed.

Lemma contains_first {A} `{EqDecision A} (x : A) (p s : list A) :
  contains (x :: p) s = true -> x ∈ s.
Proof.
  induction s as [|y s IH]; cbn [contains startswith]; [done|].
  intros [Hs|Hc]%orb_prop.
  - apply andb_prop in Hs as [Hxy _]. apply bool_decide_eq_true in Hxy as ->.
    by left.
  - right. by apply IH.
Qed.

Lemma scan_lines_error (lines : list bytes) (e : exn) :
  remote_manager.scan_lines lines = Raise e -> e = UnicodeDecodeError.
Proof.
  induction lines as [|line lines IH]; cbn [remote_manager.scan_lines]; [done|].
  destruct (startswith _ line); [done|].
  destruct (contains _ line) eqn:Ec; [|done].
  destruct (split_ws isspace_byte line []) as [|first l] eqn:Es.
  - exfalso. revert Es. apply split_ws_nonempty. right.
    apply contains_first in Ec. apply Exists_exists. by exists "r"%byte.
  - intros [Hd|(s & _ & Hs)]%bind_raise_inv; [by apply decode_error in Hd | done].
Qed.

(** X24. [get_remote_master_hash] fails only in decoding the hash, with
    [UnicodeDecodeError]: a line that holds the ref name has a first word,
    so the subscript never raises. When every line is passed over, the
    empty response included, it returns [None]. *)
Theorem remote_master_hash_failures (response : bytes) :
  (forall e : exn,
     remote_manager.get_remote_master_hash response = Raise e ->
     e = UnicodeDecodeError)
  /\ (Forall passed_over (split_on x0a response []) ->
      remote_manager.get_remote_master_hash response = Ok None).
Proof.
  unfold remote_manager.get_remote_master_hash. split.
  - intros e. apply scan_lines_error.
  - intros Hp. rewrite <- (app_nil_r (split_on x0a response [])).
    by rewrite scan_lines_passed.
Qed.

Lemma remote_master_hash_failures_witness :
  remote_manager.get_remote_master_hash (lit "0000") = Ok None.
Proof.
  apply (remote_master_hash_failures (lit "0000")).
  constructor; [by left | constructor].
Defined.

(** ** pkt-lines *)

Lemma hex_digits_S (fuel : nat) (n : N) (acc : str) :
  hex_digits (S fuel) n acc
  = if n / 16 =? 0 then hexdigit (n mod 16) :: acc
    else hex_digits fuel (n / 16) (hexdigit (n mod 16) :: acc).
Proof. reflexivity. Qed.

Lemma log2_fuel (n : N) (k : N) :
  2 ^ k <= n -> exists fuel, N.to_nat (N.log2 n) = (N.to_nat k + fuel)%nat.
Proof.
  intros Hk. exists (N.to_nat (N.log2 n) - N.to_nat k)%nat.
  assert (k <= N.log2 n); [|lia]. apply N.log2_le_pow2; [|done].
  pose proof (N.pow_nonzero 2 k). lia.
Qed.

Ltac hex_step :=
  rewrite hex_digits_S;
  match goal with
  | |- context [(?a / 16 =? 0)] =>
      destruct (N.eqb_spec (a / 16) 0); [try (exfalso; nlia) | try (exfalso; nlia)]
  end.

Lemma hex04_four_digits (n : N) : n < 65536 -> hex04 n = four_digits n.
Proof.
  intros Hn. unfold hex04, four_digits.
  destruct (N.lt_ge_cases n 16) as [H1|H1];
    [|destruct (N.lt_ge_cases n 256) as [H2|H2];
      [|destruct (N.lt_ge_cases n 4096) as [H3|H3]]].
  - hex_step. cbn [length Nat.sub repeat app]. unfold digit, hexdigit.
    repeat f_equal; nbounds; nlia.
  - destruct (log2_fuel n 4) as [f ->]; [done|].
    change (N.to_nat 4 + f)%nat with (S (S (S (S f)))).
    do 2 hex_step. cbn [length Nat.sub repeat app]. unfold digit, hexdigit.
    repeat f_equal; nbounds; nlia.
  - destruct (log2_fuel n 8) as [f ->]; [done|].
    change (N.to_nat 8 + f)%nat with (S (S (S (S (S (S (S (S f)))))))).
    do 3 hex_step. cbn [length Nat.sub repeat app]. unfold digit, hexdigit.
    repeat f_equal; nbounds; nlia.
  - destruct (log2_fuel n 12) as [f ->]; [done|].
    change (N.to_nat 12 + f)%nat with (S (S (S (S (S (S (S (S (S (S (S (S f)))))))))))).
    do 4 hex_step. cbn [length Nat.sub repeat app]. unfold digit, hexdigit.
    repeat f_equal; nbounds; nlia.
Qed.

Lemma encode_cp_length (c : N) (b : bytes) :
  encode_cp c = Ok b ->
  (1 <= length b)%nat /\ (length b = 1%nat <-> c < 128).
Proof.
  unfold encode_cp. bounds; cbn [andb]; intros Heq; try discriminate;
    apply Ok_inj in Heq as <-; cbn [length]; (split; [lia|]); split; (lia || done).
Qed.

Lemma encode_length (s : str) (b : bytes) :
  encode s = Ok b ->
  (length s <= length b)%nat
  /\ (length b = length s <-> Forall (fun c => c < 128) s).
Proof.
  revert b. induction s as [|c s IH]; intros b; cbn [encode].
  - intros <-%Ok_inj. split; [done|]. split; [constructor | done].
  - intros (bc & Hc & (br & Hr & <-%Ok_inj)%bind_ok_inv)%bind_ok_inv.
    apply encode_cp_length in Hc as [Hc1 Hc2]. apply IH in Hr as [Hr1 Hr2].
    rewrite length_app. cbn [length]. split; [lia|]. rewrite Forall_cons. split.
    + intros Hl. split; [apply Hc2; lia | apply Hr2; lia].
    + intros [Hlt Hall]. apply Hc2 in Hlt. apply Hr2 in Hall. lia.
Qed.

Lemma four_digits_ascii (n : N) :
  n < 65536 -> Forall (fun c => c < 128) (four_digits n).
Proof.
  intros Hn. unfold four_digits, hexdigit.
  repeat constructor; nbounds; nlia.
Qed.

Lemma pkt_loop_frames (lines : list str) (payloads : list bytes) :
  Forall2 (fun line payload => encode line = Ok payload) lines payloads ->
  Forall (fun line => N.of_nat (length line + 4) < 65536) lines ->
  remote_manager.pkt_loop lines
  = Ok (zip_with (fun line payload =>
                    map byte_of_N (four_digits (N.of_nat (length line + 4))) ++ payload)
          lines payloads).
Proof.
  induction 1 as [|line payload lines payloads He _ IH]; intros Hlen; [done|].
  apply Forall_cons in Hlen as [Hl Hlen].
  cbn [remote_manager.pkt_loop zip_with].
  rewrite hex04_four_digits by done.
  rewrite (encode_ascii (four_digits _)) by (by apply four_digits_ascii). rbind.
  rewrite He. rbind. rewrite IH by done. reflexivity.
Qed.

(** X25. [build_pkt_line_data] frames each line that has a UTF-8 form and
    fewer than 65532 characters as four hexadecimal digits, which write the
    number of its characters plus four, and the line in UTF-8; the bytes
    [0000] end the data. *)
Theorem build_pkt_line_data_frames (lines : list str) (payloads : list bytes) :
  Forall2 (fun line payload => encode line = Ok payload) lines payloads ->
  Forall (fun line => N.of_nat (length line + 4) < 65536) lines ->
  remote_manager.build_pkt_line_data lines
  = Ok (concat (zip_with (fun line payload =>
                            map byte_of_N (four_digits (N.of_nat (length line + 4)))
                            ++ payload)
                  lines payloads)
        ++ lit "0000").
Proof.
  intros He Hlen. unfold remote_manager.build_pkt_line_data.
  rewrite (pkt_loop_frames lines payloads) by done. rbind.
  rewrite concat_app. cbn [concat]. by rewrite app_nil_r.
Qed.

Lemma build_pkt_line_data_frames_witness :
  remote_manager.build_pkt_line_data [txt "hello"; txt "a b"]
  = Ok (concat (zip_with (fun line payload =>
                            map byte_of_N (four_digits (N.of_nat (length line + 4)))
                            ++ payload)
                  [txt "hello"; txt "a b"] [lit "hello"; lit "a b"])
        ++ lit "0000").
Proof.
  apply (build_pkt_line_data_frames [txt "hello"; txt "a b"] [lit "hello"; lit "a b"]).
  - repeat constructor.
  - repeat constructor.
Defined.

Example build_pkt_line_data_hello :
  remote_manager.build_pkt_line_data [txt "hello"; txt "a b"] = Ok (lit "0009hello0007a b0000").
Proof. reflexivity. Qed.

(** X26. The length field of a pkt-line counts the characters of the line,
    not its bytes: the packet made for a line is four bytes longer than the
    line in UTF-8, which is what the field says exactly when the line is in
    ASCII; for any other line the field says less than the packet
    holds. *)
Theorem pkt_line_length_counts_characters (line : str) (out : bytes) :
  remote_manager.build_pkt_line_data [line] = Ok out ->
  N.of_nat (length line + 4) < 65536 ->
  exists packet : bytes,
    out = packet ++ lit "0000"
    /\ take 4 packet = map byte_of_N (four_digits (N.of_nat (length line + 4)))
    /\ (length line + 4 <= length packet)%nat
    /\ (length packet = (length line + 4)%nat <-> Forall (fun c => c < 128) line).
Proof.
  intros Hb Hlen. unfold remote_manager.build_pkt_line_data in Hb.
  apply bind_ok_inv in Hb as (pkts & Hp & <-%Ok_inj).
  cbn [remote_manager.pkt_loop] in Hp.
  apply bind_ok_inv in Hp as (len & Hl & Hp).
  apply bind_ok_inv in Hp as (payload & He & Hp).
  rewrite bind_ok in Hp. apply Ok_inj in Hp as <-.
  rewrite hex04_four_digits in Hl by done.
  rewrite (encode_ascii (four_digits _)) in Hl by (by apply four_digits_ascii).
  apply Ok_inj in Hl as <-.
  apply encode_length in He as [He1 He2].
  exists (map byte_of_N (four_digits (N.of_nat (length line + 4))) ++ payload).
  split; [cbn [app concat]; by rewrite app_nil_r, <- app_assoc|].
  split; [by rewrite take_app_length' by reflexivity|].
  rewrite length_app. change (length (map byte_of_N (four_digits _))) with 4%nat.
  split; [lia|]. rewrite <- He2. lia.
Qed.

Lemma pkt_line_length_counts_characters_witness :
  exists packet : bytes,
    e_acute_pkt = packet ++ lit "0000"
    /\ take 4 packet = map byte_of_N (four_digits (N.of_nat (length [233] + 4)))
    /\ (length [233] + 4 <= length packet)%nat
    /\ (length packet = (length [233] + 4)%nat <-> Forall (fun c => c < 128) [233]).
Proof.
  apply (pkt_line_length_counts_characters [233] e_acute_pkt); reflexivity.
Defined.

Example pkt_line_e_acute : e_acute_pkt = lit "0005" ++ [xc3; xa9] ++ lit "0000".
Proof. reflexivity. Qed.

(** ** push *)



Lemma hexdigest_is_hash (b : bytes) : is_hash (hexdigest b).
Proof. split; [apply hexdigest_length | apply hex_visible]. Qed.

(** X28. What [push] sends. For a local tip and a remote tip that are
    hashes, once the missing objects are found and packed, the request to
    [git-receive-pack] holds one pkt-line of 0x75 bytes, with the remote
    tip (forty zeros when the server has no master branch), the local
    tip, the ref name, a NUL byte and [report-status], then the flush
    packet [0000] and the pack; [push] prints that it succeeded exactly
    when the answer holds [unpack ok]. *)
Theorem push_request `{Zlib}
    (http_request : str -> str -> str -> option bytes -> option bytes)
    (git_url username password : str) (fuel : nat) (st : repo)
    (local_sha1 : str) (response : bytes) (remote_sha1 : option str)
    (missing_objects : gset str) (pack_data reply : bytes) :
  commit_manager.get_latest_commit st = Some local_sha1 ->
  is_hash local_sha1 ->
  http_request (git_url ++ txt "/info/refs?service=git-receive-pack")
    username password None = Some response ->
  remote_manager.get_remote_master_hash response = Ok remote_sha1 ->
  (forall r, remote_sha1 = Some r -> is_hash r) ->
  remote_manager.find_missing_objects fuel local_sha1 remote_sha1 st
  = Ok missing_objects ->
  remote_manager.create_pack missing_objects st = Ok pack_data ->
  http_request (git_url ++ txt "/git-receive-pack") username password
    (Some (lit "0075" ++ map byte_of_N (default (repeat 48 40) remote_sha1)
           ++ lit " " ++ map byte_of_N local_sha1
           ++ lit " refs/heads/master" ++ [x00] ++ lit "report-status"
           ++ lit "0000" ++ pack_data))
  = Some reply ->
  remote_manager.push http_request git_url username password fuel st
  = remote_manager.Printed (if contains (lit "unpack ok") reply
                then txt "Push successful" else txt "Push failed").
Proof.
  intros Hlocal [Hl40 Hlv] Hreq Hhash Hremote Hmissing Hpack Hpost.
  unfold remote_manager.push. rewrite Hlocal, Hreq, Hhash, Hmissing, Hpack.
  set (old := if commit_manager.truthy remote_sha1
              then default [] remote_sha1 else repeat 48 40).
  assert (Hold : old = default (repeat 48 40) remote_sha1 /\ is_hash old).
  { unfold old. destruct remote_sha1 as [r|].
    - destruct (Hremote r eq_refl) as [Hr40 Hrv].
      assert (commit_manager.truthy (Some r) = true) as -> by (by destruct r).
      by repeat split.
    - split; [done|]. split; [done | repeat constructor; lia]. }
  destruct Hold as [Hold [Ho40 Hov]].
  set (line := old ++ txt " " ++ local_sha1 ++ txt " refs/heads/master" ++ [0]
               ++ txt "report-status").
  assert (Hlen : length line = 113%nat).
  { unfold line. rewrite !length_app, Ho40, Hl40. reflexivity. }
  assert (Hascii : Forall (fun c => c < 128) line).
  { unfold line. repeat (apply Forall_app; split);
      try (repeat constructor; vm_compute; done);
      (eapply Forall_impl; [eassumption|]; simpl; lia). }
  unfold remote_manager.build_pkt_line_data.
  rewrite (pkt_loop_frames [line] [map byte_of_N line]);
    [| repeat constructor; by apply encode_ascii
     | repeat constructor; by rewrite Hlen].
  rbind. cbn [zip_with app concat]. rewrite Hlen.
  match goal with
  | |- context [http_request _ _ _ (Some ?d)] =>
      replace d
        with (lit "0075" ++ map byte_of_N (default (repeat 48 40) remote_sha1)
              ++ lit " " ++ map byte_of_N local_sha1
              ++ lit " refs/heads/master" ++ [x00] ++ lit "report-status"
              ++ lit "0000" ++ pack_data)
  end.
  - rewrite Hpost. by destruct (contains _ reply).
  - unfold line. rewrite Hold, !map_app, app_nil_r, <- !app_assoc. reflexivity.
Qed.

Lemma push_request_witness :
  @remote_manager.push stored parent_server (txt "https://example.org/r.git") (txt "u") (txt "p")
    8 demo_pushed_repo
  = remote_manager.Printed (txt "Push successful").
Proof.
  apply (@push_request stored parent_server (txt "https://example.org/r.git")
           (txt "u") (txt "p") 8 demo_pushed_repo demo_commit_hash
           (map byte_of_N demo_parent_hash ++ lit " refs/heads/master" ++ [x0a])
           (Some demo_parent_hash) demo_missing demo_pack
           (lit "000eunpack ok" ++ [x0a] ++ lit "0000")).
  - vm_compute. reflexivity.
  - split; [vm_compute; reflexivity | vm_compute; repeat constructor].
  - reflexivity.
  - vm_compute. reflexivity.
  - intros r [= <-]. split; [vm_compute; reflexivity | vm_compute; repeat constructor].
  - vm_cast_no_check (eq_refl (Ok demo_missing)).
  - vm_cast_no_check (eq_refl (Ok demo_pack)).
  - reflexivity.
Defined.

(** ** Initialising a repository *)

Lemma removelast_snoc {A} (l : list A) (x : A) : removelast (l ++ [x]) = l.
Proof. rewrite removelast_app by done. cbn [removelast]. apply app_nil_r. Qed.

Lemma well_formed_insert (t : repo_manager.tree) (path : list str)
    (n : repo_manager.node) :
  well_formed t ->
  (path = [] \/ t !! removelast path = Some repo_manager.Dir) ->
  (t !! path = None \/ exists c c', t !! path = Some (repo_manager.File c)
                                     /\ n = repo_manager.File c') ->
  well_formed (<[path := n]> t).
Proof.
  intros Hwf Hparent Hold p name Hsome.
  destruct (decide (p = path)) as [->|Hp].
  - (* an entry below [path]: there was none *)
    exfalso. destruct (decide (path ++ [name] = path)) as [Heq|Hne].
    { apply (f_equal length) in Heq. rewrite length_app in Heq. simpl in Heq. lia. }
    rewrite lookup_insert_ne in Hsome by done.
    apply Hwf in Hsome. destruct Hold as [Hnone|(c & c' & Hc & _)]; congruence.
  - rewrite lookup_insert_ne by done.
    destruct (decide (p ++ [name] = path)) as [<-|Hne].
    + destruct Hparent as [Hnil|Hdir]; [by destruct p|].
      by rewrite removelast_snoc in Hdir.
    + rewrite lookup_insert_ne in Hsome by done. by eapply Hwf.
Qed.

Lemma mkdir_well_formed (path : list str) (t : repo_manager.tree) :
  well_formed t -> well_formed (repo_manager.mkdir path t).1.
Proof.
  intros Hwf. unfold repo_manager.mkdir.
  destruct (t !! path) eqn:Ep; [done|].
  destruct path as [|x path]; cbn [fst].
  - apply well_formed_insert; auto.
  - destruct (t !! removelast (x :: path)) as [[|c]|] eqn:Er; cbn [fst]; try done.
    apply well_formed_insert; auto.
Qed.

Lemma makedirs_rev_well_formed (rname : list str) (t : repo_manager.tree) :
  well_formed t -> well_formed (repo_manager.makedirs_rev rname t).1.
Proof.
  revert t. induction rname as [|x rhead IH]; intros t Hwf;
    cbn [repo_manager.makedirs_rev].
  - by apply mkdir_well_formed.
  - destruct (bool_decide _); [by apply mkdir_well_formed|].
    specialize (IH t Hwf).
    destruct (repo_manager.makedirs_rev rhead t) as [t1 [[| | |]|]]; cbn [fst] in *;
      try done; by apply mkdir_well_formed.
Qed.

Lemma write_file_well_formed (path : list str) (content : bytes)
    (t : repo_manager.tree) :
  well_formed t -> well_formed (repo_manager.write_file path content t).1.
Proof.
  intros Hwf. unfold repo_manager.write_file.
  destruct (t !! path) as [[|c]|] eqn:Ep; cbn [fst]; [done| |];
    (destruct (t !! removelast path) as [[|c']|] eqn:Er; cbn [fst]; [|done|done]);
    apply well_formed_insert; eauto.
Qed.

Lemma create_repo_well_formed (repo_path : str) (t : repo_manager.tree) :
  well_formed t -> well_formed (repo_manager.create_repo repo_path t).1.
Proof.
  intros Hwf. unfold repo_manager.create_repo, repo_manager.makedirs.
  pose proof (makedirs_rev_well_formed (rev [txt ".git"; txt "objects"]) t Hwf) as H1.
  destruct (repo_manager.makedirs_rev (rev [txt ".git"; txt "objects"]) t) as [t1 [e|]];
    [done|]. cbn [fst] in H1.
  pose proof (makedirs_rev_well_formed (rev [txt ".git"; txt "refs"; txt "heads"]) t1 H1)
    as H2.
  destruct (repo_manager.makedirs_rev (rev [txt ".git"; txt "refs"; txt "heads"]) t1)
    as [t2 [e|]]; [done|]. cbn [fst] in H2.
  pose proof (write_file_well_formed [txt ".git"; txt "HEAD"]
                (lit "ref: refs/heads/master") t2 H2) as H3.
  by destruct (repo_manager.write_file _ _ t2) as [t3 [e|]].
Qed.

Lemma well_formed_empty : well_formed ∅.
Proof. intros p name [x Hx]. by rewrite lookup_empty in Hx. Qed.

(** Below a path that is absent there is nothing. *)
Lemma well_formed_absent (t : repo_manager.tree) (path : list str) (name : str) :
  well_formed t -> t !! path = None -> t !! (path ++ [name]) = None.
Proof.
  intros Hwf Hnone. destruct (t !! (path ++ [name])) eqn:E; [|done].
  assert (Hs : is_Some (t !! (path ++ [name]))) by (by eexists).
  apply Hwf in Hs. congruence.
Qed.

Lemma mkdir_new (path : list str) (t : repo_manager.tree) :
  t !! path = None ->
  path = [] \/ t !! removelast path = Some repo_manager.Dir ->
  repo_manager.mkdir path t = (<[path := repo_manager.Dir]> t, None).
Proof.
  intros Hnone Hparent. unfold repo_manager.mkdir. rewrite Hnone.
  destruct path as [|x path]; [done|].
  destruct Hparent as [Hnil | ->]; done.
Qed.

(** X29. In a directory without [.git], or at a path where nothing is yet,
    [create_repo] returns after printing its line and leaves the
    directories [.git], [.git/objects], [.git/refs] and [.git/refs/heads]
    and the file [.git/HEAD], which holds [ref: refs/heads/master]; nothing
    else is changed. *)
Theorem create_repo_fresh (repo_path : str) (t : repo_manager.tree) :
  well_formed t ->
  t !! [txt ".git"] = None ->
  (forall c, t !! [] <> Some (repo_manager.File c)) ->
  repo_manager.create_repo repo_path t
  = (<[ [txt ".git"; txt "HEAD"] := repo_manager.File (lit "ref: refs/heads/master") ]>
       (<[ [txt ".git"; txt "refs"; txt "heads"] := repo_manager.Dir ]>
          (<[ [txt ".git"; txt "refs"] := repo_manager.Dir ]>
             (<[ [txt ".git"; txt "objects"] := repo_manager.Dir ]>
                (<[ [txt ".git"] := repo_manager.Dir ]>
                   (<[ [] := repo_manager.Dir ]> t))))),
     repo_manager.Returned (txt "Repository initialized at " ++ repo_path)).
Proof.
  intros Hwf Hgit Hroot.
  pose proof (well_formed_absent t [txt ".git"] (txt "objects") Hwf Hgit) as Hobj.
  pose proof (well_formed_absent t [txt ".git"] (txt "refs") Hwf Hgit) as Hrefs.
  pose proof (well_formed_absent t [txt ".git"] (txt "HEAD") Hwf Hgit) as Hhead.
  pose proof (well_formed_absent t [txt ".git"; txt "refs"] (txt "heads") Hwf Hrefs)
    as Hheads.
  cbn [app] in *.
  set (t0 := <[ [] := repo_manager.Dir ]> t).
  assert (H0 : repo_manager.makedirs_rev [txt ".git"] t
               = (<[ [txt ".git"] := repo_manager.Dir ]> t0, None)).
  { cbn [repo_manager.makedirs_rev rev app]. unfold t0.
    destruct (t !! []) as [[|c]|] eqn:Eroot.
    - rewrite bool_decide_eq_true_2 by (by eexists).
      rewrite mkdir_new by (done || by right). by rewrite (insert_id t []).
    - by destruct (Hroot c).
    - rewrite bool_decide_eq_false_2 by (by intros [? ?]).
      rewrite (mkdir_new [] t) by (done || by left).
      rewrite mkdir_new; [done | by rewrite lookup_insert_ne | right].
      apply lookup_insert_eq. }
  unfold repo_manager.create_repo, repo_manager.makedirs.
  cbn [rev app repo_manager.makedirs_rev].
  rewrite bool_decide_eq_false_2 by (rewrite Hgit; by intros [? ?]).
  cbn [rev app repo_manager.makedirs_rev] in H0. rewrite H0.
  rewrite mkdir_new;
    [| unfold t0; by rewrite !lookup_insert_ne
     | right; apply lookup_insert_eq].
  set (t1 := <[ [txt ".git"; txt "objects"] := _ ]> _).
  assert (Hg1 : t1 !! [txt ".git"] = Some repo_manager.Dir).
  { unfold t1. rewrite lookup_insert_ne by done. apply lookup_insert_eq. }
  assert (Hr1 : t1 !! [txt ".git"; txt "refs"] = None).
  { unfold t1, t0. by rewrite !lookup_insert_ne. }
  rewrite bool_decide_eq_false_2 by (rewrite Hr1; by intros [? ?]).
  rewrite bool_decide_eq_true_2 by (rewrite Hg1; by eexists).
  rewrite mkdir_new by (done || by right).
  rewrite mkdir_new;
    [| unfold t1, t0; by rewrite !lookup_insert_ne
     | right; apply lookup_insert_eq].
  unfold repo_manager.write_file.
  rewrite lookup_insert_ne by done. rewrite lookup_insert_ne by done.
  replace (t1 !! [txt ".git"; txt "HEAD"]) with (@None repo_manager.node)
    by (unfold t1, t0; by rewrite !lookup_insert_ne).
  cbn [removelast].
  rewrite lookup_insert_ne by done. rewrite lookup_insert_ne by done. rewrite Hg1.
  reflexivity.
Qed.

Lemma create_repo_fresh_witness :
  repo_manager.create_repo (txt "r") ∅
  = (<[ [txt ".git"; txt "HEAD"] := repo_manager.File (lit "ref: refs/heads/master") ]>
       (<[ [txt ".git"; txt "refs"; txt "heads"] := repo_manager.Dir ]>
          (<[ [txt ".git"; txt "refs"] := repo_manager.Dir ]>
             (<[ [txt ".git"; txt "objects"] := repo_manager.Dir ]>
                (<[ [txt ".git"] := repo_manager.Dir ]>
                   (<[ [] := repo_manager.Dir ]> ∅))))),
     repo_manager.Returned (txt "Repository initialized at " ++ txt "r")).
Proof.
  apply (create_repo_fresh (txt "r") ∅).
  - apply well_formed_empty.
  - apply lookup_empty.
  - intros c. by rewrite lookup_empty.
Defined.

(** X30. [create_repo] refuses a place where [.git/objects] or
    [.git/refs/heads] exists: it leaves by [sys.exit(1)] after a
    [FileExistsError], and the tree is as it was but for the directory
    [.git/objects], which the call may have made. [HEAD] in particular is
    not written. *)
Theorem create_repo_existing (repo_path : str) (t : repo_manager.tree) :
  well_formed t ->
  is_Some (t !! [txt ".git"; txt "objects"])
  \/ is_Some (t !! [txt ".git"; txt "refs"; txt "heads"]) ->
  exists t' : repo_manager.tree,
    repo_manager.create_repo repo_path t
    = (t', repo_manager.Exited 1 repo_manager.FileExistsError)
    /\ forall p, p <> [txt ".git"; txt "objects"] -> t' !! p = t !! p.
Proof.
  intros Hwf Hex.
  assert (Hgit : t !! [txt ".git"] = Some repo_manager.Dir).
  { destruct Hex as [Ho|Hh].
    - by apply (Hwf [txt ".git"] (txt "objects")).
    - apply (Hwf [txt ".git"; txt "refs"] (txt "heads")) in Hh.
      apply (Hwf [txt ".git"] (txt "refs")). by eexists. }
  unfold repo_manager.create_repo, repo_manager.makedirs.
  cbn [rev app repo_manager.makedirs_rev].
  rewrite bool_decide_eq_true_2 by (rewrite Hgit; by eexists).
  destruct (t !! [txt ".git"; txt "objects"]) as [n|] eqn:Eo.
  - exists t. split; [|done]. unfold repo_manager.mkdir. by rewrite Eo.
  - destruct Hex as [[? ?]|Hh]; [done|].
    pose proof (Hwf [txt ".git"; txt "refs"] (txt "heads") Hh) as Hrefs.
    rewrite mkdir_new by (done || by right).
    set (t1 := <[ [txt ".git"; txt "objects"] := _ ]> t).
    rewrite bool_decide_eq_true_2
      by (unfold t1; rewrite lookup_insert_ne by done; rewrite Hrefs; by eexists).
    exists t1. split.
    + unfold repo_manager.mkdir. unfold t1 at 1. rewrite lookup_insert_ne by done.
      destruct Hh as [n Hn]. cbn [app] in Hn. by rewrite Hn.
    + intros p Hp. unfold t1. by rewrite lookup_insert_ne.
Qed.

Lemma create_repo_existing_witness :
  exists t' : repo_manager.tree,
    repo_manager.create_repo (txt "r") initialized_tree
    = (t', repo_manager.Exited 1 repo_manager.FileExistsError)
    /\ forall p, p <> [txt ".git"; txt "objects"] -> t' !! p = initialized_tree !! p.
Proof.
  apply (create_repo_existing (txt "r") initialized_tree).
  - apply create_repo_well_formed, well_formed_empty.
  - left. by eexists.
Defined.
